(** * microAO.aoAlg: a functional model of the adaptive-optics numerics

    The Python class [AdaptiveOpticsFunctions] of [microAO/aoAlg.py] is
    embedded function by function.  Array elements, which are binary64
    floats at run time, are modelled by exact rationals ([Q]); all the
    statements below are about shapes, indices, control flow and exact
    algebra, never about rounding.  Python exceptions are values of
    [exn] carried by the [result] monad.  The numerical libraries the
    module calls (numpy.linalg, scipy.stats, scipy.optimize, skimage,
    aotools, the FFT) are not part of the module: they appear as section
    variables, constrained only by the part of their documented
    behaviour that a statement needs. *)

From Stdlib Require Import QArith Qabs Qround Qfield Lia ZArith Lqa.
From stdpp Require Import base list strings pretty.

(** ** Python exceptions and the [result] monad *)

(** The classes of exception that [aoAlg.py] raises itself, or that
    reach it from a library call.  [Exception] and the first use of
    [ValueError] carry the literal message of the [raise] statement; the
    bare [raise Exception] of [ac_pos_from_zernike] has the empty
    message.  For exceptions born inside a library only the class
    matters, their text is shortened to its leading words. *)
Inductive exn : Type :=
| Exception (msg : string)
| ValueError (msg : string)
| IndexError (msg : string)
| TypeError (msg : string)
| KeyError (key : string)
| ZeroDivisionError
| RuntimeError.

Inductive result (A : Type) : Type :=
| Ok (a : A)
| Raise (e : exn).

Arguments Ok {A} a.
Arguments Raise {A} e.

#[global] Instance result_ret : MRet result := λ A, @Ok A.

#[global] Instance result_bind : MBind result :=
  λ A B f m, match m with Ok a => f a | Raise e => Raise e end.

(** [for x in xs: acc = body(x, acc)], stopping at the first exception. *)
Fixpoint for_each {A B : Type} (body : A → B → result B) (xs : list A) (acc : B)
  : result B :=
  match xs with
  | [] => Ok acc
  | x :: xs' => acc' ← body x acc; for_each body xs' acc'
  end.

(** [[f(x) for x in xs]], stopping at the first exception. *)
Fixpoint comprehension {A B : Type} (f : A → result B) (xs : list A)
  : result (list B) :=
  match xs with
  | [] => Ok []
  | x :: xs' => y ← f x; ys ← comprehension f xs'; Ok (y :: ys)
  end.

(** [try: body except ValueError: raise handler]. *)
Definition except_ValueError {A : Type} (body : result A) (handler : exn)
  : result A :=
  match body with
  | Raise (ValueError _) => Raise handler
  | r => r
  end.

(** ** Python indexing *)

(** A Python index [i] into a sequence of length [n]: negative indices
    count from the end, anything else out of range is an [IndexError]. *)
Definition py_index (n : nat) (i : Z) : option nat :=
  if decide (0 ≤ i < Z.of_nat n)%Z then Some (Z.to_nat i)
  else if decide (- Z.of_nat n ≤ i < 0)%Z then Some (Z.to_nat (Z.of_nat n + i))
  else None.

(** One bound of a slice [lo:hi] on a sequence of length [n]: a negative
    bound counts from the end, and the result is clamped to [0..n]. *)
Definition py_bound (n : nat) (i : Z) : nat :=
  if decide (0 ≤ i)%Z then Z.to_nat i `min` n
  else Z.to_nat (Z.of_nat n + i).

(** The slice [l[lo:hi]]; it never raises. *)
Definition py_slice {A : Type} (l : list A) (lo hi : Z) : list A :=
  let s := py_bound (length l) lo in
  let e := py_bound (length l) hi in
  take (e - s) (drop s l).

(** [c // d] on non-negative integers. *)
Definition floordiv (c d : nat) : result nat :=
  if decide (d = 0) then Raise ZeroDivisionError else Ok (c / d).

(** [str.lower], on the ASCII range. *)
Definition lower_ascii (c : Ascii.ascii) : Ascii.ascii :=
  let n := Ascii.nat_of_ascii c in
  if (65 <=? n) && (n <=? 90) then Ascii.ascii_of_nat (n + 32) else c.

Fixpoint lower (s : string) : string :=
  match s with
  | EmptyString => EmptyString
  | String c s' => String (lower_ascii c) (lower s')
  end.

(** [repr] of a tuple of integers, as [str.format] prints a shape. *)
Definition repr_tuple (t : list nat) : string :=
  match t with
  | [] => "()"
  | [d] => "(" +:+ pretty d +:+ ",)"
  | _ => "(" +:+ String.concat ", " (pretty <$> t) +:+ ")"
  end.

(** ** Arrays *)

(** Sums and means of exact numbers.  numpy's mean of an empty lane is
    nan; the model has no nan and the statements keep lanes non-empty. *)
Definition sumQ (l : list Q) : Q := foldr Qplus 0%Q l.

Definition meanQ (l : list Q) : Q :=
  (sumQ l / inject_Z (Z.of_nat (length l)))%Q.

(** [f(0,0), f(0,1), ..., f(outer-1, inner-1)] in row-major order. *)
Definition tabulate2 {A : Type} (outer inner : nat) (f : nat → nat → A) : list A :=
  flat_map (λ p, f p <$> seq 0 inner) (seq 0 outer).

(** An n-dimensional array: its shape and its elements in row-major
    (C) order, as numpy stores a contiguous array. *)
Record ndarray : Type := NDArray { shape : list nat; data : list Q }.

Definition size_of (s : list nat) : nat := foldr Nat.mul 1 s.

Definition ndim (a : ndarray) : nat := length (shape a).

(** The invariant numpy maintains between shape and buffer. *)
Definition wf_ndarray (a : ndarray) : Prop :=
  length (data a) = size_of (shape a).

(** [a[i, j]] of a two-dimensional array with [c] columns. *)
Definition item2 (a : ndarray) (c i j : nat) : Q :=
  default 0%Q (data a !! (i * c + j)).

(** [a.reshape(new)]: same buffer, new shape, sizes must agree. *)
Definition reshape (a : ndarray) (new : list nat) : result ndarray :=
  if decide (size_of new = size_of (shape a)) then Ok (NDArray new (data a))
  else Raise (ValueError "cannot reshape array").

(** The elements of [d] that differ only in the coordinate of the
    reduced axis: [n] is the length of that axis, [inner] the number of
    elements per step of it, [p] and [q] the coordinates before and
    after it. *)
Definition lane (d : list Q) (n inner p q : nat) : list Q :=
  (λ k, default 0%Q (d !! ((p * n + k) * inner + q))) <$> seq 0 n.

(** [a.sum(axis)] and [a.mean(axis)]: fold every lane of the axis. *)
Definition reduce (op : list Q → Q) (axis : Z) (a : ndarray) : result ndarray :=
  match py_index (ndim a) axis with
  | None => Raise (ValueError "axis is out of bounds")
  | Some ax =>
      let pre := take ax (shape a) in
      let post := drop (S ax) (shape a) in
      let n := default 0 (shape a !! ax) in
      Ok (NDArray (pre ++ post)
            (tabulate2 (size_of pre) (size_of post)
               (λ p q, op (lane (data a) n (size_of post) p q))))
  end.

(** [getattr(ndarray, operation)] for the two names [bin_ndarray] lets
    through.  The sums are exact: they are what numpy computes on a
    floating array, up to rounding, and on an integer array as long as
    no sum leaves the range of its 64-bit accumulator, where numpy
    wraps around; the mean of an integer array is computed in floating
    point and does not wrap. *)
Definition getattr (operation : string) : Z → ndarray → result ndarray :=
  if String.eqb operation "sum" then reduce sumQ else reduce meanQ.

(** [a * b] for arrays of one shape (element by element).  Operands of
    different shapes are refused; numpy would first try to broadcast
    them, a case the statements below do not meet. *)
Definition multiply (a b : ndarray) : result ndarray :=
  if decide (shape a = shape b)
  then Ok (NDArray (shape a) (zip_with Qmult (data a) (data b)))
  else Raise (ValueError "operands could not be broadcast together").

(** [np.count_nonzero]. *)
Definition count_nonzero (a : ndarray) : nat :=
  length (filter (λ x, Qeq_bool x 0 = false) (data a)).

(** ** [bin_ndarray] (lines 80-119) *)

Definition bin_ndarray (ndarray0 : ndarray) (new_shape : list nat)
    (operation : string) : result ndarray :=
  let operation := lower operation in
  if negb (bool_decide (operation ∈ ["sum"; "mean"])) then
    Raise (ValueError "Operation not supported.")
  else if negb (ndim ndarray0 =? length new_shape) then
    Raise (ValueError ("Shape mismatch: " +:+ repr_tuple (shape ndarray0)
                         +:+ " -> " +:+ repr_tuple new_shape))
  else
    compression_pairs ←
      comprehension (λ '(d, c), k ← floordiv c d; Ok (d, k))
        (zip new_shape (shape ndarray0));
    let flattened := flat_map (λ p : nat * nat, [p.1; p.2]) compression_pairs in
    ndarray1 ← reshape ndarray0 flattened;
    for_each (λ i nd, getattr operation (-1 * (Z.of_nat i + 1))%Z nd)
      (seq 0 (length new_shape)) ndarray1.

(** ** [get_zernike_modes] (lines 248-266) *)

(** [np.round] rounds halves to the even neighbour. *)
Definition np_round (x : Q) : Z :=
  let f := Qfloor x in
  match (x - inject_Z f ?= 1 # 2)%Q with
  | Lt => f
  | Gt => (f + 1)%Z
  | Eq => if Z.even f then f else (f + 1)%Z
  end.

(** [while original_dim % resize_dim is not 0: resize_dim -= 1].  The
    remainder by a zero [resize_dim] is a [ZeroDivisionError]; the loop
    ends at 1 at the latest, which divides everything. *)
Fixpoint shrink_to_divisor (original_dim resize_dim : nat) : result nat :=
  match resize_dim with
  | 0 => Raise ZeroDivisionError
  | S smaller =>
      if original_dim mod resize_dim =? 0 then Ok resize_dim
      else shrink_to_divisor original_dim smaller
  end.

(** [np.trapz(y)] of a vector, unit spacing:
    [(d * (y[1:] + y[:-1]) / 2.0).sum()] with [d = 1.0]. *)
Definition trapz1 (y : list Q) : Q :=
  sumQ (zip_with (λ a b, (1 * (a + b) / 2)%Q) (drop 1 y) y).

(** [np.trapz(y)] of an array integrates along the last axis. *)
Definition trapz (y : ndarray) : result ndarray := reduce trapz1 (-1) y.

(** The number held by a zero-dimensional array. *)
Definition item (a : ndarray) : Q := default 0%Q (data a !! 0).

Section ModalProjector.

(** [aotools.zernike(j, N)]: the mode of Noll index [j] sampled on an
    [N × N] grid. *)
Variable zernike : nat → nat → ndarray.

Definition get_zernike_modes (image_unwrap : ndarray) (noZernikeModes : nat)
    (resize_dim : nat) : result (list Q) :=
  original_dim ←
    match shape image_unwrap with
    | [] => Raise (IndexError "tuple index out of range")
    | n :: _ => Ok n
    end;
  resize_dim ← shrink_to_divisor original_dim resize_dim;
  let ratio :=
    (inject_Z (Z.of_nat original_dim) / inject_Z (Z.of_nat resize_dim))%Q in
  let resize_dim :=
    if Qlt_le_dec (inject_Z (Z.of_nat resize_dim)) ratio
    then Z.to_nat (np_round ratio) else resize_dim in
  image_resize ← bin_ndarray image_unwrap [resize_dim; resize_dim] "mean";
  let num_pixels := count_nonzero (zernike 1 resize_dim) in
  comprehension
    (λ i,
       product ← multiply image_resize (zernike i resize_dim);
       intermediate ← trapz product;
       total ← trapz intermediate;
       Ok (item total / inject_Z (Z.of_nat num_pixels))%Q)
    (seq 1 noZernikeModes).

End ModalProjector.

(** ** The object and its fields (lines 44-72) *)

Record AdaptiveOpticsFunctions : Type := Self {
  mask : option ndarray;
  fft_filter : option ndarray;
  controlMatrix : option ndarray;
  metric : string
}.

(** [__init__]. *)
Definition init : AdaptiveOpticsFunctions :=
  {| mask := None; fft_filter := None; controlMatrix := None;
     metric := "fourier" |}.

Definition set_mask (self : AdaptiveOpticsFunctions) (m : ndarray)
  : AdaptiveOpticsFunctions :=
  {| mask := Some m; fft_filter := fft_filter self;
     controlMatrix := controlMatrix self; metric := metric self |}.

Definition set_fft_filter (self : AdaptiveOpticsFunctions) (f : ndarray)
  : AdaptiveOpticsFunctions :=
  {| mask := mask self; fft_filter := Some f;
     controlMatrix := controlMatrix self; metric := metric self |}.

Definition set_controlMatrix (self : AdaptiveOpticsFunctions) (cm : ndarray)
  : AdaptiveOpticsFunctions :=
  {| mask := mask self; fft_filter := fft_filter self;
     controlMatrix := Some cm; metric := metric self |}.

(** The keys of the table [metric_function] (lines 36-42). *)
Definition metric_names : list string :=
  ["fourier"; "contrast"; "fourier_power"; "gradient"; "second_moment"].

Definition set_metric (self : AdaptiveOpticsFunctions) (name : string)
  : result AdaptiveOpticsFunctions :=
  if bool_decide (name ∈ metric_names) then
    Ok {| mask := mask self; fft_filter := fft_filter self;
          controlMatrix := controlMatrix self; metric := name |}
  else
    Raise (Exception ("Error: " +:+ name +:+
                      " is not a supported image quality metric")).

(** ** Two-dimensional indexing *)

(** The two extents of a matrix.  Arrays of another rank are outside
    the contracts of the functions below; the model refuses them the way
    numpy refuses an index too many. *)
Definition shape2 (a : ndarray) : result (nat * nat) :=
  match shape a with
  | [r; c] => Ok (r, c)
  | _ => Raise (IndexError "too many indices for array")
  end.

(** [a[:, j]] once [j] is known to be a column of [a]. *)
Definition column (a : ndarray) (r c j : nat) : list Q :=
  (λ i, item2 a c i j) <$> seq 0 r.

(** [a[i, :]] once [i] is known to be a row of [a]. *)
Definition row (a : ndarray) (c i : nat) : list Q :=
  take c (drop (i * c) (data a)).

(** [a[:, j]] with its bounds check. *)
Definition index_column (a : ndarray) (j : nat) : result (list Q) :=
  '(r, c) ← shape2 a;
  if decide (j < c) then Ok (column a r c j)
  else Raise (IndexError "index is out of bounds for axis 1").

(** [a[idx, :]] for an index array [idx], with its bounds check. *)
Definition index_rows (a : ndarray) (idx : list nat) : result ndarray :=
  '(r, c) ← shape2 a;
  if bool_decide (Forall (λ i, i < r) idx) then
    Ok (NDArray [length idx; c]
          (tabulate2 (length idx) c (λ k j, item2 a c (default 0 (idx !! k)) j)))
  else Raise (IndexError "index is out of bounds for axis 0").

(** [a[:, j] = v[:]] for a vector [v] with one entry per row. *)
Definition set_column (a : ndarray) (r c j : nat) (v : list Q) : ndarray :=
  NDArray [r; c]
    (tabulate2 r c (λ i k, if decide (k = j) then default 0%Q (v !! i)
                           else item2 a c i k)).

(** [np.where(v != 0)[0]]. *)
Definition where_nonzero (v : list Q) : list nat :=
  filter (λ i, Qeq_bool (default 0%Q (v !! i)) 0 = false) (seq 0 (length v)).

(** [np.zeros]. *)
Definition zeros (n : nat) : list Q := replicate n 0%Q.

Definition zeros2 (r c : nat) : ndarray := NDArray [r; c] (zeros (r * c)).

(** [np.ones]. *)
Definition ones (n : nat) : list Q := replicate n 1%Q.

(** ** [create_control_matrix] (lines 268-312) *)

Section Calibrator.

(** [scipy.stats.linregress(x, y)]: the slope of the least-squares
    line, or [None] when the call raises (the exception is caught and
    printed on lines 300-301, and the tuple assignment of line 298
    does not happen).  The intercept, the correlation, the p-value
    and the standard error go to arrays that nothing reads. *)
Variable linregress : list Q → list Q → option Q.

(** [np.linalg.pinv(a, rcond)]: the Moore-Penrose pseudo-inverse of
    [a], the singular values not larger than [rcond] times the largest
    one being treated as zero. *)
Variable pinv : ndarray → Q → ndarray.

(** The body of [for kk in range(noZernikeModes)] (lines 296-301). *)
Definition fit_slopes (pokeSteps_trimmed : list Q) (zernikeModeAmp : ndarray)
    (noZernikeModes : nat) (slopes : list Q) : list Q :=
  foldl (λ slopes kk,
           match linregress pokeSteps_trimmed
                   (column zernikeModeAmp (length pokeSteps_trimmed)
                      noZernikeModes kk) with
           | Some slope => <[kk := slope]> slopes
           | None => slopes
           end)
    slopes (seq 0 noZernikeModes).

(** The body of [for ii in range(numActuators)] (lines 285-308); the
    state of the loop is the pair of [slopes] and [C_mat]. *)
Definition calibrate_actuator (zernikeAmps pokeSteps : ndarray)
    (numActuators noZernikeModes : nat) (pupil_ac : list Q) (ii : nat)
    (st : list Q * ndarray) : result (list Q * ndarray) :=
  let '(slopes, C_mat) := st in
  included ←
    match pupil_ac !! ii with
    | Some p => Ok (Qeq_bool p 1)
    | None => Raise (IndexError "index is out of bounds for axis 0")
    end;
  if included : bool then
    poked ← index_column pokeSteps ii;
    let samples := where_nonzero poked in
    let pokeSteps_trimmed := (λ i, default 0%Q (poked !! i)) <$> samples in
    zernikeModeAmp ← index_rows zernikeAmps samples;
    if decide (length pokeSteps_trimmed < 2) then
      Raise (Exception
               ("Not enough Zernike mode values to calculate slope for actuator "
                  +:+ pretty (ii + 1)
                  +:+ ". Control matrix calculation will fail"))
    else
      let slopes :=
        fit_slopes pokeSteps_trimmed zernikeModeAmp noZernikeModes slopes in
      Ok (slopes, set_column C_mat noZernikeModes numActuators ii slopes)
  else Ok (slopes, C_mat).

(** Lines 269-270: [np.any(pupil_ac) == None] holds for the default
    [None] and for no array, so the default is replaced by ones. *)
Definition pupil_or_ones (pupil_ac : option (list Q)) (numActuators : nat)
  : list Q :=
  match pupil_ac with None => ones numActuators | Some p => p end.

(** Lines 269-308: the sensitivity matrix [C_mat]. *)
Definition sensitivity_matrix (zernikeAmps pokeSteps : ndarray)
    (numActuators : nat) (pupil_ac : option (list Q)) : result ndarray :=
  let pupil_ac := pupil_or_ones pupil_ac numActuators in
  '(_, noZernikeModes) ← shape2 zernikeAmps;
  let slopes := zeros noZernikeModes in
  let C_mat := zeros2 noZernikeModes numActuators in
  '(_, C_mat) ←
    for_each
      (calibrate_actuator zernikeAmps pokeSteps numActuators noZernikeModes
         pupil_ac)
      (seq 0 numActuators) (slopes, C_mat);
  Ok C_mat.

(** The default of the keyword argument [threshold]. *)
Definition default_threshold : Q := 5 # 1000.

Definition create_control_matrix (self : AdaptiveOpticsFunctions)
    (zernikeAmps pokeSteps : ndarray) (numActuators : nat)
    (pupil_ac : option (list Q)) (threshold : Q)
  : result (AdaptiveOpticsFunctions * ndarray) :=
  C_mat ← sensitivity_matrix zernikeAmps pokeSteps numActuators pupil_ac;
  let cm := pinv C_mat threshold in
  Ok (set_controlMatrix self cm, cm).

End Calibrator.

(** ** [ac_pos_from_zernike] (lines 314-330) *)

(** [np.dot(a, v)] of a matrix and a vector. *)
Definition dot (a : ndarray) (v : list Q) : result (list Q) :=
  '(r, c) ← shape2 a;
  if decide (length v = c) then
    Ok ((λ i, sumQ (zip_with Qmult (row a c i) v)) <$> seq 0 r)
  else Raise (ValueError "shapes not aligned").

Definition ac_pos_from_zernike (self : AdaptiveOpticsFunctions)
    (applied_z_modes : list Q) (numActuators : nat) : result (list Q) :=
  cm ←
    match controlMatrix self with
    | None => Raise (IndexError "tuple index out of range")
    | Some cm => Ok cm
    end;
  '(_, modes) ← shape2 cm;
  let applied_z_modes :=
    if decide (length applied_z_modes < modes) then
      let pad_length := modes - length applied_z_modes in
      applied_z_modes ++ zeros pad_length
    else if decide (modes < length applied_z_modes) then
      take modes applied_z_modes
    else applied_z_modes in
  actuator_pos ← dot cm applied_z_modes;
  if decide (length actuator_pos = numActuators) then Ok actuator_pos
  else Raise (Exception EmptyString).

(** ** The sensorless estimator (lines 336-378) *)

(** A bound of [curve_fit]: [np.NINF], a number, or [np.Inf]. *)
Inductive bound : Type := NINF | Finite (x : Q) | Inf.

(** What the name [mean] of [find_zernike_amp_sensorless] can hold: a
    float, or the one-dimensional array a boolean mask selects. *)
Inductive pyfloat : Type := Scalar (x : Q) | Array (xs : list Q).

(** [np.min] and [np.max] refuse an empty array. *)
Definition np_min (v : list Q) : result Q :=
  match v with
  | [] => Raise (ValueError "zero-size array to reduction operation minimum")
  | x :: v' => Ok (foldl (λ m y, if Qle_bool y m then y else m) x v')
  end.

Definition np_max (v : list Q) : result Q :=
  match v with
  | [] => Raise (ValueError "zero-size array to reduction operation maximum")
  | x :: v' => Ok (foldl (λ m y, if Qle_bool m y then y else m) x v')
  end.

(** The variance in exact arithmetic: the mean of the squared
    deviations from the mean.  [np.var] computes a binary64
    approximation of it. *)
Definition np_var (v : list Q) : Q :=
  let m := meanQ v in
  meanQ ((λ x, (x - m) * (x - m))%Q <$> v).

(** [v[m]] for a boolean mask [m]. *)
Definition index_mask (v : list Q) (m : list bool) : result (list Q) :=
  if decide (length v = length m) then
    Ok ((zip v m) ≫= λ '(x, b), if b : bool then [x] else [])
  else Raise (IndexError "boolean index did not match indexed array").

(** [-1.0 * mean]. *)
Definition negate (m : pyfloat) : pyfloat :=
  match m with
  | Scalar x => Scalar (-1 * x)
  | Array xs => Array (Qmult (-1) <$> xs)
  end.

(** ["%f" % x]: an array is converted to a float when it has exactly
    one element. *)
Definition format_f (x : pyfloat) : result unit :=
  match x with
  | Scalar _ | Array [_] => Ok ()
  | Array _ =>
      Raise (TypeError "only size-1 arrays can be converted to Python scalars")
  end.

(** [coef[i] = x] wants one number. *)
Definition as_element (x : pyfloat) : result Q :=
  match x with
  | Scalar y | Array [y] => Ok y
  | Array _ => Raise (ValueError "setting an array element with a sequence.")
  end.

Section Sensorless.

(** The five measures of [microAO.aoMetrics], a module of the
    repository that is not among the sources at hand. *)
Variables measure_fourier_metric measure_contrast_metric
  measure_fourier_power_metric measure_gradient_metric
  measure_second_moment_metric : ndarray → Q.

(** The table [metric_function] (lines 36-42); a missing key is a
    [KeyError]. *)
Definition metric_function (name : string) : result (ndarray → Q) :=
  if String.eqb name "fourier" then Ok measure_fourier_metric
  else if String.eqb name "contrast" then Ok measure_contrast_metric
  else if String.eqb name "fourier_power" then Ok measure_fourier_power_metric
  else if String.eqb name "gradient" then Ok measure_gradient_metric
  else if String.eqb name "second_moment" then Ok measure_second_moment_metric
  else Raise (KeyError name).

Definition measure_metric (self : AdaptiveOpticsFunctions) (image : ndarray)
  : result Q :=
  f ← metric_function (metric self); Ok (f image).

(** [scipy.optimize.curve_fit(gaussian_funcion, xdata, ydata,
    bounds=(lower, upper))]: the fitted [offset, normalising, mean,
    std_dev], or the exception it raises ([RuntimeError] when the
    least-squares iteration does not converge).  The model function
    [gaussian_funcion] (line 33) is fixed, it is not an argument. *)
Variable curve_fit :
  list Q → list Q → list bound → list bound → result (Q * Q * Q * Q).

(** Lines 355-356 on an array of metrics that is not empty, as numpy
    evaluates them:
    [np.max(m) - np.mean(m) >= 2 * np.sqrt(np.var(m))].  The mean,
    the variance, the square root and the difference are rounded to
    binary64, so that on metrics at the threshold (0, 0, 0, 0, 9 for
    instance, where both sides are 7.2 in exact arithmetic) the outcome
    is not that of the exact comparison; the model takes the outcome as
    it is computed. *)
Variable two_sigma_test : list Q → bool.

Definition find_zernike_amp_sensorless (self : AdaptiveOpticsFunctions)
    (image_stack : list ndarray) (zernike_amplitudes : list Q)
  : result pyfloat :=
  metrics_measured ← comprehension (measure_metric self) image_stack;
  lo ← np_min zernike_amplitudes;
  hi ← np_max zernike_amplitudes;
  let z_l_bound := (lo - (25 # 100) * (hi - lo))%Q in
  let z_u_bound := (hi + (25 # 100) * (hi - lo))%Q in
  mean ←
    match curve_fit zernike_amplitudes metrics_measured
            [NINF; Finite 0; Finite z_l_bound; NINF]
            [Inf; Inf; Finite z_u_bound; Inf] with
    | Ok (_, _, mean, _) => Ok (Scalar mean)
    | Raise RuntimeError =>
        top ← np_max metrics_measured;
        if two_sigma_test metrics_measured then
          picked ← index_mask zernike_amplitudes
                     ((λ m, Qeq_bool m top) <$> metrics_measured);
          Ok (Array picked)
        else Ok (Scalar 0)
    | Raise e => Raise e
    end;
  let amplitude_present := negate mean in
  _ ← format_f amplitude_present;
  Ok amplitude_present.

(** The body of [for ii in range(nollZernike.shape[0])] (lines 372-376). *)
Definition estimate_mode (self : AdaptiveOpticsFunctions)
    (full_image_stack : list ndarray) (full_zernike_applied : ndarray)
    (nollZernike : list Z) (numMes : nat) (ii : nat) (coef : list Q)
  : result (list Q) :=
  let start := Z.of_nat (ii * numMes) in
  let stop := Z.of_nat ((ii + 1) * numMes) in
  let image_stack := py_slice full_image_stack start stop in
  let noll := default 0%Z (nollZernike !! ii) in
  '(r, c) ← shape2 full_zernike_applied;
  j ←
    match py_index c (noll - 1) with
    | Some j => Ok j
    | None => Raise (IndexError "index is out of bounds for axis 1")
    end;
  let zernike_applied := py_slice (column full_zernike_applied r c j) start stop in
  amp ← find_zernike_amp_sensorless self image_stack zernike_applied;
  k ←
    match py_index (length coef) (noll - 1) with
    | Some k => Ok k
    | None => Raise (IndexError "index is out of bounds for axis 0")
    end;
  x ← as_element amp;
  Ok (<[k := x]> coef).

Definition get_zernike_modes_sensorless (self : AdaptiveOpticsFunctions)
    (full_image_stack : list ndarray) (full_zernike_applied : ndarray)
    (nollZernike : list Z) : result (list Q) :=
  '(samples, modes) ← shape2 full_zernike_applied;
  numMes ← floordiv samples (length nollZernike);
  let coef := zeros modes in
  for_each
    (estimate_mode self full_image_stack full_zernike_applied nollZernike numMes)
    (seq 0 (length nollZernike)) coef.

End Sensorless.

(** ** [unwrap_interferometry] (lines 207-246) *)

(** [a * m] where [m] is a field of the object that may still hold
    [None]: numpy has no product of a number and [None]. *)
Definition times_field (a : ndarray) (m : option ndarray) : result ndarray :=
  match m with
  | None => Raise (TypeError "unsupported operand type(s) for *: 'float' and 'NoneType'")
  | Some m => multiply a m
  end.

Section PhaseExtractor.

(** Complex arrays; the model never looks inside one. *)
Variable complex_array : Type.

(** Lines 209-218: the Fourier transform of the windowed image. *)
Variable windowed_transform : ndarray → complex_array.

(** [np.fft.fftshift] of a real array. *)
Variable fftshift : ndarray → ndarray.

(** Line 222, [fftarray * M]: [None] when the shapes do not agree. *)
Variable filter_product : complex_array → ndarray → option complex_array.

(** Lines 223-238: the filtered spectrum is centred on the peak of
    the filter, transformed back, and its wrapped phase taken;
    [None] when numpy refuses (an empty filter has no maximum). *)
Variable wrapped_phase : complex_array → ndarray → option ndarray.

(** [skimage.restoration.unwrap_phase]. *)
Variable unwrap_phase : ndarray → ndarray.

Definition unwrap_interferometry (self : AdaptiveOpticsFunctions)
    (image : ndarray) : result ndarray :=
  let fftarray := windowed_transform image in
  match fft_filter self with
  | None =>
      (* np.fft.fftshift wraps None in a zero-dimensional array of
         objects; the product of line 222 is the first operation that
         needs its value (where fftshift is built on np.roll the
         failure comes one line earlier, as a ValueError) *)
      Raise (TypeError "unsupported operand type(s) for *: 'complex' and 'NoneType'")
  | Some filter =>
      let M := fftshift filter in
      fftarray_filt ←
        match filter_product fftarray M with
        | Some x => Ok x
        | None => Raise (ValueError "operands could not be broadcast together")
        end;
      phaseorder1 ←
        match wrapped_phase fftarray_filt filter with
        | Some p => Ok p
        | None =>
            Raise (ValueError "zero-size array to reduction operation maximum")
        end;
      phaseorder1mask ← times_field phaseorder1 (mask self);
      let phaseorder1unwrap := unwrap_phase phaseorder1mask in
      times_field phaseorder1unwrap (mask self)
  end.

End PhaseExtractor.

(** ** [make_fft_filter] (lines 132-205) *)

(** [a[lo0:hi0, lo1:hi1]] of a matrix with [r] rows and [c] columns. *)
Definition slice2 (a : ndarray) (r c : nat) (lo0 hi0 lo1 hi1 : Z) : ndarray :=
  let s0 := py_bound r lo0 in
  let e0 := py_bound r hi0 in
  let s1 := py_bound c lo1 in
  let e1 := py_bound c hi1 in
  NDArray [e0 - s0; e1 - s1]
    (tabulate2 (e0 - s0) (e1 - s1) (λ i j, item2 a c (s0 + i) (s1 + j))).

(** [window[:, :] = value] for a [w × w] window: numpy broadcasts
    [value] to the shape of the window, stretching every axis of
    length 1, and raises [ValueError] when an axis has another length. *)
Definition assign_all (w : nat) (value : ndarray) : result ndarray :=
  match shape value with
  | [a; b] =>
      if bool_decide ((a = w ∨ a = 1) ∧ (b = w ∨ b = 1)) then
        Ok (NDArray [w; w]
              (tabulate2 w w
                 (λ i j, item2 value b (if decide (a = 1) then 0 else i)
                                       (if decide (b = 1) then 0 else j))))
      else Raise (ValueError "could not broadcast input array")
  | _ => Raise (ValueError "could not broadcast input array")
  end.

(** The message of line 175. *)
Definition stripes_too_fine : string :=
  "Interferometer stripes are too fine. Please make them coarser or reduce window size".

Section SpectralFilter.

(** Lines 134-151: the centred spectrum of the windowed image, its
    central square of half-width [region] overwritten.  Its elements
    are complex at run time; the model keeps of each the one quantity
    the refinement reads, [np.log(abs(z))], which commutes with the
    slicing of lines 171-172. *)
Variable log_spectrum : ndarray → nat → ndarray.

(** Line 154, [np.argmax(fftarray)]: an index into the flattened
    spectrum. *)
Variable argmax_spectrum : ndarray → nat → nat.

(** Lines 176-180: Otsu's threshold, the centre of mass of the
    thresholded window, rounded; the pair is
    [(int(CoM[0, 0]), int(CoM[0, 1]))].  [None] when skimage or the
    conversion of a nan to [int] raises a [ValueError]; these lines
    are outside the [try]. *)
Variable centroid : ndarray → option (Z * Z).

(** Lines 184-205: the raised-sine window of diameter [mask_di]
    placed at the refined peak, for a spectrum of the given shape. *)
Variable place_mask : nat * nat → Z * Z → option nat → result ndarray.

(** Lines 160-165. *)
Definition even_window (window_dim : option nat) : nat :=
  match window_dim with
  | None => 100
  | Some w => if negb (w mod 2 =? 0) then w + 1 else w
  end.

(** The body of [for ii in range(10)] (lines 169-182); [maxpoint] is
    the pair [(maxpoint[0], maxpoint[1])], column first. *)
Definition refine (fftarray : ndarray) (r c window_dim : nat)
    (maxpoint : Z * Z) : result (Z * Z) :=
  let half := Z.of_nat (window_dim / 2) in
  window ←
    except_ValueError
      (assign_all window_dim
         (slice2 fftarray r c
            (maxpoint.2 - half) (maxpoint.2 + half)
            (maxpoint.1 - half) (maxpoint.1 + half)))
      (Exception stripes_too_fine);
  '(com0, com1) ←
    match centroid window with
    | Some p => Ok p
    | None => Raise (ValueError "cannot convert float NaN to integer")
    end;
  Ok (maxpoint.1 - half + com1, maxpoint.2 - half + com0)%Z.

Definition make_fft_filter (self : AdaptiveOpticsFunctions) (image : ndarray)
    (region window_dim mask_di : option nat)
  : result (AdaptiveOpticsFunctions * ndarray) :=
  '(r, c) ← shape2 image;
  let region := match region with None => r / 16 | Some g => g end in
  let fftarray := log_spectrum image region in
  let test_point := argmax_spectrum image region in
  let maxpoint := (Z.of_nat (test_point mod c), Z.of_nat (test_point / c)) in
  let window_dim := even_window window_dim in
  maxpoint ←
    for_each (λ _ : nat, refine fftarray r c window_dim) (seq 0 10) maxpoint;
  filter ← place_mask (r, c) maxpoint mask_di;
  Ok (set_fft_filter self filter, filter).

End SpectralFilter.

(** ** Reference notions used by the statements *)

(** [f 0 + f 1 + ... + f (n - 1)]. *)
Definition bigsum (n : nat) (f : nat → Q) : Q := sumQ (f <$> seq 0 n).

(** The arithmetic mean of the [k1 × k2] block of the matrix [a] (with
    [c] columns) whose top-left corner is [(i * k1, j * k2)]. *)
Definition block_mean (a : ndarray) (c k1 k2 i j : nat) : Q :=
  (bigsum k1 (λ u, bigsum k2 (λ v, item2 a c (i * k1 + u) (j * k2 + v)))
   / inject_Z (Z.of_nat (k1 * k2)))%Q.

(** The array [bin_ndarray] returns on a matrix for the operation
    [mean], in closed form. *)
Definition binned_mean (a : ndarray) (d1 d2 k1 k2 : nat) : ndarray :=
  NDArray [d1; d2]
    (tabulate2 d1 d2 (λ i j,
       meanQ (lane (tabulate2 (d1 * k1 * d2) 1
                      (λ p q, meanQ (lane (data a) k2 1 p q)))
                k1 d2 i j))).

(** The largest divisor of [n] among [1, ..., t]. *)
Definition largest_divisor_upto (n t : nat) : nat :=
  max_list (filter (λ d, n mod d = 0) (seq 1 t)).

(** The resolution the projector works at: that divisor, or the
    quotient of [n] by it when the divisor is the smaller of the two. *)
Definition working_resolution (n t : nat) : nat :=
  let d := largest_divisor_upto n t in
  if decide (d < n / d) then n / d else d.

(** The trapezoidal rule with unit spacing on the samples
    [f 0, ..., f (n - 1)]. *)
Definition trapezoid (n : nat) (f : nat → Q) : Q :=
  bigsum (n - 1) (λ k, (f (k + 1)%nat + f k) / 2)%Q.

(** The coefficient of mode [j]: the nested trapezoidal integral, over
    rows and, inside, over columns, of the product of the block means of
    the [n × n] map [image] at resolution [r] with the basis function,
    divided by the number of non-zero pixels of the first mode. *)
Definition projection (zernike : nat → nat → ndarray) (image : ndarray)
    (n r j : nat) : Q :=
  let k := n / r in
  let pixels := count_nonzero (zernike 1 r) in
  (trapezoid r (λ u, trapezoid r (λ v,
       block_mean image n k k u v * item2 (zernike j r) r u v))
   / inject_Z (Z.of_nat pixels))%Q.

(** Does the loop of [create_control_matrix] treat actuator [ii]? *)
Definition in_pupil (pupil_ac : option (list Q)) (ii : nat) : bool :=
  match pupil_ac with
  | None => true
  | Some p => match p !! ii with Some x => Qeq_bool x 1 | None => false end
  end.

(** The number of calibration samples with a non-zero step on actuator [ii]. *)
Definition poked_samples (pokeSteps : ndarray) (ii : nat) : nat :=
  match shape pokeSteps with
  | [r; c] => length (where_nonzero (column pokeSteps r c ii))
  | _ => 0
  end.

Definition not_enough_values (actuator : nat) : string :=
  "Not enough Zernike mode values to calculate slope for actuator "
    +:+ pretty actuator +:+ ". Control matrix calculation will fail".

(** The comparison of line 356 decides as the exact comparison does on
    the metrics [m], of maximum [top], when they are away from the
    threshold by the relative margin [tol]: it holds when the maximum
    exceeds the mean by more than [(1 + tol)] times two standard
    deviations, and fails when [(1 + tol)] times the excess is less than
    two standard deviations.  Nothing is said of what lies between. *)
Definition accurate_to (tol : Q) (test : list Q → bool) (m : list Q)
    (top : Q) : Prop :=
  let excess := (top - meanQ m)%Q in
  let variance := np_var m in
  ((0 <= excess)%Q →
   (4 * variance * ((1 + tol) * (1 + tol)) < excess * excess)%Q →
   test m = true)
  ∧ ((excess * excess * ((1 + tol) * (1 + tol)) < 4 * variance)%Q →
     test m = false).

(** A parameter [x] of a fit respects its bounds. *)
Definition within (lo : bound) (x : Q) (hi : bound) : Prop :=
  match lo with NINF => True | Finite l => (l <= x)%Q | Inf => False end
  ∧ match hi with Inf => True | Finite h => (x <= h)%Q | NINF => False end.

(** The position, counted from 0, of the mode requested at place [ii]
    of [nollZernike]. *)
Definition mode_position (nollZernike : list Z) (ii : nat) : nat :=
  Z.to_nat (default 0%Z (nollZernike !! ii) - 1).

(** ** Sample data for the worked instances *)

(** A stand-in for a Zernike basis: mode [j] is the constant [j] on
    the whole [n × n] grid. *)
Definition flat_basis (j n : nat) : ndarray :=
  NDArray [n; n] (replicate (n * n) (inject_Z (Z.of_nat j))).

(** The [r × c] matrix whose elements are 0, 1, 2, ... in row-major
    order ([np.arange(r * c).reshape(r, c)]). *)
Definition arange2 (r c : nat) : ndarray :=
  NDArray [r; c] ((λ n, inject_Z (Z.of_nat n)) <$> seq 0 (r * c)).

(** Exact least squares: the slope of the regression line of [y] on
    [x]; [None] where scipy raises, on vectors of different lengths. *)
Definition least_squares_slope (x y : list Q) : option Q :=
  if decide (length x = length y) then
    let mx := meanQ x in
    let my := meanQ y in
    Some (sumQ (zip_with (λ a b, (a - mx) * (b - my))%Q x y)
          / sumQ ((λ a, (a - mx) * (a - mx))%Q <$> x))%Q
  else None.

(** The pseudo-inverse of a matrix with at most one non-zero element
    in every row and every column: its singular values are the absolute
    values of its elements, so the pseudo-inverse is the transpose with
    the elements above the cut-off inverted and the others zeroed. *)
Definition pinv_monomial (a : ndarray) (rcond : Q) : ndarray :=
  match shape a with
  | [r; c] =>
      let largest := foldr (λ x m, if Qle_bool m x then x else m) 0%Q
                       (Qabs <$> data a) in
      NDArray [c; r]
        (tabulate2 c r
           (λ i j, let x := item2 a c j i in
                   if Qle_bool (Qabs x) (rcond * largest) then 0%Q else (/ x)%Q))
  | _ => a
  end.

(** Four calibration samples for two actuators and two modes:
    actuator 0 moves mode 0 with slope 2, actuator 1 moves mode 1 with
    slope 3. *)
Definition sample_pokeSteps : ndarray :=
  NDArray [4; 2] [1; 0;  2; 0;  0; 1;  0; 2]%Q.

Definition sample_zernikeAmps : ndarray :=
  NDArray [4; 2] [2; 0;  4; 0;  0; 3;  0; 6]%Q.

(** The same, but actuator 1 is poked in one sample only. *)
Definition sample_pokeSteps_short : ndarray :=
  NDArray [4; 2] [1; 0;  2; 0;  0; 1;  0; 0]%Q.

(** A stand-in for an image quality measure: the sum of the pixels. *)
Definition total_intensity (image : ndarray) : Q := sumQ (data image).

(** A one-pixel image. *)
Definition pixel (x : Q) : ndarray := NDArray [1; 1] [x].

(** A stand-in for the comparison of line 356: the exact comparison
    with a relative margin of a millionth, which fails at the threshold
    and within the margin above it. *)
Definition margin : Q := 1 # 1000000.

Definition two_sigma_clear (m : list Q) : bool :=
  match np_max m with
  | Ok top =>
      let excess := (top - meanQ m)%Q in
      Qle_bool 0 excess
      && negb (Qle_bool (excess * excess)
                 (4 * np_var m * ((1 + margin) * (1 + margin))))
  | Raise _ => false
  end.

(** A fit that never converges. *)
Definition never_converges (xdata ydata : list Q) (lower upper : list bound)
  : result (Q * Q * Q * Q) :=
  Raise RuntimeError.

(** A stand-in for a fit that converges: every parameter is put in the
    middle of its bounds, or on the finite one, or at 1.  Like scipy it
    refuses bounds that leave no room. *)
Definition feasible (lo hi : bound) : bool :=
  match lo, hi with
  | Finite l, Finite h => negb (Qle_bool h l)
  | Inf, _ | _, NINF => false
  | _, _ => true
  end.

Definition midpoint (lo hi : bound) : Q :=
  match lo, hi with
  | Finite l, Finite h => ((l + h) / 2)%Q
  | Finite l, _ => l
  | _, Finite h => h
  | _, _ => 1%Q
  end.

Definition midpoint_fit (xdata ydata : list Q) (lower upper : list bound)
  : result (Q * Q * Q * Q) :=
  if forallb (λ b, feasible b.1 b.2) (zip lower upper) then
    match zip_with midpoint lower upper with
    | [offset; normalising; mean; std_dev] =>
        Ok (offset, normalising, mean, std_dev)
    | _ => Raise (ValueError "Inconsistent shapes between bounds and `x0`.")
    end
  else Raise (ValueError "Each lower bound must be strictly less than each upper bound.").

(** Six one-pixel images, the last one bright, taken at six applied
    amplitudes. *)
Definition sample_stack : list ndarray := pixel <$> [0; 0; 0; 0; 0; 10]%Q.

Definition sample_amplitudes : list Q := [-2; -1; 0; 1; 2; 3]%Q.

(** Four images and the amplitudes applied to three modes; modes 2
    and 3 are scanned, two images each. *)
Definition sample_scan_stack : list ndarray := pixel <$> [1; 4; 2; 8]%Q.

Definition sample_scan_applied : ndarray :=
  NDArray [4; 3] [0; 5; 0;  0; 7; 0;  0; 0; 1;  0; 0; 3]%Q.

(** A stand-in for the thresholding of lines 176-180.  A window of a
    single grey level has no Otsu threshold (where skimage returns one
    all the same, the mask is empty and its centre of mass is not a
    number): [None].  Any other window is given its centre. *)
Definition centre_unless_flat (window : ndarray) : option (Z * Z) :=
  match data window with
  | [] => None
  | x :: rest =>
      if forallb (Qeq_bool x) rest then None
      else
        let half := Z.of_nat (default 0 (shape window !! 0) / 2) in
        Some (half, half)
  end.

(** ** [get_metric] and [make_mask] (lines 71-77) *)

Definition get_metric (self : AdaptiveOpticsFunctions) : string := metric self.

(** A boolean array is kept as an array of zeros and ones. *)
Definition of_bool (b : bool) : Q := if b then 1%Q else 0%Q.

(** [make_mask(radius)]: the disk [sqrt(x**2 + y**2) < radius] on the
    grid [np.arange(-radius, radius)] in both directions.  On integers
    that are not negative, [np.sqrt(a) < radius] is [a < radius**2]. *)
Definition make_mask (self : AdaptiveOpticsFunctions) (radius : nat)
  : AdaptiveOpticsFunctions * ndarray :=
  let diameter := radius * 2 in
  let squares :=
    (λ k, (Z.of_nat k - Z.of_nat radius) * (Z.of_nat k - Z.of_nat radius))%Z
      <$> seq 0 diameter in
  let m :=
    NDArray [diameter; diameter]
      (tabulate2 diameter diameter
         (λ i j, of_bool (bool_decide
            (default 0 (squares !! i) + default 0 (squares !! j)
             < Z.of_nat radius * Z.of_nat radius)%Z))) in
  (set_mask self m, m).

(** ** The end of [make_fft_filter] (lines 184-205) *)

(** [np.outer(x, y)]. *)
Definition outer (x y : list Q) : ndarray :=
  NDArray [length x; length y]
    (tabulate2 (length x) (length y)
       (λ i j, (default 0 (x !! i) * default 0 (y !! j))%Q)).

(** [a[lo0:hi0, lo1:hi1] = value] on a matrix with [r] rows and [c]
    columns: numpy broadcasts [value] to the shape of the slice. *)
Definition assign_slice2 (a : ndarray) (r c : nat) (lo0 hi0 lo1 hi1 : Z)
    (value : ndarray) : result ndarray :=
  let s0 := py_bound r lo0 in
  let l0 := py_bound r hi0 - s0 in
  let s1 := py_bound c lo1 in
  let l1 := py_bound c hi1 - s1 in
  match shape value with
  | [vr; vc] =>
      if bool_decide ((vr = l0 ∨ vr = 1) ∧ (vc = l1 ∨ vc = 1)) then
        Ok (NDArray [r; c]
              (tabulate2 r c
                 (λ i j,
                    if decide (s0 ≤ i < s0 + l0 ∧ s1 ≤ j < s1 + l1) then
                      item2 value vc (if decide (vr = 1) then 0 else i - s0)
                                     (if decide (vc = 1) then 0 else j - s1)
                    else item2 a c i j)))
      else Raise (ValueError "could not broadcast input array")
  | _ => Raise (ValueError "could not broadcast input array")
  end.

(** [np.roll(a, shift, axis=1)] and [np.roll(a, shift, axis=0)] on a
    matrix: the element at position [j] goes to [(j + shift) mod c]. *)
Definition roll_columns (a : ndarray) (r c : nat) (shift : Z) : ndarray :=
  NDArray [r; c]
    (tabulate2 r c
       (λ i j, item2 a c i (Z.to_nat ((Z.of_nat j - shift) mod Z.of_nat c)))).

Definition roll_rows (a : ndarray) (r c : nat) (shift : Z) : ndarray :=
  NDArray [r; c]
    (tabulate2 r c
       (λ i j, item2 a c (Z.to_nat ((Z.of_nat i - shift) mod Z.of_nat r)) j)).

Section FourierMask.

(** [np.sin(np.linspace(0, np.pi, n)) ** 2], a vector of [n] numbers. *)
Variable sine_squared : nat → list Q.

(** Lines 184-205, for a spectrum of shape [(r, c)]; it has the type of
    the parameter [place_mask] of [make_fft_filter]. *)
Definition place_fourier_mask (spectrum_shape : nat * nat) (maxpoint : Z * Z)
    (mask_di : option nat) : result ndarray :=
  let '(r, c) := spectrum_shape in
  let fft_filter := zeros2 r c in
  let mask_di :=
    Z.of_nat (match mask_di with None => r * 5 / 16 | Some d => d end) in
  let x_shift :=
    (0 `min` (Z.abs (maxpoint.1 - mask_di)
      `min` (Z.abs (maxpoint.1 - Z.of_nat r) - mask_di)))%Z in
  let y_shift :=
    (0 `min` (Z.abs (maxpoint.2 - mask_di)
      `min` (Z.abs (maxpoint.2 - Z.of_nat c) - mask_di)))%Z in
  let x := sine_squared (Z.to_nat mask_di) in
  let fourier_mask := outer x x in
  let floor_half := (mask_di / 2)%Z in
  let ceil_half := (mask_di - mask_di / 2)%Z in
  let y_min := (maxpoint.2 - floor_half + y_shift)%Z in
  let y_max := (maxpoint.2 + ceil_half + y_shift)%Z in
  let x_min := (maxpoint.1 - floor_half + x_shift)%Z in
  let x_max := (maxpoint.1 + ceil_half + x_shift)%Z in
  fft_filter ← assign_slice2 fft_filter r c y_min y_max x_min x_max fourier_mask;
  let fft_filter := roll_columns fft_filter r c (- x_shift) in
  let fft_filter := roll_rows fft_filter r c (- y_shift) in
  Ok fft_filter.

End FourierMask.

(** ** Reference notions for the calibration *)

(** The non-zero steps applied to actuator [ii], in the order of the
    samples. *)
Definition poked_steps (pokeSteps : ndarray) (S A ii : nat) : list Q :=
  filter (λ x, Qeq_bool x 0 = false) (column pokeSteps S A ii).

(** The amplitudes of mode [kk] measured in the samples where
    actuator [ii] had a non-zero step. *)
Definition poked_amplitudes (zernikeAmps pokeSteps : ndarray)
    (S M A ii kk : nat) : list Q :=
  (λ i, item2 zernikeAmps M i kk) <$> where_nonzero (column pokeSteps S A ii).

(** ** Reference notions and sample data for the further properties *)

(** A stand-in for the raised sine: the window that is 1 everywhere. *)
Definition flat_window (n : nat) : list Q := replicate n 1%Q.

(** The [w × w] window of the spectrum [fftarray] (with [c] columns)
    centred on the point [p = (column, row)]. *)
Definition window_at (fftarray : ndarray) (c w : nat) (p : Z * Z) : ndarray :=
  NDArray [w; w]
    (tabulate2 w w
       (λ i j, item2 fftarray c (Z.to_nat (p.2 - Z.of_nat (w / 2)) + i)
                                (Z.to_nat (p.1 - Z.of_nat (w / 2)) + j))).

(** A regression that refuses, as scipy does, abscissas that are all
    identical, for which the slope is not defined. *)
Definition regression_slope (x y : list Q) : option Q :=
  match x with
  | [] => None
  | x0 :: rest =>
      if forallb (Qeq_bool x0) rest then None else least_squares_slope x y
  end.

(** The sample calibration with the same step on actuator 1 in both
    of its samples. *)
Definition sample_pokeSteps_repeated : ndarray :=
  NDArray [4; 2] [1; 0;  2; 0;  0; 1;  0; 1]%Q.

(** * Proofs *)

(** ** Tabulated lists and finite sums *)

Lemma length_tabulate2 {A} (o i : nat) (f : nat → nat → A) :
  length (tabulate2 o i f) = o * i.
Proof.
  unfold tabulate2. generalize 0 at 2. induction o as [|o IH]; intros s; simpl; [done|].
  rewrite length_app, length_fmap, length_seq, IH. done.
Qed.

Lemma lookup_tabulate2 {A} (o i : nat) (f : nat → nat → A) (p q : nat) :
  p < o → q < i → tabulate2 o i f !! (p * i + q) = Some (f p q).
Proof.
  unfold tabulate2. 
  assert (H : ∀ s p, p < o → q < i →
     flat_map (λ p, f p <$> seq 0 i) (seq s o) !! (p * i + q) = Some (f (s + p) q)).
  { induction o as [|o IH]; intros s p' Hp Hq; [lia|]. simpl.
    destruct p' as [|p'].
    - rewrite lookup_app_l by (rewrite length_fmap, length_seq; lia).
      rewrite list_lookup_fmap. simpl.
      replace (seq 0 i !! q) with (Some q); [by rewrite Nat.add_0_r|].
      symmetry. apply lookup_seq. lia.
    - rewrite lookup_app_r by (rewrite length_fmap, length_seq; lia).
      rewrite length_fmap, length_seq.
      replace (S p' * i + q - i) with (p' * i + q) by lia.
      rewrite IH by lia. f_equal. f_equal. lia. }
  intros. by rewrite H.
Qed.

Local Open Scope Q_scope.

Lemma sumQ_app (l1 l2 : list Q) : sumQ (l1 ++ l2) == sumQ l1 + sumQ l2.
Proof.
  induction l1 as [|x l1 IH]; simpl; [ring|]. rewrite IH. ring.
Qed.

Lemma bigsum_S (n : nat) (f : nat → Q) : bigsum (S n) f == bigsum n f + f n.
Proof.
  unfold bigsum. rewrite seq_S, fmap_app, sumQ_app. simpl. ring.
Qed.

Lemma bigsum_ext (n : nat) (f g : nat → Q) :
  (∀ k, (k < n)%nat → f k == g k) → bigsum n f == bigsum n g.
Proof.
  induction n as [|n IH]; intros H; [reflexivity|].
  rewrite !bigsum_S. apply Qplus_comp; [apply IH; intros; apply H; lia|apply H; lia].
Qed.

Lemma bigsum_plus (n : nat) (f g : nat → Q) :
  bigsum n (λ k, f k + g k) == bigsum n f + bigsum n g.
Proof.
  induction n as [|n IH]; [reflexivity|]. rewrite !bigsum_S, IH. ring.
Qed.

Lemma bigsum_scale (n : nat) (c : Q) (f : nat → Q) :
  bigsum n (λ k, f k * c) == bigsum n f * c.
Proof.
  induction n as [|n IH]; [reflexivity|]. rewrite !bigsum_S, IH. ring.
Qed.

Lemma bigsum_zero (n : nat) : bigsum n (λ _, 0) == 0.
Proof.
  induction n as [|n IH]; [reflexivity|]. rewrite bigsum_S, IH. ring.
Qed.

Lemma bigsum_swap (n m : nat) (f : nat → nat → Q) :
  bigsum n (λ a, bigsum m (λ b, f a b)) == bigsum m (λ b, bigsum n (λ a, f a b)).
Proof.
  induction n as [|n IH].
  - symmetry. apply (bigsum_zero m).
  - rewrite bigsum_S, IH, <- bigsum_plus. apply bigsum_ext. intros k _.
    rewrite bigsum_S. reflexivity.
Qed.

Lemma bigsum_add (s m : nat) (g : nat → Q) :
  bigsum (s + m) g == bigsum s g + bigsum m (λ q, g (s + q)%nat).
Proof.
  induction m as [|m IH].
  - rewrite Nat.add_0_r. unfold bigsum at 3. simpl. ring.
  - replace (s + S m)%nat with (S (s + m)) by lia.
    rewrite !bigsum_S, IH. ring.
Qed.

Lemma bigsum_mul (n m : nat) (g : nat → Q) :
  bigsum (n * m) g == bigsum n (λ p, bigsum m (λ q, g (p * m + q)%nat)).
Proof.
  induction n as [|n IH]; [reflexivity|].
  rewrite bigsum_S, <- IH.
  replace (S n * m)%nat with (n * m + m)%nat by lia.
  apply bigsum_add.
Qed.

Lemma sumQ_bigsum (l : list Q) :
  sumQ l == bigsum (length l) (λ k, default 0 (l !! k)).
Proof.
  induction l as [|x l IH] using rev_ind; [reflexivity|].
  rewrite sumQ_app, length_app, Nat.add_1_r, bigsum_S. simpl.
  rewrite list_lookup_middle by done. simpl.
  rewrite IH. apply Qplus_comp; [|ring].
  apply bigsum_ext. intros k Hk. by rewrite lookup_app_l.
Qed.

Lemma sumQ_tabulate2 (o i : nat) (f : nat → nat → Q) :
  sumQ (tabulate2 o i f) == bigsum o (λ p, bigsum i (f p)).
Proof.
  rewrite sumQ_bigsum, length_tabulate2, bigsum_mul.
  apply bigsum_ext. intros p Hp. apply bigsum_ext. intros q Hq.
  by rewrite lookup_tabulate2.
Qed.

Lemma mean_lane (d : list Q) (n inner p q : nat) :
  meanQ (lane d n inner p q)
  == bigsum n (λ k, default 0 (d !! ((p * n + k) * inner + q)%nat))
     / inject_Z (Z.of_nat n).
Proof.
  unfold meanQ, lane, bigsum. by rewrite length_fmap, length_seq.
Qed.

(** Averaging every lane of an axis of length [n] divides the sum of
    all the elements by [n]. *)
Lemma sum_reduce_mean (d : list Q) (outer n inner : nat) :
  length d = (outer * n * inner)%nat →
  sumQ (tabulate2 outer inner (λ p q, meanQ (lane d n inner p q)))
  == sumQ d / inject_Z (Z.of_nat n).
Proof.
  intros Hlen. rewrite sumQ_tabulate2, (sumQ_bigsum d), Hlen.
  rewrite bigsum_mul, bigsum_mul. unfold Qdiv.
  rewrite <- bigsum_scale. apply bigsum_ext. intros p _.
  rewrite (bigsum_swap n inner), <- bigsum_scale.
  apply bigsum_ext. intros q _. rewrite mean_lane. reflexivity.
Qed.

Lemma floordiv_mul (d k : nat) : (0 < d)%nat → floordiv (d * k) d = Ok k.
Proof.
  intros Hd. unfold floordiv. destruct (decide (d = 0%nat)); [lia|].
  f_equal. rewrite Nat.mul_comm. apply Nat.div_mul. lia.
Qed.

Lemma bin_ndarray_mean_eq (a : ndarray) (d1 d2 k1 k2 : nat) (operation : string) :
  shape a = [d1 * k1; d2 * k2]%nat → (0 < d1)%nat → (0 < d2)%nat →
  lower operation = "mean" →
  bin_ndarray a [d1; d2] operation = Ok (binned_mean a d1 d2 k1 k2).
Proof.
  intros Hshape Hd1 Hd2 Hop. unfold bin_ndarray. rewrite Hop.
  replace (bool_decide ("mean" ∈ ["sum"; "mean"])) with true by done.
  unfold ndim. rewrite Hshape. simpl.
  rewrite !floordiv_mul by done. simpl.
  unfold reshape. rewrite Hshape.
  destruct (decide _) as [_|Hne]; [|exfalso; apply Hne; simpl; lia].
  simpl. unfold getattr. simpl. unfold reduce, ndim. simpl.
  rewrite !Nat.mul_1_r, Nat.mul_assoc. reflexivity.
Qed.

Lemma inject_nat_mul (n m : nat) :
  inject_Z (Z.of_nat (n * m)) == inject_Z (Z.of_nat n) * inject_Z (Z.of_nat m).
Proof. by rewrite Nat2Z.inj_mul, inject_Z_mult. Qed.

Lemma inject_nat_nonzero (n : nat) : (0 < n)%nat → ¬ inject_Z (Z.of_nat n) == 0.
Proof.
  intros Hn H. unfold Qeq in H. simpl in H. lia.
Qed.

Lemma item2_binned_mean (a : ndarray) (d1 d2 k1 k2 i j : nat) :
  (i < d1)%nat → (j < d2)%nat →
  item2 (binned_mean a d1 d2 k1 k2) d2 i j == block_mean a (d2 * k2) k1 k2 i j.
Proof.
  intros Hi Hj. unfold item2, binned_mean, block_mean. simpl.
  rewrite lookup_tabulate2 by done. simpl.
  rewrite mean_lane, inject_nat_mul. unfold Qdiv.
  rewrite Qinv_mult_distr, (Qmult_comm (/ _)), Qmult_assoc.
  apply Qmult_comp; [|reflexivity].
  rewrite <- bigsum_scale. apply bigsum_ext. intros u Hu.
  replace ((i * k1 + u) * d2 + j)%nat with (((i * k1 + u) * d2 + j) * 1 + 0)%nat
    by lia.
  assert (i * k1 + u < d1 * k1)%nat by nia.
  assert ((i * k1 + u) * d2 + j < d1 * k1 * d2)%nat by nia.
  rewrite lookup_tabulate2 by lia. simpl.
  rewrite mean_lane. apply Qmult_comp; [|reflexivity].
  apply bigsum_ext. intros v Hv.
  replace ((((i * k1 + u) * d2 + j) * k2 + v) * 1 + 0)%nat
    with ((i * k1 + u) * (d2 * k2) + (j * k2 + v))%nat by nia.
  reflexivity.
Qed.

Lemma mean_binned_mean (a : ndarray) (d1 d2 k1 k2 : nat) :
  length (data a) = (d1 * k1 * (d2 * k2))%nat →
  (0 < d1)%nat → (0 < d2)%nat → (0 < k1)%nat → (0 < k2)%nat →
  meanQ (data (binned_mean a d1 d2 k1 k2)) == meanQ (data a).
Proof.
  intros Hlen Hd1 Hd2 Hk1 Hk2. unfold meanQ at 1 2. simpl.
  rewrite length_tabulate2, Hlen.
  rewrite (sum_reduce_mean _ d1 k1 d2) by (rewrite length_tabulate2; lia).
  rewrite (sum_reduce_mean _ (d1 * k1 * d2) k2 1) by lia.
  rewrite !inject_nat_mul.
  pose proof (inject_nat_nonzero d1 Hd1). pose proof (inject_nat_nonzero d2 Hd2).
  pose proof (inject_nat_nonzero k1 Hk1). pose proof (inject_nat_nonzero k2 Hk2).
  field. auto.
Qed.

Local Close Scope Q_scope.

Lemma wf_binned_mean (a : ndarray) (d1 d2 k1 k2 : nat) :
  wf_ndarray (binned_mean a d1 d2 k1 k2).
Proof. unfold wf_ndarray. simpl. rewrite length_tabulate2. lia. Qed.

(** ** [bin_ndarray] *)

(** C10, as the code has it.  The operation name is compared after
    [str.lower]: a name whose lower-case form is neither [sum] nor
    [mean] is refused with [ValueError], and so is a shape of another
    length than the number of dimensions.  On a matrix of [d1 k1] rows
    and [d2 k2] columns (all four positive) the operation [mean], in any
    letter case, returns the [d1 × d2] matrix of the means of the
    [k1 × k2] blocks, and the mean of the result is the mean of the
    input. *)
Theorem bin_ndarray_block_mean (a : ndarray) (new_shape : list nat)
    (operation : string) :
  (lower operation ∉ ["sum"; "mean"] →
     bin_ndarray a new_shape operation
     = Raise (ValueError "Operation not supported."))
  ∧ (ndim a ≠ length new_shape →
     ∃ msg, bin_ndarray a new_shape operation = Raise (ValueError msg))
  ∧ (∀ d1 d2 k1 k2 : nat,
       new_shape = [d1; d2] → shape a = [d1 * k1; d2 * k2] → wf_ndarray a →
       0 < d1 → 0 < d2 → 0 < k1 → 0 < k2 → lower operation = "mean" →
       ∃ b, bin_ndarray a new_shape operation = Ok b
            ∧ shape b = [d1; d2] ∧ wf_ndarray b
            ∧ (∀ i j, i < d1 → j < d2 →
                 (item2 b d2 i j == block_mean a (d2 * k2) k1 k2 i j)%Q)
            ∧ (meanQ (data b) == meanQ (data a))%Q).
Proof.
  split; [|split].
  - intros Hop. unfold bin_ndarray.
    by rewrite (bool_decide_eq_false_2 _ Hop).
  - intros Hdim. unfold bin_ndarray.
    destruct (bool_decide _); simpl; [|by eexists].
    apply Nat.eqb_neq in Hdim. rewrite Hdim. simpl. by eexists.
  - intros d1 d2 k1 k2 -> Hshape Hwf Hd1 Hd2 Hk1 Hk2 Hop.
    exists (binned_mean a d1 d2 k1 k2). split; [|split; [|split; [|split]]].
    + by apply bin_ndarray_mean_eq.
    + done.
    + apply wf_binned_mean.
    + intros i j Hi Hj. by apply item2_binned_mean.
    + apply mean_binned_mean; try done.
      unfold wf_ndarray in Hwf. rewrite Hwf, Hshape. simpl. lia.
Qed.

(** A 4 × 4 matrix binned to 2 × 2, under the name [Mean]. *)
Lemma bin_ndarray_block_mean_witness :
  let a := NDArray [4; 4] ((λ n, inject_Z (Z.of_nat n)) <$> seq 0 16) in
  ∃ b, bin_ndarray a [2; 2] "Mean" = Ok b
       ∧ shape b = [2; 2] ∧ wf_ndarray b
       ∧ (∀ i j, i < 2 → j < 2 →
            (item2 b 2 i j == block_mean a (2 * 2) 2 2 i j)%Q)
       ∧ (meanQ (data b) == meanQ (data a))%Q.
Proof.
  intros a.
  apply (proj2 (proj2 (bin_ndarray_block_mean a [2; 2] "Mean")) 2 2 2 2);
    try reflexivity; lia.
Defined.

(** C10 as it is worded fails on a name that is neither [sum] nor
    [mean] letter for letter: [MEAN] is accepted and averaged. *)
Lemma bin_ndarray_accepts_upper_case :
  "MEAN" ≠ "sum" ∧ "MEAN" ≠ "mean"
  ∧ bin_ndarray (NDArray [2; 2] [1; 2; 3; 4]%Q) [1; 1] "MEAN"
    = Ok (NDArray [1; 1] [20 # 8]%Q).
Proof. split; [done|split; [done|reflexivity]]. Qed.

(** The example of the docstring of [bin_ndarray]. *)
Example bin_ndarray_docstring :
  bin_ndarray (arange2 10 10) [5; 5] "sum"
  = Ok (NDArray [5; 5]
          [ 22;  30;  38;  46;  54;
           102; 110; 118; 126; 134;
           182; 190; 198; 206; 214;
           262; 270; 278; 286; 294;
           342; 350; 358; 366; 374]%Q).
Proof. reflexivity. Qed.

(** ** [get_zernike_modes] *)

Lemma largest_divisor_upto_spec (n t : nat) :
  0 < t →
  n mod largest_divisor_upto n t = 0
  ∧ 1 ≤ largest_divisor_upto n t ≤ t
  ∧ (∀ d, 1 ≤ d ≤ t → n mod d = 0 → d ≤ largest_divisor_upto n t).
Proof.
  intros Ht. unfold largest_divisor_upto.
  set (ds := filter (λ d, n mod d = 0) (seq 1 t)).
  assert (Hin : ∀ d, d ∈ ds ↔ n mod d = 0 ∧ 1 ≤ d ≤ t).
  { intros d. unfold ds. rewrite list_elem_of_filter, elem_of_seq. lia. }
  assert (Hone : 1 ∈ ds) by (apply Hin; split; [apply Nat.mod_1_r|lia]).
  assert (Hmax : max_list ds ∈ ds).
  { apply max_list_elem_of. intros E. rewrite E in Hone. by apply elem_of_nil in Hone. }
  apply Hin in Hmax as [Hdiv Hrange]. repeat split; try done; try lia.
  intros d Hd Hmod. apply max_list_elem_of_le, Hin. done.
Qed.

Lemma shrink_to_divisor_spec (n t : nat) :
  0 < t →
  ∃ d, shrink_to_divisor n t = Ok d ∧ n mod d = 0 ∧ 1 ≤ d ≤ t
       ∧ (∀ d', d < d' ≤ t → n mod d' ≠ 0).
Proof.
  induction t as [|t IH]; [lia|]. intros _. cbn [shrink_to_divisor].
  destruct (n mod S t =? 0) eqn:E.
  - apply Nat.eqb_eq in E. exists (S t). repeat split; try done; lia.
  - apply Nat.eqb_neq in E.
    destruct (decide (t = 0)) as [->|Hpos].
    { exfalso. apply E. apply Nat.mod_1_r. }
    destruct IH as (d & Hd & Hdiv & Hrange & Hmax); [lia|].
    exists d. repeat split; try done; try lia.
    intros d' Hd'. destruct (decide (d' = S t)) as [->|]; [done|].
    apply Hmax. lia.
Qed.

Lemma shrink_to_divisor_largest (n t : nat) :
  0 < t → shrink_to_divisor n t = Ok (largest_divisor_upto n t).
Proof.
  intros Ht. destruct (shrink_to_divisor_spec n t Ht) as (d & -> & Hdiv & Hrange & Hmax).
  destruct (largest_divisor_upto_spec n t Ht) as (Hdiv' & Hrange' & Hmax').
  f_equal. apply Nat.le_antisymm; [by apply Hmax'|].
  apply Nat.nlt_ge. intros Hlt. by apply (Hmax (largest_divisor_upto n t)); [lia|].
Qed.

Lemma np_round_integer (x : Q) (z : Z) : (x == inject_Z z)%Q → np_round x = z.
Proof.
  intros H. unfold np_round.
  rewrite (Qfloor_comp _ _ H), Qfloor_Z.
  assert (Hlt : (x - inject_Z z < 1 # 2)%Q) by (rewrite H; lra).
  destruct (Qcompare_spec (x - inject_Z z) (1 # 2)) as [E|E|E]; [lra|done|lra].
Qed.

Lemma ratio_exact (d q : nat) :
  0 < d →
  (inject_Z (Z.of_nat (d * q)) / inject_Z (Z.of_nat d) == inject_Z (Z.of_nat q))%Q.
Proof.
  intros Hd. rewrite inject_nat_mul. field. by apply inject_nat_nonzero.
Qed.

Lemma inject_nat_lt (a b : nat) :
  (inject_Z (Z.of_nat a) < inject_Z (Z.of_nat b))%Q ↔ a < b.
Proof. rewrite <- Zlt_Qlt. lia. Qed.

Lemma comprehension_ok {A B : Type} (f : A → result B) (g : A → B) (xs : list A) :
  (∀ x, x ∈ xs → f x = Ok (g x)) → comprehension f xs = Ok (g <$> xs).
Proof.
  induction xs as [|x xs IH]; intros H; [done|]. simpl.
  rewrite H by left. simpl. rewrite IH; [done|]. intros y Hy. apply H. by right.
Qed.

Lemma trapezoid_ext (n : nat) (f g : nat → Q) :
  (∀ k, k < n → (f k == g k)%Q) → (trapezoid n f == trapezoid n g)%Q.
Proof.
  intros H. unfold trapezoid. apply bigsum_ext. intros k Hk.
  rewrite (H k), (H (k + 1)) by lia. reflexivity.
Qed.

Lemma trapz1_fmap (n : nat) (f : nat → Q) :
  (trapz1 (f <$> seq 0 n) == trapezoid n f)%Q.
Proof.
  unfold trapz1, trapezoid. rewrite sumQ_bigsum.
  rewrite length_zip_with, length_drop, length_fmap, length_seq.
  replace ((n - 1) `min` n) with (n - 1) by lia.
  apply bigsum_ext. intros k Hk.
  rewrite lookup_zip_with, lookup_drop, !list_lookup_fmap.
  rewrite (lookup_seq_lt 0 n (1 + k)), (lookup_seq_lt 0 n k) by lia. simpl.
  replace (k + 1) with (S k) by lia. field.
Qed.

Lemma nested_trapz (P : ndarray) (r : nat) :
  shape P = [r; r] →
  ∃ total, (trapz P ≫= trapz) = Ok total
           ∧ (item total == trapezoid r (λ u, trapezoid r (λ v, item2 P r u v)))%Q.
Proof.
  intros Hshape. unfold trapz, reduce, ndim. rewrite Hshape. simpl.
  eexists. split; [reflexivity|]. unfold item. simpl.
  unfold lane at 1. rewrite trapz1_fmap. apply trapezoid_ext. intros u Hu.
  replace ((0 * r + u) * 1 + 0) with (u * 1 + 0) by lia.
  rewrite lookup_tabulate2 by lia. simpl.
  unfold lane. rewrite trapz1_fmap. apply trapezoid_ext. intros v Hv.
  unfold item2. by replace ((u * r + v) * 1 + 0) with (u * r + v) by lia.
Qed.

Lemma item2_multiply (a b c : ndarray) (r u v : nat) :
  multiply a b = Ok c → shape a = [r; r] → wf_ndarray a → wf_ndarray b →
  u < r → v < r →
  item2 c r u v = (item2 a r u v * item2 b r u v)%Q.
Proof.
  unfold multiply. destruct (decide _) as [Hs|]; [|done].
  intros [= <-] Ha Hwa Hwb Hu Hv. unfold item2. simpl.
  unfold wf_ndarray in *. rewrite <- Hs, Ha in Hwb. rewrite Ha in Hwa.
  simpl in Hwa, Hwb.
  assert (u * r + v < r * r) by nia.
  rewrite lookup_zip_with.
  destruct (lookup_lt_is_Some_2 (data a) (u * r + v)) as [x ->]; [lia|].
  destruct (lookup_lt_is_Some_2 (data b) (u * r + v)) as [y ->]; [lia|].
  done.
Qed.

Lemma comprehension_Forall2 {A B : Type} (f : A → result B) (P : A → B → Prop)
    (xs : list A) :
  (∀ x, x ∈ xs → ∃ y, f x = Ok y ∧ P x y) →
  ∃ ys, comprehension f xs = Ok ys ∧ Forall2 P xs ys.
Proof.
  induction xs as [|x xs IH]; intros H.
  - exists []. by split.
  - destruct (H x) as (y & Hy & HP); [left|].
    destruct IH as (ys & Hys & HF); [intros z Hz; apply H; by right|].
    exists (y :: ys). simpl. rewrite Hy. simpl. rewrite Hys. simpl.
    split; [done|by constructor].
Qed.

Lemma resize_dim_rounding (n t : nat) :
  0 < t →
  let d := largest_divisor_upto n t in
  let ratio := (inject_Z (Z.of_nat n) / inject_Z (Z.of_nat d))%Q in
  (if Qlt_le_dec (inject_Z (Z.of_nat d)) ratio
   then Z.to_nat (np_round ratio) else d) = working_resolution n t.
Proof.
  intros Ht d ratio. unfold working_resolution. fold d.
  destruct (largest_divisor_upto_spec n t Ht) as (Hdiv & Hrange & _). fold d in Hdiv, Hrange.
  assert (Hn : n = d * (n / d)) by (apply Nat.Div0.div_exact; done).
  assert (Hratio : (ratio == inject_Z (Z.of_nat (n / d)))%Q).
  { unfold ratio. rewrite Hn at 1. apply ratio_exact. lia. }
  destruct (Qlt_le_dec _ _) as [Hlt|Hle].
  - rewrite Hratio in Hlt. apply inject_nat_lt in Hlt.
    rewrite (np_round_integer _ _ Hratio), Nat2Z.id.
    by destruct (decide _).
  - rewrite Hratio in Hle. apply Qle_not_lt in Hle.
    rewrite inject_nat_lt in Hle. by destruct (decide _).
Qed.

Lemma working_resolution_divides (n t : nat) :
  0 < t → 0 < n →
  let r := working_resolution n t in
  n = r * (n / r) ∧ 0 < r ∧ 0 < n / r.
Proof.
  intros Ht Hpos. unfold working_resolution.
  destruct (largest_divisor_upto_spec n t Ht) as (Hdiv & Hrange & _).
  set (d := largest_divisor_upto n t) in *.
  assert (Hn : n = d * (n / d)) by (apply Nat.Div0.div_exact; done).
  assert (0 < n / d) by (destruct (n / d); [lia|lia]).
  destruct (decide _) as [Hlt|Hge]; simpl.
  - assert (n / (n / d) = d) as ->.
    { rewrite Hn at 1. apply Nat.div_mul. lia. }
    lia.
  - lia.
Qed.

Section ModalProjectorProofs.

Variable zernike : nat → nat → ndarray.

(** What the statement uses of [aotools.zernike]: it returns an
    [n × n] array. *)
Hypothesis zernike_shape : ∀ j n, shape (zernike j n) = [n; n].
Hypothesis zernike_wf : ∀ j n, wf_ndarray (zernike j n).

Lemma coefficient_projection (image : ndarray) (n r k j : nat) :
  n = r * k → 0 < r → 0 < k → k = n / r →
  ∃ c,
    (product ← multiply (binned_mean image r r k k) (zernike j r);
     intermediate ← trapz product;
     total ← trapz intermediate;
     Ok (item total / inject_Z (Z.of_nat (count_nonzero (zernike 1 r))))%Q)
    = Ok c
    ∧ (c == projection zernike image n r j)%Q.
Proof using zernike_shape zernike_wf.
  intros Hn Hr Hk Hkdiv.
  destruct (multiply (binned_mean image r r k k) (zernike j r)) as [product|e] eqn:Hmul.
  2:{ unfold multiply in Hmul. rewrite zernike_shape in Hmul. simpl in Hmul.
      by destruct (decide _). }
  assert (shape product = [r; r]) as Hshape.
  { unfold multiply in Hmul. destruct (decide _); [|done]. by injection Hmul as <-. }
  destruct (nested_trapz product r Hshape) as (total & Htotal & Hitem).
  simpl. simpl in Htotal.
  destruct (trapz product) as [intermediate|]; [|done]. simpl in *.
  rewrite Htotal. simpl. eexists. split; [reflexivity|].
  unfold projection. rewrite Hitem, <- Hkdiv.
  apply Qmult_comp; [|reflexivity].
  apply trapezoid_ext. intros u Hu. apply trapezoid_ext. intros v Hv.
  rewrite (item2_multiply _ _ _ _ _ _ Hmul) by (done || apply wf_binned_mean).
  rewrite item2_binned_mean by done. by rewrite Hn.
Qed.

(** C7.  For a square map of side [n] and a target resolution [t]
    (both positive) the projector works at the resolution
    [working_resolution n t], built on the largest divisor of [n] not
    above [t], and returns [numModes] coefficients, the one at
    position [i] being the nested trapezoidal integral of the block
    means times the basis function of mode [i + 1], divided by the
    number of non-zero pixels of the basis at that resolution. *)
Theorem get_zernike_modes_projection (image : ndarray) (n numModes t : nat) :
  shape image = [n; n] → wf_ndarray image → 0 < n → 0 < t →
  count_nonzero (zernike 1 (working_resolution n t)) ≠ 0 →
  let d := largest_divisor_upto n t in
  let r := working_resolution n t in
  (n mod d = 0 ∧ 1 ≤ d ≤ t ∧ (∀ d', 1 ≤ d' ≤ t → n mod d' = 0 → d' ≤ d))
  ∧ r = (if decide (d < n / d) then n / d else d)
  ∧ ∃ coefs,
      get_zernike_modes zernike image numModes t = Ok coefs
      ∧ length coefs = numModes
      ∧ ∀ i, i < numModes →
          ∃ c, coefs !! i = Some c
               ∧ (c == projection zernike image n r (i + 1))%Q.
Proof using zernike_shape zernike_wf.
  intros Hshape Hwf Hn Ht Hpix d r.
  split; [by apply largest_divisor_upto_spec|]. split; [done|].
  unfold get_zernike_modes. rewrite Hshape. simpl.
  rewrite shrink_to_divisor_largest by done. simpl.
  rewrite resize_dim_rounding by done. fold r.
  destruct (working_resolution_divides n t Ht Hn) as (Hdiv & Hr & Hk).
  fold r in Hdiv, Hr, Hk.
  rewrite (bin_ndarray_mean_eq image r r (n / r) (n / r))
    by (done || by rewrite <- Hdiv).
  simpl.
  edestruct (comprehension_Forall2
    (λ i, product ← multiply (binned_mean image r r (n / r) (n / r)) (zernike i r);
          intermediate ← trapz product;
          total ← trapz intermediate;
          Ok (item total / inject_Z (Z.of_nat (count_nonzero (zernike 1 r))))%Q)
    (λ j c, (c == projection zernike image n r j)%Q)
    (seq 1 numModes)) as (coefs & Hcoefs & HF).
  { intros j _. by apply coefficient_projection. }
  exists coefs. split; [exact Hcoefs|].
  pose proof (Forall2_length _ _ _ HF) as Hlen. rewrite length_seq in Hlen.
  split; [done|]. intros i Hi.
  destruct (Forall2_lookup_l _ _ _ i (1 + i) HF) as (c & Hc & HP).
  { apply lookup_seq. lia. }
  exists c. split; [done|]. by replace (i + 1) with (1 + i) by lia.
Qed.

End ModalProjectorProofs.

(** A 4 × 4 map projected on two modes of the flat basis, target
    resolution 2. *)
Lemma get_zernike_modes_projection_witness :
  ∃ coefs,
    get_zernike_modes flat_basis (arange2 4 4) 2 2 = Ok coefs
    ∧ length coefs = 2
    ∧ ∀ i, i < 2 →
        ∃ c, coefs !! i = Some c
             ∧ (c == projection flat_basis (arange2 4 4) 4
                       (working_resolution 4 2) (i + 1))%Q.
Proof.
  apply (get_zernike_modes_projection flat_basis); try done; try lia.
  intros j n. unfold wf_ndarray, flat_basis. simpl.
  rewrite length_replicate. lia.
Defined.

(** ** Loops *)

Lemma for_each_app {A B : Type} (body : A → B → result B) (xs ys : list A) (b : B) :
  for_each body (xs ++ ys) b = for_each body xs b ≫= for_each body ys.
Proof.
  revert b. induction xs as [|x xs IH]; intros b; [done|]. simpl.
  destruct (body x b); simpl; [apply IH|done].
Qed.

Lemma for_each_range {B : Type} (body : nat → B → result B)
    (Inv : nat → B → Prop) (n : nat) (b0 : B) :
  Inv 0 b0 →
  (∀ i b, i < n → Inv i b → ∃ b', body i b = Ok b' ∧ Inv (S i) b') →
  ∃ b, for_each body (seq 0 n) b0 = Ok b ∧ Inv n b.
Proof.
  intros H0 Hstep. induction n as [|n IH]; [by exists b0|].
  destruct IH as (b & Hb & Hinv); [intros i c Hi; apply Hstep; lia|].
  destruct (Hstep n b) as (b' & Hb' & Hinv'); [lia|done|].
  exists b'. rewrite seq_S, for_each_app, Hb. simpl. by rewrite Hb'.
Qed.

Lemma for_each_range_raise {B : Type} (body : nat → B → result B)
    (Inv : nat → B → Prop) (n k : nat) (b0 : B) (e : exn) :
  k < n → Inv 0 b0 →
  (∀ i b, i < k → Inv i b → ∃ b', body i b = Ok b' ∧ Inv (S i) b') →
  (∀ b, Inv k b → body k b = Raise e) →
  for_each body (seq 0 n) b0 = Raise e.
Proof.
  intros Hk H0 Hstep Hraise.
  destruct (for_each_range body Inv k b0 H0 Hstep) as (b & Hb & Hinv).
  replace n with (k + S (n - S k)) by lia.
  rewrite seq_app, for_each_app, Hb. simpl. by rewrite (Hraise b Hinv).
Qed.

Lemma least_index (P : nat → Prop) `{!∀ i, Decision (P i)} (n : nat) :
  P n → ∃ first, first ≤ n ∧ P first ∧ ∀ j, j < first → ¬ P j.
Proof.
  assert (Haux : ∀ m, (∀ j, j < m → ¬ P j)
                      ∨ ∃ first, first < m ∧ P first ∧ ∀ j, j < first → ¬ P j).
  { induction m as [|m [IH|(first & ? & ? & ?)]].
    - left. intros j Hj. lia.
    - destruct (decide (P m)) as [Hm|Hm].
      + right. exists m. split; [lia|done].
      + left. intros j Hj. destruct (decide (j = m)) as [->|]; [done|].
        apply IH. lia.
    - right. exists first. split; [lia|done]. }
  intros Hn. destruct (Haux (S n)) as [Hnone|(first & ? & ? & ?)].
  - exfalso. apply (Hnone n); [lia|done].
  - exists first. split; [lia|done].
Qed.

(** ** [create_control_matrix] *)

Lemma where_nonzero_bound (v : list Q) :
  Forall (λ i, i < length v) (where_nonzero v).
Proof.
  apply Forall_forall. intros i Hi. unfold where_nonzero in Hi.
  apply list_elem_of_filter in Hi as [_ Hi]. apply elem_of_seq in Hi. lia.
Qed.

Lemma length_column (a : ndarray) (r c j : nat) : length (column a r c j) = r.
Proof. unfold column. by rewrite length_fmap, length_seq. Qed.

Lemma item2_set_column (a : ndarray) (r c j : nat) (v : list Q) (i k : nat) :
  i < r → k < c →
  item2 (set_column a r c j v) c i k
  = if decide (k = j) then default 0%Q (v !! i) else item2 a c i k.
Proof.
  intros Hi Hk. unfold set_column, item2 at 1. simpl.
  by rewrite lookup_tabulate2.
Qed.

Lemma item2_zeros2 (r c i k : nat) : item2 (zeros2 r c) c i k = 0%Q.
Proof.
  unfold item2, zeros2, zeros. simpl.
  destruct (replicate (r * c) 0%Q !! (i * c + k)) as [x|] eqn:E; [|done].
  by apply lookup_replicate in E as [-> _].
Qed.

Lemma pupil_lookup (pupil_ac : option (list Q)) (A ii : nat) :
  (∀ p, pupil_ac = Some p → length p = A) → ii < A →
  ∃ x, pupil_or_ones pupil_ac A !! ii = Some x
       ∧ Qeq_bool x 1 = in_pupil pupil_ac ii.
Proof.
  intros Hlen Hii. destruct pupil_ac as [p|]; simpl.
  - destruct (lookup_lt_is_Some_2 p ii) as [x Hx]; [rewrite (Hlen p); done|].
    exists x. by rewrite Hx.
  - exists 1%Q. split; [|done]. by apply lookup_replicate_2.
Qed.

Lemma item2_tabulate2 (s : list nat) (r c : nat) (f : nat → nat → Q) (i j : nat) :
  i < r → j < c → item2 (NDArray s (tabulate2 r c f)) c i j = f i j.
Proof. intros Hi Hj. unfold item2. simpl. by rewrite lookup_tabulate2. Qed.

Lemma fmap_lookup_seq {A B : Type} (f : A → B) (d : A) (l : list A) :
  f <$> l = (λ k, f (default d (l !! k))) <$> seq 0 (length l).
Proof.
  induction l as [|x l IH] using rev_ind; [done|].
  rewrite fmap_app, length_app, Nat.add_1_r, seq_S, fmap_app. simpl.
  rewrite list_lookup_middle by done. simpl. f_equal.
  rewrite IH. apply list_fmap_ext. intros i k Hk.
  apply lookup_seq in Hk as [-> Hk]. simpl. by rewrite lookup_app_l.
Qed.

(** Indexing a vector by the positions of its non-zero entries keeps
    its non-zero entries. *)
Lemma index_where_nonzero (v : list Q) :
  (λ i, default 0%Q (v !! i)) <$> where_nonzero v
  = filter (λ x, Qeq_bool x 0 = false) v.
Proof.
  unfold where_nonzero.
  assert (H : ∀ pre,
    (λ i, default 0%Q ((pre ++ v) !! i))
      <$> filter (λ i, Qeq_bool (default 0%Q ((pre ++ v) !! i)) 0 = false)
            (seq (length pre) (length v))
    = filter (λ x, Qeq_bool x 0 = false) v).
  { induction v as [|x v IH]; intros pre; [done|]. simpl.
    specialize (IH (pre ++ [x])).
    rewrite <- app_assoc, length_app, Nat.add_1_r in IH. simpl in IH.
    assert (Hx : (pre ++ x :: v) !! length pre = Some x)
      by (by apply list_lookup_middle).
    destruct (decide (Qeq_bool x 0 = false)) as [Hnz|Hz].
    - rewrite (filter_cons_True _ x) by done.
      rewrite filter_cons_True by (by rewrite Hx).
      rewrite fmap_cons, Hx. cbn [default]. by f_equal.
    - rewrite (filter_cons_False _ x) by done.
      by rewrite filter_cons_False by (by rewrite Hx). }
  apply (H []).
Qed.

Lemma fit_slopes_lookup (linregress : list Q → list Q → option Q) (M : nat)
    (x : list Q) (amp : ndarray) (slopes : list Q) (kk : nat) :
  kk < M → length slopes = M →
  fit_slopes linregress x amp M slopes !! kk
  = Some (match linregress x (column amp (length x) M kk) with
          | Some s => s
          | None => default 0%Q (slopes !! kk)
          end).
Proof.
  intros Hkk Hlen. unfold fit_slopes.
  assert (H : ∀ n, n ≤ M →
    let r := foldl (λ slopes kk,
               match linregress x (column amp (length x) M kk) with
               | Some slope => <[kk := slope]> slopes
               | None => slopes
               end) slopes (seq 0 n) in
    length r = M
    ∧ r !! kk = if decide (kk < n)
                then Some (match linregress x (column amp (length x) M kk) with
                           | Some s => s
                           | None => default 0%Q (slopes !! kk)
                           end)
                else slopes !! kk).
  { induction n as [|n IH]; intros Hn; cbv zeta.
    - simpl. split; [done|]. by destruct (decide (kk < 0)); [lia|].
    - destruct IH as [IHlen IHkk]; [lia|].
      rewrite seq_S, foldl_app. cbn [foldl]. rewrite Nat.add_0_l.
      set (r := foldl _ slopes (seq 0 n)) in *.
      destruct (linregress x (column amp (length x) M n)) as [s|] eqn:E.
      + split; [by rewrite length_insert|].
        destruct (decide (kk = n)) as [->|Hne].
        * rewrite list_lookup_insert_eq by lia.
          destruct (decide (n < S n)); [|lia]. by rewrite E.
        * rewrite list_lookup_insert_ne by done. rewrite IHkk.
          destruct (decide (kk < n)), (decide (kk < S n)); try lia; done.
      + split; [done|]. rewrite IHkk.
        destruct (decide (kk = n)) as [->|Hne].
        * destruct (decide (n < n)); [lia|]. destruct (decide (n < S n)); [|lia].
          rewrite E. destruct (lookup_lt_is_Some_2 slopes n) as [y ->]; [lia|done].
        * destruct (decide (kk < n)), (decide (kk < S n)); try lia; done. }
  destruct (H M) as [_ Hr]; [done|]. rewrite Hr. by destruct (decide _).
Qed.

Section CalibratorProofs.

Variable linregress : list Q → list Q → option Q.
Variable pinv : ndarray → Q → ndarray.

(** What the statements use of [np.linalg.pinv]: the pseudo-inverse
    of an [r × c] matrix is a [c × r] matrix. *)
Hypothesis pinv_shape :
  ∀ a r c rcond, shape a = [r; c] → shape (pinv a rcond) = [c; r].

Variables (zernikeAmps pokeSteps : ndarray) (S M A : nat).
Variable pupil_ac : option (list Q).
Hypothesis zernikeAmps_shape : shape zernikeAmps = [S; M].
Hypothesis pokeSteps_shape : shape pokeSteps = [S; A].
Hypothesis pupil_ac_length : ∀ p, pupil_ac = Some p → length p = A.

Lemma fit_slopes_length (x : list Q) (amp : ndarray) (slopes : list Q) :
  length (fit_slopes linregress x amp M slopes) = length slopes.
Proof.
  unfold fit_slopes. generalize (seq 0 M). intros ks. revert slopes.
  induction ks as [|k ks IH]; intros slopes; [done|]. simpl.
  rewrite IH. destruct (linregress _ _); [apply length_insert|done].
Qed.

(** An actuator outside the pupil leaves the state of the loop alone. *)
Lemma calibrate_actuator_skip (ii : nat) (st : list Q * ndarray) :
  ii < A → in_pupil pupil_ac ii = false →
  calibrate_actuator linregress zernikeAmps pokeSteps A M
    (pupil_or_ones pupil_ac A) ii st
  = Ok st.
Proof using pupil_ac_length.
  intros Hii Hout. destruct st as [slopes C_mat]. unfold calibrate_actuator.
  destruct (pupil_lookup pupil_ac A ii pupil_ac_length Hii) as (x & Hx & Hin).
  rewrite Hx. simpl. by rewrite Hin, Hout.
Qed.

(** An actuator of the pupil with two samples or more gets its column. *)
Lemma calibrate_actuator_fit (ii : nat) (slopes : list Q) (C_mat : ndarray) :
  ii < A → in_pupil pupil_ac ii = true → 2 ≤ poked_samples pokeSteps ii →
  ∃ slopes',
    calibrate_actuator linregress zernikeAmps pokeSteps A M
      (pupil_or_ones pupil_ac A) ii (slopes, C_mat)
    = Ok (slopes', set_column C_mat M A ii slopes')
    ∧ length slopes' = length slopes.
Proof using pupil_ac_length zernikeAmps_shape pokeSteps_shape.
  intros Hii Hin Hpoked. unfold calibrate_actuator.
  destruct (pupil_lookup pupil_ac A ii pupil_ac_length Hii) as (x & Hx & Hx1).
  rewrite Hx. simpl. rewrite Hx1, Hin.
  unfold index_column, index_rows, shape2.
  rewrite pokeSteps_shape, zernikeAmps_shape. simpl.
  destruct (decide (ii < A)); [|done]. simpl.
  rewrite bool_decide_eq_true_2.
  2:{ pose proof (where_nonzero_bound (column pokeSteps S A ii)) as H.
      by rewrite length_column in H. }
  simpl. unfold poked_samples in Hpoked. rewrite pokeSteps_shape in Hpoked.
  rewrite length_fmap. destruct (decide _); [lia|].
  eexists. split; [reflexivity|]. apply fit_slopes_length.
Qed.

(** An actuator of the pupil with fewer than two samples stops the
    calibration. *)
Lemma calibrate_actuator_raise (ii : nat) (st : list Q * ndarray) :
  ii < A → in_pupil pupil_ac ii = true → poked_samples pokeSteps ii < 2 →
  calibrate_actuator linregress zernikeAmps pokeSteps A M
    (pupil_or_ones pupil_ac A) ii st
  = Raise (Exception (not_enough_values (ii + 1))).
Proof using pupil_ac_length zernikeAmps_shape pokeSteps_shape.
  intros Hii Hin Hpoked. destruct st as [slopes C_mat]. unfold calibrate_actuator.
  destruct (pupil_lookup pupil_ac A ii pupil_ac_length Hii) as (x & Hx & Hx1).
  rewrite Hx. simpl. rewrite Hx1, Hin.
  unfold index_column, index_rows, shape2.
  rewrite pokeSteps_shape, zernikeAmps_shape. simpl.
  destruct (decide (ii < A)); [|done]. simpl.
  rewrite bool_decide_eq_true_2.
  2:{ pose proof (where_nonzero_bound (column pokeSteps S A ii)) as H.
      by rewrite length_column in H. }
  simpl. unfold poked_samples in Hpoked. rewrite pokeSteps_shape in Hpoked.
  rewrite length_fmap. destruct (decide _); [done|lia].
Qed.

(** The regression the loop runs for actuator [ii] and mode [kk]. *)
Local Abbreviation fit ii kk :=
  (linregress (poked_steps pokeSteps S A ii)
     (poked_amplitudes zernikeAmps pokeSteps S M A ii kk)).

(** What one turn of the loop does for an actuator of the pupil, in
    terms of the regressions. *)
Lemma calibrate_actuator_column (ii : nat) (slopes : list Q) (C_mat : ndarray) :
  ii < A → in_pupil pupil_ac ii = true → 2 ≤ poked_samples pokeSteps ii →
  length slopes = M →
  ∃ slopes',
    calibrate_actuator linregress zernikeAmps pokeSteps A M
      (pupil_or_ones pupil_ac A) ii (slopes, C_mat)
    = Ok (slopes', set_column C_mat M A ii slopes')
    ∧ length slopes' = M
    ∧ ∀ kk, kk < M →
        slopes' !! kk = Some (match fit ii kk with
                              | Some s => s
                              | None => default 0%Q (slopes !! kk)
                              end).
Proof using pupil_ac_length zernikeAmps_shape pokeSteps_shape.
  intros Hii Hin Hpoked Hlen. unfold calibrate_actuator.
  destruct (pupil_lookup pupil_ac A ii pupil_ac_length Hii) as (x & Hx & Hx1).
  rewrite Hx. simpl. rewrite Hx1, Hin.
  unfold index_column, index_rows, shape2.
  rewrite pokeSteps_shape, zernikeAmps_shape. simpl.
  destruct (decide (ii < A)); [|done]. simpl.
  rewrite bool_decide_eq_true_2.
  2:{ pose proof (where_nonzero_bound (column pokeSteps S A ii)) as H.
      by rewrite length_column in H. }
  simpl. unfold poked_samples in Hpoked. rewrite pokeSteps_shape in Hpoked.
  rewrite length_fmap. destruct (decide _); [lia|].
  eexists. split; [reflexivity|]. split; [by rewrite fit_slopes_length|].
  intros kk Hkk. rewrite fit_slopes_lookup by done.
  rewrite index_where_nonzero. fold (poked_steps pokeSteps S A ii).
  f_equal.
  assert (Hlenx : length (poked_steps pokeSteps S A ii)
                  = length (where_nonzero (column pokeSteps S A ii))).
  { unfold poked_steps. by rewrite <- index_where_nonzero, length_fmap. }
  replace (column _ _ M kk)
    with (poked_amplitudes zernikeAmps pokeSteps S M A ii kk); [done|].
  unfold poked_amplitudes, column. rewrite Hlenx.
  rewrite (fmap_lookup_seq _ 0). apply list_fmap_ext. intros i k Hk.
  apply lookup_seq in Hk as [-> Hk]. simpl.
  by rewrite item2_tabulate2.
Qed.

(** The loop of lines 284-308 when every actuator of the pupil has two
    samples or more: the columns of the matrix in terms of the
    regressions, and of the slopes left over from the actuator of the
    pupil treated before. *)
Lemma sensitivity_matrix_columns :
  (∀ ii, ii < A → in_pupil pupil_ac ii = true →
         2 ≤ poked_samples pokeSteps ii) →
  ∃ C_mat,
    sensitivity_matrix linregress zernikeAmps pokeSteps A pupil_ac = Ok C_mat
    ∧ shape C_mat = [M; A] ∧ wf_ndarray C_mat
    ∧ (∀ ii kk s, ii < A → kk < M → in_pupil pupil_ac ii = true →
         fit ii kk = Some s → item2 C_mat A kk ii = s)
    ∧ (∀ ii kk, ii < A → kk < M → in_pupil pupil_ac ii = true →
         fit ii kk = None →
         (∀ jj, jj < ii → in_pupil pupil_ac jj = true →
            (∀ j', jj < j' < ii → in_pupil pupil_ac j' = false) →
            item2 C_mat A kk ii = item2 C_mat A kk jj)
         ∧ ((∀ jj, jj < ii → in_pupil pupil_ac jj = false) →
            item2 C_mat A kk ii = 0%Q)).
Proof using pupil_ac_length zernikeAmps_shape pokeSteps_shape.
  intros Henough.
  set (Inv := λ (i : nat) (st : list Q * ndarray),
    length st.1 = M ∧ shape st.2 = [M; A] ∧ wf_ndarray st.2
    ∧ (∀ jj, jj < i → in_pupil pupil_ac jj = true →
         (∀ j', jj < j' < i → in_pupil pupil_ac j' = false) →
         ∀ kk, kk < M → st.1 !! kk = Some (item2 st.2 A kk jj))
    ∧ ((∀ jj, jj < i → in_pupil pupil_ac jj = false) →
         ∀ kk, kk < M → st.1 !! kk = Some 0%Q)
    ∧ (∀ ii kk s, ii < i → kk < M → in_pupil pupil_ac ii = true →
         fit ii kk = Some s → item2 st.2 A kk ii = s)
    ∧ (∀ ii kk, ii < i → kk < M → in_pupil pupil_ac ii = true →
         fit ii kk = None →
         (∀ jj, jj < ii → in_pupil pupil_ac jj = true →
            (∀ j', jj < j' < ii → in_pupil pupil_ac j' = false) →
            item2 st.2 A kk ii = item2 st.2 A kk jj)
         ∧ ((∀ jj, jj < ii → in_pupil pupil_ac jj = false) →
            item2 st.2 A kk ii = 0%Q))).
  destruct (for_each_range
    (calibrate_actuator linregress zernikeAmps pokeSteps A M
       (pupil_or_ones pupil_ac A))
    Inv A (zeros M, zeros2 M A)) as ([slopes C_mat] & Hloop & HInv).
  { unfold Inv. cbn [fst snd]. split; [apply length_replicate|].
    split; [done|]. split.
    { unfold wf_ndarray, zeros2, zeros. simpl. rewrite length_replicate. lia. }
    split; [intros; lia|]. split; [|split; intros; lia].
    intros _ kk Hkk. by apply lookup_replicate_2. }
  { intros i [slopes C_mat] Hi (Hlen & Hshape & Hwf & P1 & P2 & P3 & P4).
    cbn [fst snd] in Hlen, Hshape, Hwf, P1, P2, P3, P4.
    destruct (in_pupil pupil_ac i) eqn:Hin.
    - destruct (calibrate_actuator_column i slopes C_mat Hi Hin
                  (Henough i Hi Hin) Hlen) as (slopes' & -> & Hlen' & Hnew).
      eexists. split; [reflexivity|]. unfold Inv. cbn [fst snd].
      assert (Hcol : ∀ kk, kk < M →
                item2 (set_column C_mat M A i slopes') A kk i
                = default 0%Q (slopes' !! kk)).
      { intros kk Hkk. rewrite item2_set_column by done.
        by destruct (decide (i = i)). }
      assert (Hother : ∀ kk jj, kk < M → jj < A → jj ≠ i →
                item2 (set_column C_mat M A i slopes') A kk jj
                = item2 C_mat A kk jj).
      { intros kk jj Hkk Hjj Hne. rewrite item2_set_column by done.
        by destruct (decide (jj = i)). }
      split; [done|]. split; [done|]. split.
      { unfold wf_ndarray. simpl. rewrite length_tabulate2. lia. }
      split; [|split; [|split]].
      + intros jj Hjj Hjin Hbetween kk Hkk.
        destruct (decide (jj = i)) as [->|Hne].
        * rewrite Hcol by done.
          destruct (lookup_lt_is_Some_2 slopes' kk) as [y ->]; [lia|done].
        * assert (in_pupil pupil_ac i = false) by (apply Hbetween; lia).
          congruence.
      + intros Hnone. rewrite Hnone in Hin by lia. done.
      + intros ii kk s Hii Hkk Hiin Hfit.
        destruct (decide (ii = i)) as [->|Hne].
        * rewrite Hcol, Hnew by done. by rewrite Hfit.
        * rewrite Hother by lia. apply P3; try done; lia.
      + intros ii kk Hii Hkk Hiin Hfit.
        destruct (decide (ii = i)) as [->|Hne].
        * rewrite Hcol, Hnew by done. rewrite Hfit. cbn [default]. split.
          -- intros jj Hjj Hjin Hbetween. rewrite Hother by lia.
             by rewrite (P1 jj Hjj Hjin Hbetween kk Hkk).
          -- intros Hnone. by rewrite (P2 Hnone kk Hkk).
        * destruct (P4 ii kk) as [Q1 Q2]; try done; [lia|].
          rewrite Hother by lia. split.
          -- intros jj Hjj Hjin Hbetween. rewrite Hother by lia. by apply Q1.
          -- done.
    - rewrite calibrate_actuator_skip by done.
      eexists. split; [reflexivity|]. unfold Inv. cbn [fst snd].
      split; [done|]. split; [done|]. split; [done|].
      split; [|split; [|split]].
      + intros jj Hjj Hjin Hbetween kk Hkk.
        destruct (decide (jj = i)) as [->|Hne]; [congruence|].
        apply P1; try done; [lia|]. intros j' Hj'. apply Hbetween. lia.
      + intros Hnone. apply P2. intros jj Hjj. apply Hnone. lia.
      + intros ii kk s Hii Hkk Hiin Hfit.
        destruct (decide (ii = i)) as [->|Hne]; [congruence|].
        apply P3; try done; lia.
      + intros ii kk Hii Hkk Hiin Hfit.
        destruct (decide (ii = i)) as [->|Hne]; [congruence|].
        apply P4; try done; lia. }
  destruct HInv as (_ & Hshape & Hwf & _ & _ & P3 & P4).
  cbn [fst snd] in Hshape, Hwf, P3, P4.
  exists C_mat. split; [|done].
  unfold sensitivity_matrix, shape2. rewrite zernikeAmps_shape. simpl.
  by rewrite Hloop.
Qed.

(** C1.  When every actuator of the pupil has two samples or more
    with a non-zero step, the loop builds a sensitivity matrix of
    shape [M × A]: its columns of the actuators outside the pupil are
    zero, and its entry of mode [kk] and of an actuator [ii] of the
    pupil is the slope [linregress] returns for the non-zero steps of
    [ii] against the amplitudes of [kk] measured in the same samples.
    The call stores and returns [pinv] of that matrix at the given
    threshold, a matrix of shape [A × M]. *)
Theorem create_control_matrix_pinv (self : AdaptiveOpticsFunctions)
    (threshold : Q) :
  (∀ ii, ii < A → in_pupil pupil_ac ii = true →
         2 ≤ poked_samples pokeSteps ii) →
  ∃ C_mat,
    sensitivity_matrix linregress zernikeAmps pokeSteps A pupil_ac = Ok C_mat
    ∧ shape C_mat = [M; A] ∧ wf_ndarray C_mat
    ∧ (∀ ii k, ii < A → k < M → in_pupil pupil_ac ii = false →
               item2 C_mat A k ii = 0%Q)
    ∧ (∀ ii kk s, ii < A → kk < M → in_pupil pupil_ac ii = true →
         linregress (poked_steps pokeSteps S A ii)
           (poked_amplitudes zernikeAmps pokeSteps S M A ii kk)
         = Some s →
         item2 C_mat A kk ii = s)
    ∧ create_control_matrix linregress pinv self zernikeAmps pokeSteps A
        pupil_ac threshold
      = Ok (set_controlMatrix self (pinv C_mat threshold),
            pinv C_mat threshold)
    ∧ shape (pinv C_mat threshold) = [A; M].
Proof using pinv_shape pupil_ac_length zernikeAmps_shape pokeSteps_shape.
  intros Henough.
  set (Inv := λ (i : nat) (st : list Q * ndarray),
    length st.1 = M ∧ shape st.2 = [M; A] ∧ wf_ndarray st.2
    ∧ ∀ ii k, ii < A → k < M → i ≤ ii ∨ in_pupil pupil_ac ii = false →
              item2 st.2 A k ii = 0%Q).
  destruct (for_each_range
    (calibrate_actuator linregress zernikeAmps pokeSteps A M
       (pupil_or_ones pupil_ac A))
    Inv A (zeros M, zeros2 M A)) as ([slopes C_mat] & Hloop & HInv).
  { unfold Inv. simpl. split; [apply length_replicate|]. split; [done|]. split.
    - unfold wf_ndarray, zeros2, zeros. simpl. rewrite length_replicate. lia.
    - intros. apply item2_zeros2. }
  { intros i [slopes C_mat] Hi (Hlen & Hshape & Hwf & Hzero).
    simpl in Hlen, Hshape, Hwf, Hzero.
    destruct (in_pupil pupil_ac i) eqn:Hin.
    - destruct (calibrate_actuator_fit i slopes C_mat Hi Hin (Henough i Hi Hin))
        as (slopes' & -> & Hlen').
      eexists. split; [reflexivity|]. unfold Inv. simpl.
      split; [lia|]. split; [done|]. split.
      { unfold wf_ndarray. simpl. rewrite length_tabulate2. lia. }
      (* the other columns keep their value *)
      intros ii k Hii Hk Hcase. rewrite item2_set_column by done.
      destruct (decide (ii = i)) as [->|Hne].
      + destruct Hcase; [lia|congruence].
      + apply Hzero; try done. destruct Hcase; [left; lia|by right].
    - rewrite calibrate_actuator_skip by done.
      eexists. split; [reflexivity|]. unfold Inv. simpl.
      repeat split; try done. intros ii k Hii Hk Hcase.
      apply Hzero; try done. destruct (decide (ii = i)) as [->|]; [by right|].
      destruct Hcase; [left; lia|by right]. }
  destruct HInv as (_ & Hshape & Hwf & Hzero). simpl in *.
  assert (sensitivity_matrix linregress zernikeAmps pokeSteps A pupil_ac
          = Ok C_mat) as Hsens.
  { unfold sensitivity_matrix, shape2. rewrite zernikeAmps_shape. simpl.
    by rewrite Hloop. }
  destruct (sensitivity_matrix_columns Henough)
    as (C' & HC' & _ & _ & Hslopes & _).
  rewrite Hsens in HC'. injection HC' as <-.
  exists C_mat. split; [done|]. split; [done|]. split; [done|]. split.
  { intros ii k Hii Hk Hout. apply Hzero; try done. by right. }
  split; [done|].
  split; [unfold create_control_matrix; by rewrite Hsens|].
  by apply pinv_shape.
Qed.

(** C3.  When an actuator of the pupil has fewer than two samples
    with a non-zero step (exactly one, for instance), the call raises
    the exception whose message names, counting from one, the first
    actuator of the pupil in that case. *)
Theorem create_control_matrix_not_enough (self : AdaptiveOpticsFunctions)
    (threshold : Q) (ii : nat) :
  ii < A → in_pupil pupil_ac ii = true → poked_samples pokeSteps ii < 2 →
  ∃ first,
    first ≤ ii ∧ in_pupil pupil_ac first = true
    ∧ poked_samples pokeSteps first < 2
    ∧ (∀ jj, jj < first → in_pupil pupil_ac jj = true →
             2 ≤ poked_samples pokeSteps jj)
    ∧ create_control_matrix linregress pinv self zernikeAmps pokeSteps A
        pupil_ac threshold
      = Raise (Exception (not_enough_values (first + 1))).
Proof using pupil_ac_length zernikeAmps_shape pokeSteps_shape.
  intros Hii Hin Hfew.
  set (bad := λ i, in_pupil pupil_ac i = true ∧ poked_samples pokeSteps i < 2).
  assert (∃ first, first ≤ ii ∧ bad first ∧ ∀ jj, jj < first → ¬ bad jj)
    as (first & Hle & [Hin' Hfew'] & Hleast).
  { apply (least_index bad). by split. }
  exists first. split; [done|]. split; [done|]. split; [done|]. split.
  { intros jj Hjj Hp. destruct (decide (2 ≤ poked_samples pokeSteps jj)); [done|].
    exfalso. apply (Hleast jj Hjj). split; [done|lia]. }
  unfold create_control_matrix, sensitivity_matrix, shape2.
  rewrite zernikeAmps_shape. simpl.
  rewrite (for_each_range_raise _ (λ _ _, True) A first _
             (Exception (not_enough_values (first + 1)))); try done; [lia| |].
  - intros i [slopes C_mat] Hi _.
    destruct (in_pupil pupil_ac i) eqn:Hp.
    + destruct (calibrate_actuator_fit i slopes C_mat) as (slopes' & -> & _);
        try done; [lia| |by eexists].
      destruct (decide (2 ≤ poked_samples pokeSteps i)); [done|].
      exfalso. apply (Hleast i Hi). split; [done|lia].
    + rewrite calibrate_actuator_skip by (done || lia). by eexists.
  - intros st _. apply calibrate_actuator_raise; [lia|done|done].
Qed.

End CalibratorProofs.

Lemma pinv_monomial_shape (a : ndarray) (r c : nat) (rcond : Q) :
  shape a = [r; c] → shape (pinv_monomial a rcond) = [c; r].
Proof. intros H. unfold pinv_monomial. by rewrite H. Qed.

(** The sample calibration, all actuators in the pupil: the
    regressions of actuator 0 on mode 0 and of actuator 1 on mode 1
    give the slopes 2 and 3. *)
Lemma create_control_matrix_pinv_witness :
  ∃ C_mat,
    sensitivity_matrix least_squares_slope sample_zernikeAmps sample_pokeSteps
      2 None = Ok C_mat
    ∧ shape C_mat = [2; 2] ∧ wf_ndarray C_mat
    ∧ (∀ ii k, ii < 2 → k < 2 → in_pupil None ii = false →
               item2 C_mat 2 k ii = 0%Q)
    ∧ (∀ ii kk s, ii < 2 → kk < 2 → in_pupil None ii = true →
         least_squares_slope (poked_steps sample_pokeSteps 4 2 ii)
           (poked_amplitudes sample_zernikeAmps sample_pokeSteps 4 2 2 ii kk)
         = Some s →
         item2 C_mat 2 kk ii = s)
    ∧ create_control_matrix least_squares_slope pinv_monomial init
        sample_zernikeAmps sample_pokeSteps 2 None default_threshold
      = Ok (set_controlMatrix init (pinv_monomial C_mat default_threshold),
            pinv_monomial C_mat default_threshold)
    ∧ shape (pinv_monomial C_mat default_threshold) = [2; 2].
Proof.
  apply (create_control_matrix_pinv least_squares_slope pinv_monomial
           pinv_monomial_shape sample_zernikeAmps sample_pokeSteps 4 2 2 None);
    try done.
  intros ii Hii _. destruct ii as [|[|ii]]; vm_compute; lia.
Defined.

(** The sample calibration with a single sample for actuator 1: the
    message names actuator 2. *)
Lemma create_control_matrix_not_enough_witness :
  ∃ first,
    first ≤ 1 ∧ in_pupil None first = true
    ∧ poked_samples sample_pokeSteps_short first < 2
    ∧ (∀ jj, jj < first → in_pupil None jj = true →
             2 ≤ poked_samples sample_pokeSteps_short jj)
    ∧ create_control_matrix least_squares_slope pinv_monomial init
        sample_zernikeAmps sample_pokeSteps_short 2 None default_threshold
      = Raise (Exception (not_enough_values (first + 1))).
Proof.
  apply (create_control_matrix_not_enough least_squares_slope pinv_monomial
           sample_zernikeAmps sample_pokeSteps_short 4 2 2 None);
    try done.
  - lia.
  - vm_compute. lia.
Defined.

(** On the sample calibration, where actuator [i] moves mode [i] only,
    with slopes 2 and 3, the control matrix is the inverse diagonal. *)
Example create_control_matrix_inverse_diagonal :
  let cm := NDArray [2; 2] [128 # 256; 0; 0; 128 # 384]%Q in
  create_control_matrix least_squares_slope pinv_monomial init
    sample_zernikeAmps sample_pokeSteps 2 None default_threshold
  = Ok (set_controlMatrix init cm, cm).
Proof. reflexivity. Qed.

(** ** [ac_pos_from_zernike] *)

Lemma lookup_row (a : ndarray) (r c i j : nat) :
  length (data a) = r * c → i < r → j < c →
  row a c i !! j = Some (item2 a c i j).
Proof.
  intros Hlen Hi Hj. unfold row, item2.
  rewrite lookup_take, lookup_drop. destruct (decide (j < c)); [|lia].
  assert (i * c + j < r * c) by nia.
  destruct (lookup_lt_is_Some_2 (data a) (i * c + j)) as [x ->]; [lia|done].
Qed.

Lemma length_row (a : ndarray) (r c i : nat) :
  length (data a) = r * c → i < r → length (row a c i) = c.
Proof.
  intros Hlen Hi. unfold row. rewrite length_take, length_drop. nia.
Qed.

Lemma dot_row (a : ndarray) (r c i : nat) (v : list Q) :
  length (data a) = r * c → i < r → length v = c →
  (sumQ (zip_with Qmult (row a c i) v)
   == bigsum c (λ j, item2 a c i j * default 0 (v !! j)))%Q.
Proof.
  intros Hlen Hi Hv. rewrite sumQ_bigsum, length_zip_with.
  rewrite (length_row a r c i), Hv, Nat.min_id by done.
  apply bigsum_ext. intros j Hj.
  rewrite lookup_zip_with, (lookup_row a r c i j) by done. simpl.
  destruct (lookup_lt_is_Some_2 v j) as [y ->]; [lia|]. reflexivity.
Qed.

(** C2.  With a stored control matrix of shape [A × M], the desired
    modes are brought to length [M] (zeros appended on the right, or
    the first [M] entries kept) and multiplied by the matrix.  The
    product has [A] entries; it is returned when [numActuators] is [A],
    and otherwise the call raises the bare [Exception] of line 328. *)
Theorem ac_pos_from_zernike_product (self : AdaptiveOpticsFunctions)
    (cm : ndarray) (A M : nat) (applied_z_modes : list Q) (numActuators : nat) :
  controlMatrix self = Some cm → shape cm = [A; M] → wf_ndarray cm →
  let desired := resize M 0%Q applied_z_modes in
  (numActuators = A →
     ∃ actuator_pos,
       ac_pos_from_zernike self applied_z_modes numActuators = Ok actuator_pos
       ∧ length actuator_pos = numActuators
       ∧ ∀ i, i < A →
           ∃ x, actuator_pos !! i = Some x
                ∧ (x == bigsum M (λ j, item2 cm M i j * default 0 (desired !! j)))%Q)
  ∧ (numActuators ≠ A →
     ac_pos_from_zernike self applied_z_modes numActuators
     = Raise (Exception EmptyString)).
Proof.
  intros Hcm Hshape Hwf desired.
  assert (Hlen : length (data cm) = A * M).
  { unfold wf_ndarray in Hwf. rewrite Hwf, Hshape. simpl. lia. }
  assert (Hdesired :
    (if decide (length applied_z_modes < M) then
       applied_z_modes ++ zeros (M - length applied_z_modes)
     else if decide (M < length applied_z_modes) then take M applied_z_modes
     else applied_z_modes) = desired).
  { unfold desired. rewrite resize_spec. unfold zeros.
    destruct (decide _); [by rewrite take_ge by lia|].
    replace (M - length applied_z_modes) with 0 by lia. simpl.
    rewrite app_nil_r. destruct (decide _); [done|]. by rewrite take_ge by lia. }
  assert (Hdl : length desired = M) by apply length_resize.
  unfold ac_pos_from_zernike. rewrite Hcm. simpl.
  unfold shape2. rewrite Hshape. simpl. rewrite Hdesired.
  unfold dot, shape2. rewrite Hshape. simpl.
  destruct (decide (length desired = M)); [|done]. simpl.
  rewrite length_fmap, length_seq. split.
  - intros ->. destruct (decide (A = A)); [|done].
    eexists. split; [reflexivity|]. split; [by rewrite length_fmap, length_seq|].
    intros i Hi. eexists. rewrite list_lookup_fmap, lookup_seq_lt by done.
    split; [reflexivity|]. by apply (dot_row cm A M).
  - intros Hne. destruct (decide (A = numActuators)); [congruence|done].
Qed.

(** The pseudo-inverse computed from the sample calibration, applied
    to a vector that is one entry short. *)
Lemma ac_pos_from_zernike_product_witness :
  let cm := NDArray [2; 2] [1 # 2; 0; 0; 1 # 3]%Q in
  let desired := resize 2 0%Q [4]%Q in
  ∃ actuator_pos,
    ac_pos_from_zernike (set_controlMatrix init cm) [4]%Q 2 = Ok actuator_pos
    ∧ length actuator_pos = 2
    ∧ ∀ i, i < 2 →
        ∃ x, actuator_pos !! i = Some x
             ∧ (x == bigsum 2 (λ j, item2 cm 2 i j * default 0 (desired !! j)))%Q.
Proof.
  intros cm desired.
  by apply (proj1 (ac_pos_from_zernike_product (set_controlMatrix init cm) cm
                     2 2 [4]%Q 2 eq_refl eq_refl eq_refl)).
Defined.

(** ** The sensorless estimator *)

Lemma np_min_spec (v : list Q) (lo : Q) :
  np_min v = Ok lo → lo ∈ v ∧ ∀ x, x ∈ v → (lo <= x)%Q.
Proof.
  destruct v as [|x0 v]; [done|]. simpl. intros [= <-].
  assert (H : ∀ m, let r := foldl (λ m y, if Qle_bool y m then y else m) m v in
            (r = m ∨ r ∈ v) ∧ (r <= m)%Q ∧ ∀ x, x ∈ v → (r <= x)%Q).
  { induction v as [|y v IH]; intros m; simpl.
    - split; [by left|]. split; [lra|]. intros x Hx. by apply elem_of_nil in Hx.
    - destruct (Qle_bool y m) eqn:E.
      + apply Qle_bool_iff in E.
        destruct (IH y) as ([->|Hin] & Hle & Hall).
        * split; [right; left|]. split; [done|].
          intros x Hx. apply elem_of_cons in Hx as [->|Hx]; [lra|by apply Hall].
        * split; [right; by right|]. split; [lra|].
          intros x Hx. apply elem_of_cons in Hx as [->|Hx]; [done|by apply Hall].
      + assert (m < y)%Q.
        { apply Qnot_le_lt. intros Hle. apply Qle_bool_iff in Hle. congruence. }
        destruct (IH m) as ([->|Hin] & Hle & Hall).
        * split; [by left|]. split; [lra|].
          intros x Hx. apply elem_of_cons in Hx as [->|Hx]; [lra|by apply Hall].
        * split; [right; by right|]. split; [done|].
          intros x Hx. apply elem_of_cons in Hx as [->|Hx]; [lra|by apply Hall]. }
  destruct (H x0) as ([->|Hin] & Hle & Hall).
  - split; [left|]. intros x Hx. apply elem_of_cons in Hx as [->|Hx]; [lra|by apply Hall].
  - split; [by right|]. intros x Hx. apply elem_of_cons in Hx as [->|Hx]; [done|by apply Hall].
Qed.

Lemma np_max_spec (v : list Q) (hi : Q) :
  np_max v = Ok hi → hi ∈ v ∧ ∀ x, x ∈ v → (x <= hi)%Q.
Proof.
  destruct v as [|x0 v]; [done|]. simpl. intros [= <-].
  assert (H : ∀ m, let r := foldl (λ m y, if Qle_bool m y then y else m) m v in
            (r = m ∨ r ∈ v) ∧ (m <= r)%Q ∧ ∀ x, x ∈ v → (x <= r)%Q).
  { induction v as [|y v IH]; intros m; simpl.
    - split; [by left|]. split; [lra|]. intros x Hx. by apply elem_of_nil in Hx.
    - destruct (Qle_bool m y) eqn:E.
      + apply Qle_bool_iff in E.
        destruct (IH y) as ([->|Hin] & Hle & Hall).
        * split; [right; left|]. split; [done|].
          intros x Hx. apply elem_of_cons in Hx as [->|Hx]; [lra|by apply Hall].
        * split; [right; by right|]. split; [lra|].
          intros x Hx. apply elem_of_cons in Hx as [->|Hx]; [done|by apply Hall].
      + assert (y < m)%Q.
        { apply Qnot_le_lt. intros Hle. apply Qle_bool_iff in Hle. congruence. }
        destruct (IH m) as ([->|Hin] & Hle & Hall).
        * split; [by left|]. split; [lra|].
          intros x Hx. apply elem_of_cons in Hx as [->|Hx]; [lra|by apply Hall].
        * split; [right; by right|]. split; [done|].
          intros x Hx. apply elem_of_cons in Hx as [->|Hx]; [lra|by apply Hall]. }
  destruct (H x0) as ([->|Hin] & Hle & Hall).
  - split; [left|]. intros x Hx. apply elem_of_cons in Hx as [->|Hx]; [lra|by apply Hall].
  - split; [by right|]. intros x Hx. apply elem_of_cons in Hx as [->|Hx]; [done|by apply Hall].
Qed.



(** The stand-in comparison is accurate to its margin. *)
Lemma two_sigma_clear_accurate (m : list Q) (top : Q) :
  np_max m = Ok top → accurate_to margin two_sigma_clear m top.
Proof.
  intros Htop. unfold accurate_to, two_sigma_clear. rewrite Htop.
  set (excess := (top - meanQ m)%Q). set (variance := np_var m).
  split.
  - intros Hpos Habove. apply andb_true_iff. split; [by apply Qle_bool_iff|].
    apply negb_true_iff. apply not_true_is_false. intros Hle.
    apply Qle_bool_iff in Hle. by apply Qlt_not_le in Habove.
  - intros Hbelow. apply andb_false_iff. right.
    apply negb_false_iff. apply Qle_bool_iff.
    assert (0 <= excess * excess)%Q by nra.
    unfold margin in *. lra.
Qed.

Lemma py_slice_nat {A : Type} (l : list A) (a b : nat) :
  a ≤ b → py_slice l (Z.of_nat a) (Z.of_nat b) = take (b - a) (drop a l).
Proof.
  intros Hab. unfold py_slice, py_bound.
  destruct (decide (0 ≤ Z.of_nat a)%Z); [|lia].
  destruct (decide (0 ≤ Z.of_nat b)%Z); [|lia].
  rewrite !Nat2Z.id.
  destruct (decide (a ≤ length l)) as [Ha|Ha].
  - rewrite (Nat.min_l a) by done.
    destruct (decide (b ≤ length l)) as [Hb|Hb].
    + by rewrite (Nat.min_l b).
    + rewrite (Nat.min_r b) by lia.
      rewrite !take_ge; [done| |]; rewrite length_drop; lia.
  - rewrite (Nat.min_r a), (Nat.min_r b) by lia.
    by rewrite !drop_ge, !take_nil by lia.
Qed.

Lemma py_index_one_based (n : nat) (z : Z) :
  (1 ≤ z ≤ Z.of_nat n)%Z → py_index n (z - 1) = Some (Z.to_nat (z - 1)).
Proof.
  intros Hz. unfold py_index. destruct (decide _); [done|lia].
Qed.

Section SensorlessProofs.

Variables measure_fourier_metric measure_contrast_metric
  measure_fourier_power_metric measure_gradient_metric
  measure_second_moment_metric : ndarray → Q.
Variable curve_fit :
  list Q → list Q → list bound → list bound → result (Q * Q * Q * Q).
Variable two_sigma_test : list Q → bool.

(** What the statements use of [curve_fit]: the parameters it
    returns respect the bounds it was given. *)
Hypothesis curve_fit_within :
  ∀ xdata ydata l0 l1 l2 l3 u0 u1 u2 u3 offset normalising mean std_dev,
    curve_fit xdata ydata [l0; l1; l2; l3] [u0; u1; u2; u3]
    = Ok (offset, normalising, mean, std_dev) →
    within l0 offset u0 ∧ within l1 normalising u1
    ∧ within l2 mean u2 ∧ within l3 std_dev u3.

Local Abbreviation metric_table :=
  (metric_function measure_fourier_metric measure_contrast_metric
     measure_fourier_power_metric measure_gradient_metric
     measure_second_moment_metric).
Local Abbreviation estimate :=
  (find_zernike_amp_sensorless measure_fourier_metric measure_contrast_metric
     measure_fourier_power_metric measure_gradient_metric
     measure_second_moment_metric curve_fit two_sigma_test).
Local Abbreviation estimate_all :=
  (get_zernike_modes_sensorless measure_fourier_metric measure_contrast_metric
     measure_fourier_power_metric measure_gradient_metric
     measure_second_moment_metric curve_fit two_sigma_test).

Lemma metrics_measured_ok (self : AdaptiveOpticsFunctions)
    (f : ndarray → Q) (image_stack : list ndarray) :
  metric_table (metric self) = Ok f →
  comprehension
    (measure_metric measure_fourier_metric measure_contrast_metric
       measure_fourier_power_metric measure_gradient_metric
       measure_second_moment_metric self) image_stack
  = Ok (f <$> image_stack).
Proof.
  intros Hf. apply comprehension_ok. intros image _.
  unfold measure_metric. by rewrite Hf.
Qed.

(** C5.  When the fit converges, the estimate is minus the fitted
    peak location, and that location lies between the smallest
    applied amplitude minus a quarter of the range and the largest
    plus a quarter of the range. *)
Theorem find_zernike_amp_sensorless_fitted (self : AdaptiveOpticsFunctions)
    (image_stack : list ndarray) (zernike_amplitudes : list Q)
    (f : ndarray → Q) (lo hi offset normalising mean std_dev : Q) :
  metric_table (metric self) = Ok f →
  np_min zernike_amplitudes = Ok lo → np_max zernike_amplitudes = Ok hi →
  curve_fit zernike_amplitudes (f <$> image_stack)
    [NINF; Finite 0; Finite (lo - (25 # 100) * (hi - lo)); NINF]
    [Inf; Inf; Finite (hi + (25 # 100) * (hi - lo)); Inf]
  = Ok (offset, normalising, mean, std_dev) →
  estimate self image_stack zernike_amplitudes
  = Ok (Scalar (-1 * mean))
  ∧ (lo - (25 # 100) * (hi - lo) <= mean
     ∧ mean <= hi + (25 # 100) * (hi - lo))%Q
  ∧ (lo ∈ zernike_amplitudes ∧ ∀ x, x ∈ zernike_amplitudes → (lo <= x)%Q)
  ∧ (hi ∈ zernike_amplitudes ∧ ∀ x, x ∈ zernike_amplitudes → (x <= hi)%Q).
Proof using curve_fit_within.
  intros Hf Hlo Hhi Hfit. split.
  - unfold find_zernike_amp_sensorless.
    rewrite (metrics_measured_ok self f) by done. simpl.
    rewrite Hlo, Hhi. simpl. by rewrite Hfit.
  - split; [|split; [by apply np_min_spec|by apply np_max_spec]].
    by destruct (curve_fit_within _ _ _ _ _ _ _ _ _ _ _ _ _ _ Hfit)
      as (_ & _ & [? ?] & _).
Qed.


(** C6, as the code has it.  With [S] rows and [N] columns of
    applied amplitudes and [K] requested modes, numbered from 1 to
    [N], block [ii] is made of the [S / K] images from [ii * (S / K)]
    on, it is estimated against the amplitudes of those rows in the
    column of mode [nollZernike[ii]], and the estimate is written at
    position [nollZernike[ii] - 1] of a vector of [N] zeros: the
    result has one entry per column of the amplitudes, not one per
    requested mode. *)
Theorem get_zernike_modes_sensorless_scatter (self : AdaptiveOpticsFunctions)
    (full_image_stack : list ndarray) (full_zernike_applied : ndarray)
    (nollZernike : list Z) (S N : nat) (amp : nat → Q) :
  shape full_zernike_applied = [S; N] →
  nollZernike ≠ [] →
  (∀ ii z, nollZernike !! ii = Some z → (1 ≤ z ≤ Z.of_nat N)%Z) →
  let K := length nollZernike in
  let numMes := S / K in
  let position := mode_position nollZernike in
  (∀ ii, ii < K →
     ∃ a,
       estimate self
         (take numMes (drop (ii * numMes) full_image_stack))
         (take numMes (drop (ii * numMes)
            (column full_zernike_applied S N (position ii))))
       = Ok a
       ∧ as_element a = Ok (amp ii)) →
  ∃ coef,
    estimate_all self full_image_stack full_zernike_applied nollZernike
    = Ok coef
    ∧ length coef = N
    ∧ (∀ p, p < N → (∀ ii, ii < K → position ii ≠ p) → coef !! p = Some 0%Q)
    ∧ (∀ ii, ii < K → (∀ jj, ii < jj < K → position jj ≠ position ii) →
             coef !! position ii = Some (amp ii)).
Proof.
  intros Hshape Hnoll Hrange K numMes position Hest.
  assert (0 < K) by (unfold K; destruct nollZernike; [done|simpl; lia]).
  unfold get_zernike_modes_sensorless, shape2. rewrite Hshape. simpl.
  unfold floordiv. destruct (decide _); [lia|]. simpl. fold K. fold numMes.
  set (Inv := λ (i : nat) (coef : list Q),
    length coef = N
    ∧ (∀ p, p < N → (∀ ii, ii < i → position ii ≠ p) → coef !! p = Some 0%Q)
    ∧ (∀ ii, ii < i → (∀ jj, ii < jj < i → position jj ≠ position ii) →
             coef !! position ii = Some (amp ii))).
  destruct (for_each_range
    (estimate_mode measure_fourier_metric measure_contrast_metric
       measure_fourier_power_metric measure_gradient_metric
       measure_second_moment_metric curve_fit two_sigma_test self
       full_image_stack
       full_zernike_applied nollZernike numMes)
    Inv K (zeros N)) as (coef & Hloop & Hlen & Hzero & Hamp).
  { split; [apply length_replicate|]. split; [|intros; lia].
    intros p Hp _. by apply lookup_replicate_2. }
  { intros i coef Hi (Hlen & Hzero & Hamp).
    destruct (lookup_lt_is_Some_2 nollZernike i Hi) as [z Hz].
    pose proof (Hrange i z Hz) as Hzr.
    assert (Hpos : position i = Z.to_nat (z - 1)).
    { unfold position, mode_position. by rewrite Hz. }
    assert (Hlt : position i < N) by lia.
    destruct (Hest i Hi) as (a & Ha & Hx).
    unfold estimate_mode, shape2. rewrite Hshape, Hz. simpl.
    rewrite !(py_index_one_based _ z) by lia. rewrite <- Hpos. simpl.
    rewrite !(py_slice_nat _ (i * numMes) ((i + 1) * numMes)) by lia.
    replace ((i + 1) * numMes - i * numMes) with numMes by lia.
    rewrite Ha. simpl. rewrite Hx. simpl.
    eexists. split; [reflexivity|].
    split; [by rewrite length_insert|]. split.
    - intros p Hp Hfree. rewrite list_lookup_insert_ne by (apply Hfree; lia).
      apply Hzero; [done|]. intros ii Hii. apply Hfree. lia.
    - intros ii Hii Hlast. destruct (decide (ii = i)) as [->|Hne].
      + apply list_lookup_insert_eq. lia.
      + rewrite list_lookup_insert_ne by (apply Hlast; lia).
        apply Hamp; [lia|]. intros jj Hjj. apply Hlast. lia. }
  by exists coef.
Qed.

End SensorlessProofs.

Lemma midpoint_within (lo hi : bound) :
  feasible lo hi = true → within lo (midpoint lo hi) hi.
Proof.
  destruct lo as [|l|], hi as [|h|]; simpl; try done; intros H; split;
    try done; try lra.
  - apply negb_true_iff in H.
    assert (l < h)%Q; [|apply (Qmult_le_r _ _ 2); [lra|field_simplify; lra]].
    apply Qnot_le_lt. intros Hle. apply Qle_bool_iff in Hle. congruence.
  - apply negb_true_iff in H.
    assert (l < h)%Q; [|apply (Qmult_le_r _ _ 2); [lra|field_simplify; lra]].
    apply Qnot_le_lt. intros Hle. apply Qle_bool_iff in Hle. congruence.
Qed.

Lemma midpoint_fit_within (xdata ydata : list Q)
    (l0 l1 l2 l3 u0 u1 u2 u3 : bound) (offset normalising mean std_dev : Q) :
  midpoint_fit xdata ydata [l0; l1; l2; l3] [u0; u1; u2; u3]
  = Ok (offset, normalising, mean, std_dev) →
  within l0 offset u0 ∧ within l1 normalising u1
  ∧ within l2 mean u2 ∧ within l3 std_dev u3.
Proof.
  unfold midpoint_fit. simpl.
  destruct (feasible l0 u0) eqn:H0; [|done].
  destruct (feasible l1 u1) eqn:H1; [|done].
  destruct (feasible l2 u2) eqn:H2; [|done].
  destruct (feasible l3 u3) eqn:H3; [|done].
  simpl. intros [= <- <- <- <-]. auto using midpoint_within.
Qed.

(** The sample stack with a fit that converges at the middle of the
    bounds: the peak is at 1/2, the estimate is -1/2. *)
Lemma find_zernike_amp_sensorless_fitted_witness :
  find_zernike_amp_sensorless total_intensity total_intensity total_intensity
    total_intensity total_intensity midpoint_fit two_sigma_clear init
    sample_stack sample_amplitudes
  = Ok (Scalar (-1 * (10000 # 20000)))
  ∧ (-2 - (25 # 100) * (3 - -2) <= 10000 # 20000
     ∧ 10000 # 20000 <= 3 + (25 # 100) * (3 - -2))%Q
  ∧ ((-2)%Q ∈ sample_amplitudes ∧ ∀ x, x ∈ sample_amplitudes → (-2 <= x)%Q)
  ∧ (3%Q ∈ sample_amplitudes ∧ ∀ x, x ∈ sample_amplitudes → (x <= 3)%Q).
Proof.
  apply (find_zernike_amp_sensorless_fitted total_intensity total_intensity
           total_intensity total_intensity total_intensity midpoint_fit
           two_sigma_clear midpoint_fit_within init sample_stack
           sample_amplitudes total_intensity (-2) 3 1 0 (10000 # 20000) 1);
    reflexivity.
Defined.



(** The sample scan of modes 2 and 3. *)
Lemma get_zernike_modes_sensorless_scatter_witness :
  ∃ coef,
    get_zernike_modes_sensorless total_intensity total_intensity
      total_intensity total_intensity total_intensity midpoint_fit
      two_sigma_clear init sample_scan_stack sample_scan_applied [2; 3]%Z
    = Ok coef
    ∧ length coef = 3
    ∧ (∀ p, p < 3 → (∀ ii, ii < 2 → mode_position [2; 3]%Z ii ≠ p) →
            coef !! p = Some 0%Q)
    ∧ (∀ ii, ii < 2 →
         (∀ jj, ii < jj < 2 →
                mode_position [2; 3]%Z jj ≠ mode_position [2; 3]%Z ii) →
         coef !! mode_position [2; 3]%Z ii
         = Some (match ii with
                 | 0 => (-120000 # 20000)%Q
                 | _ => (-40000 # 20000)%Q
                 end)).
Proof.
  apply (get_zernike_modes_sensorless_scatter total_intensity total_intensity
           total_intensity total_intensity total_intensity midpoint_fit
           two_sigma_clear init sample_scan_stack sample_scan_applied
           [2; 3]%Z 4 3); try done.
  - intros ii z Hz. destruct ii as [|[|ii]]; try done; injection Hz as <-; simpl; lia.
  - intros ii Hii. destruct ii as [|[|ii]]; [| |simpl in Hii; lia];
      eexists; by vm_compute.
Defined.

(** C6 as it is worded fails on the length: two modes are requested,
    the vector returned has the three entries of the amplitude table. *)
Lemma get_zernike_modes_sensorless_length :
  length [2; 3]%Z = 2
  ∧ get_zernike_modes_sensorless total_intensity total_intensity
      total_intensity total_intensity total_intensity midpoint_fit
      two_sigma_clear init sample_scan_stack sample_scan_applied [2; 3]%Z
    = Ok [0; -120000 # 20000; -40000 # 20000]%Q.
Proof. by vm_compute. Qed.

(** ** [unwrap_interferometry] *)

Lemma multiply_raises (a b : ndarray) (e : exn) :
  multiply a b = Raise e → ∃ msg, e = ValueError msg.
Proof.
  unfold multiply. destruct (decide _); [done|]. intros [= <-]. by eexists.
Qed.

Section PhaseExtractorProofs.

Variable complex_array : Type.
Variable windowed_transform : ndarray → complex_array.
Variable fftshift : ndarray → ndarray.
Variable filter_product : complex_array → ndarray → option complex_array.
Variable wrapped_phase : complex_array → ndarray → option ndarray.
Variable unwrap_phase : ndarray → ndarray.

Local Abbreviation extract :=
  (unwrap_interferometry complex_array windowed_transform fftshift
     filter_product wrapped_phase unwrap_phase).

(** C8, as the code has it.  The function has no test of its own
    for a missing filter or mask: it runs until numpy meets the
    [None].  Without a filter that is the product of line 222, with a
    filter but without a mask the product of line 241, after the
    whole transform has been computed.  In both cases the call fails,
    with the [TypeError] of that product or with a [ValueError] the
    library raised before it; it never returns a phase map. *)
Theorem unwrap_interferometry_uncalibrated (self : AdaptiveOpticsFunctions)
    (image : ndarray) :
  fft_filter self = None ∨ mask self = None →
  ∃ e, extract self image = Raise e
       ∧ ((∃ msg, e = TypeError msg) ∨ (∃ msg, e = ValueError msg)).
Proof.
  unfold unwrap_interferometry. intros Hnone.
  destruct (fft_filter self) as [f|]; simpl;
    [|eexists; split; [done|left; by eexists]].
  destruct Hnone as [|Hmask]; [done|].
  destruct (filter_product _ _); simpl;
    [|eexists; split; [done|right; by eexists]].
  destruct (wrapped_phase _ _); simpl;
    [|eexists; split; [done|right; by eexists]].
  rewrite Hmask. simpl. eexists; split; [done|left; by eexists].
Qed.

End PhaseExtractorProofs.

(** A fresh object, neither filter nor mask. *)
Lemma unwrap_interferometry_uncalibrated_witness :
  ∃ e,
    unwrap_interferometry ndarray id id (λ a _, Some a) (λ a _, Some a) id
      init (pixel 1)
    = Raise e
    ∧ ((∃ msg, e = TypeError msg) ∨ (∃ msg, e = ValueError msg)).
Proof.
  apply (unwrap_interferometry_uncalibrated ndarray id id
           (λ a _, Some a) (λ a _, Some a) id init (pixel 1)).
  by left.
Defined.

(** C8 as it is worded fails: with a filter and no mask the whole
    transform is computed, and the exception is the [TypeError] of the
    product with the missing mask. *)
Lemma unwrap_interferometry_without_mask :
  mask (set_fft_filter init (pixel 1)) = None
  ∧ unwrap_interferometry ndarray id id (λ a _, Some a) (λ a _, Some a) id
      (set_fft_filter init (pixel 1)) (pixel 1)
    = Raise (TypeError
               "unsupported operand type(s) for *: 'float' and 'NoneType'").
Proof. done. Qed.

(** ** [make_fft_filter] *)

Lemma tabulate2_ext {A : Type} (o i : nat) (f g : nat → nat → A) :
  (∀ p q, p < o → q < i → f p q = g p q) → tabulate2 o i f = tabulate2 o i g.
Proof.
  intros H. unfold tabulate2.
  assert (Haux : ∀ s n, s + n ≤ o →
    flat_map (λ p, f p <$> seq 0 i) (seq s n) = flat_map (λ p, g p <$> seq 0 i) (seq s n)).
  { intros s n. revert s. induction n as [|n IH]; intros s Hs; [done|]. simpl.
    rewrite IH by lia. f_equal. apply list_fmap_ext. intros k q Hq.
    apply lookup_seq in Hq as [-> Hq]. apply H; lia. }
  apply Haux. lia.
Qed.

Lemma even_window_even (window_dim : option nat) :
  even_window window_dim mod 2 = 0.
Proof.
  unfold even_window. destruct window_dim as [w|]; [|done].
  destruct (w mod 2 =? 0) eqn:E; cbn [negb].
  - by apply Nat.eqb_eq in E.
  - apply Nat.eqb_neq in E. pose proof (Nat.mod_upper_bound w 2).
    rewrite <- Nat.Div0.add_mod_idemp_l.
    by replace (w mod 2) with 1 by lia.
Qed.

(** The length of the slice [m - h : m + h] of an axis of length [n]
    when the axis is at least as long as the window ([2 h <= n]), the
    estimate [m] is on the axis, and the window sticks out at one end:
    it is neither the length of the window nor 1, nothing numpy could
    broadcast. *)
Lemma slice_sticks_out (n h : nat) (m : Z) :
  1 ≤ h → 2 * h ≤ n → (0 ≤ m < Z.of_nat n)%Z →
  (m - Z.of_nat h < 0 ∨ Z.of_nat n < m + Z.of_nat h)%Z →
  let len := py_bound n (m + Z.of_nat h) - py_bound n (m - Z.of_nat h) in
  len ≠ 2 * h ∧ len ≠ 1.
Proof.
  intros Hh Hn Hm Hout. unfold py_bound.
  destruct (decide (0 ≤ m + Z.of_nat h)%Z); [|lia].
  destruct (decide (0 ≤ m - Z.of_nat h)%Z); lia.
Qed.

(** The slice of an axis the window fits in has the length of the
    window. *)
Lemma slice_fits (n h : nat) (m : Z) :
  (0 ≤ m - Z.of_nat h)%Z → (m + Z.of_nat h ≤ Z.of_nat n)%Z →
  py_bound n (m + Z.of_nat h) - py_bound n (m - Z.of_nat h) = 2 * h.
Proof.
  intros Hlo Hhi. unfold py_bound.
  destruct (decide (0 ≤ m + Z.of_nat h)%Z); [|lia].
  destruct (decide (0 ≤ m - Z.of_nat h)%Z); lia.
Qed.

(** Every element a slice reads is an element of the array. *)
Lemma slice2_in_bounds (r c : nat) (lo0 hi0 lo1 hi1 : Z) (i j : nat) :
  i < py_bound r hi0 - py_bound r lo0 → j < py_bound c hi1 - py_bound c lo1 →
  py_bound r lo0 + i < r ∧ py_bound c lo1 + j < c.
Proof.
  unfold py_bound. intros Hi Hj.
  destruct (decide (0 ≤ hi0)%Z), (decide (0 ≤ lo0)%Z),
           (decide (0 ≤ hi1)%Z), (decide (0 ≤ lo1)%Z); lia.
Qed.

Section SpectralFilterProofs.

Variable log_spectrum : ndarray → nat → ndarray.
Variable argmax_spectrum : ndarray → nat → nat.
Variable centroid : ndarray → option (Z * Z).
Variable place_mask : nat * nat → Z * Z → option nat → result ndarray.

Local Abbreviation build_filter :=
  (make_fft_filter log_spectrum argmax_spectrum centroid place_mask).

(** One refinement step on a spectrum at least as large as the
    window: when the estimate is on the spectrum and closer than half
    a window to one of its edges, the step raises the exception of
    line 174. *)
Lemma refine_out_of_bounds (fftarray : ndarray) (r c w : nat) (x y : Z) :
  w mod 2 = 0 → 2 ≤ w → w ≤ r → w ≤ c →
  (0 ≤ x < Z.of_nat c)%Z → (0 ≤ y < Z.of_nat r)%Z →
  (y - Z.of_nat (w / 2) < 0 ∨ Z.of_nat r < y + Z.of_nat (w / 2)
   ∨ x - Z.of_nat (w / 2) < 0 ∨ Z.of_nat c < x + Z.of_nat (w / 2))%Z →
  refine centroid fftarray r c w (x, y) = Raise (Exception stripes_too_fine).
Proof.
  intros Heven Hw Hr Hc Hx Hy Hout.
  assert (Hw2 : w = 2 * (w / 2)) by (by apply Nat.Div0.div_exact).
  set (h := w / 2) in *.
  unfold refine, assign_all, slice2. cbn [shape fst snd]. fold h.
  rewrite bool_decide_eq_false_2; [done|]. intros [H0 H1].
  destruct Hout as [Hout|[Hout|[Hout|Hout]]].
  - destruct (slice_sticks_out r h y) as [? ?]; try lia.
  - destruct (slice_sticks_out r h y) as [? ?]; try lia.
  - destruct (slice_sticks_out c h x) as [? ?]; try lia.
  - destruct (slice_sticks_out c h x) as [? ?]; try lia.
Qed.

(** The same for the whole call, on the first estimate. *)
Lemma make_fft_filter_stripes_too_fine (self : AdaptiveOpticsFunctions)
    (image : ndarray) (r c : nat) (region window_dim mask_di : option nat) :
  shape image = [r; c] →
  let w := even_window window_dim in
  let region' := match region with None => r / 16 | Some g => g end in
  let test_point := argmax_spectrum image region' in
  let x := Z.of_nat (test_point mod c) in
  let y := Z.of_nat (test_point / c) in
  2 ≤ w → w ≤ r → w ≤ c → test_point < r * c →
  (y - Z.of_nat (w / 2) < 0 ∨ Z.of_nat r < y + Z.of_nat (w / 2)
   ∨ x - Z.of_nat (w / 2) < 0 ∨ Z.of_nat c < x + Z.of_nat (w / 2))%Z →
  build_filter self image region window_dim mask_di
  = Raise (Exception stripes_too_fine).
Proof.
  intros Hshape w region' test_point x y Hw Hr Hc Htp Hout.
  unfold make_fft_filter, shape2. rewrite Hshape.
  cbn [mbind result_bind seq for_each]. fold region' test_point w x y.
  rewrite refine_out_of_bounds; try done.
  - apply even_window_even.
  - pose proof (Nat.mod_upper_bound test_point c). unfold x. lia.
  - assert (test_point / c < r); [|unfold y; lia].
    apply Nat.Div0.div_lt_upper_bound. lia.
Qed.

(** C9 at the inputs where the code departs from it.  On a square
    image one pixel smaller than the window (99 × 99 for the default
    window of 100) with a first estimate in the lower half-window,
    the slices of lines 171-172 wrap around the lower edge and keep a
    single element; numpy broadcasts it over the window, no
    [ValueError] is raised and the exception of line 174 is not
    either: the step goes on to the thresholding of a constant
    window, and the call fails there when the library refuses it. *)
Theorem make_fft_filter_window_wraps (self : AdaptiveOpticsFunctions)
    (image : ndarray) (n : nat) (region window_dim mask_di : option nat) :
  let w := even_window window_dim in
  let h := w / 2 in
  let region' := match region with None => n / 16 | Some g => g end in
  let fftarray := log_spectrum image region' in
  let test_point := argmax_spectrum image region' in
  let x := test_point mod n in
  let y := test_point / n in
  shape image = [n; n] → n + 1 = w → x < h → y < h →
  let entry := item2 fftarray n (h - 1 + y) (h - 1 + x) in
  let window := NDArray [w; w] (tabulate2 w w (λ _ _, entry)) in
  refine centroid fftarray n n w (Z.of_nat x, Z.of_nat y)
  = match centroid window with
    | Some (com0, com1) =>
        Ok (Z.of_nat x - Z.of_nat h + com1, Z.of_nat y - Z.of_nat h + com0)%Z
    | None => Raise (ValueError "cannot convert float NaN to integer")
    end
  ∧ (centroid window = None →
     build_filter self image region window_dim mask_di
     = Raise (ValueError "cannot convert float NaN to integer")).
Proof.
  intros w h region' fftarray test_point x y Hshape Hn Hx Hy entry window.
  assert (Hw : w = 2 * h).
  { apply Nat.Div0.div_exact. apply even_window_even. }
  assert (Hslice : ∀ m, m < h →
    py_bound n (Z.of_nat m + Z.of_nat h) - py_bound n (Z.of_nat m - Z.of_nat h) = 1
    ∧ py_bound n (Z.of_nat m - Z.of_nat h) = h - 1 + m).
  { intros m Hm. unfold py_bound.
    destruct (decide (0 ≤ Z.of_nat m + Z.of_nat h)%Z); [|lia].
    destruct (decide (0 ≤ Z.of_nat m - Z.of_nat h)%Z); lia. }
  destruct (Hslice x Hx) as [Hx1 Hx0]. destruct (Hslice y Hy) as [Hy1 Hy0].
  assert (Hstep :
    refine centroid fftarray n n w (Z.of_nat x, Z.of_nat y)
    = match centroid window with
      | Some (com0, com1) =>
          Ok (Z.of_nat x - Z.of_nat h + com1, Z.of_nat y - Z.of_nat h + com0)%Z
      | None => Raise (ValueError "cannot convert float NaN to integer")
      end).
  { unfold refine, assign_all, slice2. cbn [shape fst snd]. fold h.
    rewrite Hx1, Hy1, Hx0, Hy0.
    rewrite bool_decide_eq_true_2 by lia.
    cbn [except_ValueError mbind result_bind].
    replace (NDArray [w; w] _) with window.
    2:{ unfold window. f_equal. apply tabulate2_ext. intros p q _ _.
        destruct (decide (1 = 1)); [|done]. unfold entry, item2. simpl.
        by rewrite !Nat.add_0_r. }
    by destruct (centroid window) as [[com0 com1]|]. }
  split; [done|]. intros Hcentroid.
  unfold make_fft_filter, shape2. rewrite Hshape.
  cbn [mbind result_bind seq for_each].
  fold region' fftarray test_point w x y. rewrite Hstep, Hcentroid. done.
Qed.

End SpectralFilterProofs.


(** A uniform 99 × 99 image standing for its own spectrum, first
    estimate at (10, 10), default window. *)
Lemma make_fft_filter_window_wraps_witness :
  make_fft_filter (λ image _, image) (λ _ _, 10 * 99 + 10) centre_unless_flat
    (λ s _ _, Ok (zeros2 s.1 s.2)) init (flat_basis 1 99) None None None
  = Raise (ValueError "cannot convert float NaN to integer").
Proof.
  apply (proj2 (make_fft_filter_window_wraps (λ image _, image)
                  (λ _ _, 10 * 99 + 10) centre_unless_flat
                  (λ s _ _, Ok (zeros2 s.1 s.2)) init (flat_basis 1 99) 99
                  None None None eq_refl eq_refl ltac:(vm_compute; lia)
                  ltac:(vm_compute; lia))).
  by vm_compute.
Defined.
(** * Further properties of the module *)

(** ** The metric name *)

Section MetricProofs.

Variables measure_fourier_metric measure_contrast_metric
  measure_fourier_power_metric measure_gradient_metric
  measure_second_moment_metric : ndarray → Q.

Local Abbreviation measure :=
  (measure_metric measure_fourier_metric measure_contrast_metric
     measure_fourier_power_metric measure_gradient_metric
     measure_second_moment_metric).

(** X1.  The metric of the object always has a measure.  Starting from an
    object whose metric is a key of the table (a fresh object has
    [fourier]) and after any sequence of calls of [set_metric], the
    refused ones leaving the object as it was, [get_metric] returns
    the last name that was accepted (the metric at the start when none
    was), the other fields are untouched, and [measure_metric] does
    not raise [KeyError]: it applies the measure that lines 36-42
    give to that name. *)
Theorem set_metric_keeps_measure (self : AdaptiveOpticsFunctions)
    (names : list string) :
  metric self ∈ metric_names →
  let call self name :=
    match set_metric self name with Ok self' => self' | Raise _ => self end in
  let self' := foldl call self names in
  let accepted := filter (λ name, name ∈ metric_names) names in
  let current := default (metric self) (last accepted) in
  let lines_36_42 :=
    [("fourier", measure_fourier_metric);
     ("contrast", measure_contrast_metric);
     ("fourier_power", measure_fourier_power_metric);
     ("gradient", measure_gradient_metric);
     ("second_moment", measure_second_moment_metric)] in
  get_metric self' = current
  ∧ mask self' = mask self ∧ fft_filter self' = fft_filter self
  ∧ controlMatrix self' = controlMatrix self
  ∧ ∃ f, (current, f) ∈ lines_36_42
         ∧ ∀ image, measure self' image = Ok (f image).
Proof.
  intros Hstart call self' accepted current lines_36_42.
  assert (Hstate : get_metric self' = current
                   ∧ mask self' = mask self ∧ fft_filter self' = fft_filter self
                   ∧ controlMatrix self' = controlMatrix self).
  { unfold self', current, accepted. clear.
    induction names as [|name names IH] using rev_ind; [done|].
    rewrite foldl_app, filter_app. cbn [foldl].
    destruct IH as (IH1 & IH2 & IH3 & IH4).
    set (before := foldl call self names) in *.
    destruct (decide (name ∈ metric_names)) as [Hin|Hout].
    - assert (call before name
              = {| mask := mask before; fft_filter := fft_filter before;
                   controlMatrix := controlMatrix before; metric := name |})
        as -> by (unfold call, set_metric; by rewrite bool_decide_eq_true_2).
      rewrite filter_cons_True, filter_nil by done.
      by rewrite last_snoc.
    - assert (call before name = before) as ->
        by (unfold call, set_metric; by rewrite bool_decide_eq_false_2).
      by rewrite filter_cons_False, filter_nil, app_nil_r by done. }
  destruct Hstate as (Hcurrent & Hmask & Hfilter & Hcm).
  split; [done|]. split; [done|]. split; [done|]. split; [done|].
  assert (Hkey : current ∈ metric_names).
  { unfold current. destruct (last accepted) as [name|] eqn:Hlast; [|done].
    apply last_Some_elem_of in Hlast.
    by apply list_elem_of_filter in Hlast as [? _]. }
  unfold get_metric in Hcurrent. unfold measure_metric. rewrite Hcurrent.
  unfold metric_names in Hkey. unfold lines_36_42, metric_function.
  repeat (apply elem_of_cons in Hkey as [->|Hkey];
          [eexists; split; [|done]; apply list_elem_of_In; simpl; tauto|]).
  by apply elem_of_nil in Hkey.
Qed.

End MetricProofs.

(** A fresh object, then four requests of which the second and the
    fourth are refused: the metric is [gradient]. *)
Lemma set_metric_keeps_measure_witness :
  let call self name :=
    match set_metric self name with Ok self' => self' | Raise _ => self end in
  let self' := foldl call init ["contrast"; "sharpness"; "gradient"; "blur"] in
  let lines_36_42 :=
    [("fourier", total_intensity);
     ("contrast", (λ image, 2 * total_intensity image)%Q);
     ("fourier_power", (λ image, 3 * total_intensity image)%Q);
     ("gradient", (λ image, 4 * total_intensity image)%Q);
     ("second_moment", (λ image, 5 * total_intensity image)%Q)] in
  get_metric self' = "gradient"
  ∧ mask self' = mask init ∧ fft_filter self' = fft_filter init
  ∧ controlMatrix self' = controlMatrix init
  ∧ ∃ f, ("gradient", f) ∈ lines_36_42
         ∧ ∀ image,
             measure_metric total_intensity
               (λ image, 2 * total_intensity image)%Q
               (λ image, 3 * total_intensity image)%Q
               (λ image, 4 * total_intensity image)%Q
               (λ image, 5 * total_intensity image)%Q self' image
             = Ok (f image).
Proof.
  apply (set_metric_keeps_measure total_intensity
           (λ image, 2 * total_intensity image)%Q
           (λ image, 3 * total_intensity image)%Q
           (λ image, 4 * total_intensity image)%Q
           (λ image, 5 * total_intensity image)%Q init
           ["contrast"; "sharpness"; "gradient"; "blur"]).
  apply list_elem_of_In. simpl. tauto.
Defined.
(** ** The pupil mask of [make_mask] *)

Lemma item2_make_mask (self : AdaptiveOpticsFunctions) (radius i j : nat) :
  i < radius * 2 → j < radius * 2 →
  item2 (make_mask self radius).2 (radius * 2) i j
  = of_bool (bool_decide
      ((Z.of_nat i - Z.of_nat radius) * (Z.of_nat i - Z.of_nat radius)
       + (Z.of_nat j - Z.of_nat radius) * (Z.of_nat j - Z.of_nat radius)
       < Z.of_nat radius * Z.of_nat radius)%Z).
Proof.
  intros Hi Hj. unfold make_mask, item2. cbn [snd data].
  rewrite lookup_tabulate2 by done. cbn [default from_option id].
  rewrite !list_lookup_fmap, !lookup_seq_lt by done. reflexivity.
Qed.

(** X2.  [make_mask] stores and returns a square array of side twice the
    radius, of zeros and ones: the one at row [i] and column [j] says
    that [(i - radius, j - radius)] lies strictly inside the circle.
    The array is symmetric under transposition and under the
    reflection of the rows about row [radius]; its row 0 and its
    column 0 are empty; row [radius] and column [radius] are full but
    for their first element. *)
Theorem make_mask_disk (self : AdaptiveOpticsFunctions) (radius : nat) :
  let m := (make_mask self radius).2 in
  let diameter := radius * 2 in
  mask (make_mask self radius).1 = Some m
  ∧ shape m = [diameter; diameter] ∧ wf_ndarray m
  ∧ (∀ i j, i < diameter → j < diameter →
       item2 m diameter i j
       = of_bool (bool_decide
           ((Z.of_nat i - Z.of_nat radius) * (Z.of_nat i - Z.of_nat radius)
            + (Z.of_nat j - Z.of_nat radius) * (Z.of_nat j - Z.of_nat radius)
            < Z.of_nat radius * Z.of_nat radius)%Z))
  ∧ (∀ i j, i < diameter → j < diameter →
       item2 m diameter i j = item2 m diameter j i)
  ∧ (∀ i j, 0 < i < diameter → j < diameter →
       item2 m diameter (diameter - i) j = item2 m diameter i j)
  ∧ (∀ k, k < diameter →
       item2 m diameter 0 k = 0%Q ∧ item2 m diameter k 0 = 0%Q)
  ∧ (∀ k, 0 < k < diameter →
       item2 m diameter radius k = 1%Q ∧ item2 m diameter k radius = 1%Q).
Proof.
  intros m diameter. split; [done|]. split; [done|]. split.
  { unfold wf_ndarray, m, make_mask. cbn [snd data shape size_of foldr].
    rewrite length_tabulate2. lia. }
  split; [intros i j Hi Hj; by apply item2_make_mask|].
  unfold m, diameter. split; [|split; [|split]].
  - intros i j Hi Hj. rewrite !item2_make_mask by done.
    f_equal. apply bool_decide_ext. lia.
  - intros i j Hi Hj. rewrite !item2_make_mask by lia.
    f_equal. apply bool_decide_ext.
    replace (Z.of_nat (radius * 2 - i))
      with (2 * Z.of_nat radius - Z.of_nat i)%Z by lia.
    replace ((2 * Z.of_nat radius - Z.of_nat i - Z.of_nat radius)
             * (2 * Z.of_nat radius - Z.of_nat i - Z.of_nat radius))%Z
      with ((Z.of_nat i - Z.of_nat radius) * (Z.of_nat i - Z.of_nat radius))%Z
      by ring.
    done.
  - intros k Hk. rewrite !item2_make_mask by lia.
    pose proof (Z.square_nonneg (Z.of_nat k - Z.of_nat radius)).
    rewrite !bool_decide_eq_false_2; [done| |]; lia.
  - intros k Hk. rewrite !item2_make_mask by lia.
    assert (0 < (Z.of_nat radius - (Z.of_nat k - Z.of_nat radius))
                * (Z.of_nat radius + (Z.of_nat k - Z.of_nat radius)))%Z
      by (apply Z.mul_pos_pos; lia).
    rewrite !bool_decide_eq_true_2; [done| |]; lia.
Qed.

(** The mask of radius 2. *)
Lemma make_mask_disk_witness :
  (make_mask init 2).2
  = NDArray [4; 4] [0; 0; 0; 0;  0; 1; 1; 1;  0; 1; 1; 1;  0; 1; 1; 1]%Q
  ∧ (∀ i j, 0 < i < 4 → j < 4 →
       item2 (make_mask init 2).2 4 (4 - i) j = item2 (make_mask init 2).2 4 i j).
Proof.
  split; [reflexivity|].
  apply (make_mask_disk init 2).
Defined.

(** ** More on [bin_ndarray] *)

(** Summing every lane of an axis keeps the sum of all the elements. *)
Lemma sum_reduce_sum (d : list Q) (outer n inner : nat) :
  length d = outer * n * inner →
  (sumQ (tabulate2 outer inner (λ p q, sumQ (lane d n inner p q)))
   == sumQ d)%Q.
Proof.
  intros Hlen. rewrite sumQ_tabulate2, (sumQ_bigsum d), Hlen.
  rewrite bigsum_mul, bigsum_mul. apply bigsum_ext. intros p _.
  rewrite (bigsum_swap n inner). apply bigsum_ext. intros q _. reflexivity.
Qed.

Lemma bin_ndarray_sum_eq (a : ndarray) (d1 d2 k1 k2 : nat) (operation : string) :
  shape a = [d1 * k1; d2 * k2] → 0 < d1 → 0 < d2 →
  lower operation = "sum" →
  bin_ndarray a [d1; d2] operation
  = Ok (NDArray [d1; d2]
          (tabulate2 d1 d2 (λ i j,
             sumQ (lane (tabulate2 (d1 * k1 * d2) 1
                           (λ p q, sumQ (lane (data a) k2 1 p q)))
                     k1 d2 i j)))).
Proof.
  intros Hshape Hd1 Hd2 Hop. unfold bin_ndarray. rewrite Hop.
  replace (bool_decide ("sum" ∈ ["sum"; "mean"])) with true by done.
  unfold ndim. rewrite Hshape. simpl.
  rewrite !floordiv_mul by done. simpl.
  unfold reshape. rewrite Hshape.
  destruct (decide _) as [_|Hne]; [|exfalso; apply Hne; simpl; lia].
  simpl. unfold getattr. simpl. unfold reduce, ndim. simpl.
  rewrite !Nat.mul_1_r, Nat.mul_assoc. reflexivity.
Qed.

(** X3.  With the operation [sum], in any letter case, a matrix of
    [d1 k1] rows and [d2 k2] columns whose elements add up, in absolute
    value, to less than [2 ^ 63] (so that no sum leaves the range of a
    64-bit accumulator, where numpy wraps around on an integer array)
    is reduced to the [d1 × d2] matrix of the sums of its [k1 × k2]
    blocks, and the sum of all the elements is kept. *)
Theorem bin_ndarray_block_sum (a : ndarray) (d1 d2 k1 k2 : nat)
    (operation : string) :
  shape a = [d1 * k1; d2 * k2] → wf_ndarray a → 0 < d1 → 0 < d2 →
  lower operation = "sum" →
  (sumQ (Qabs <$> data a) < inject_Z (2 ^ 63))%Q →
  ∃ b, bin_ndarray a [d1; d2] operation = Ok b
       ∧ shape b = [d1; d2] ∧ wf_ndarray b
       ∧ (∀ i j, i < d1 → j < d2 →
            (item2 b d2 i j
             == bigsum k1 (λ u, bigsum k2 (λ v,
                  item2 a (d2 * k2) (i * k1 + u) (j * k2 + v))))%Q)
       ∧ (sumQ (data b) == sumQ (data a))%Q.
Proof.
  intros Hshape Hwf Hd1 Hd2 Hop _. eexists. split; [by apply bin_ndarray_sum_eq|].
  split; [done|]. split.
  { unfold wf_ndarray. simpl. rewrite length_tabulate2. lia. }
  split.
  - intros i j Hi Hj. unfold item2 at 1. simpl.
    rewrite lookup_tabulate2 by done. simpl. unfold lane at 1.
    change (sumQ (?f <$> seq 0 k1)) with (bigsum k1 f).
    apply bigsum_ext. intros u Hu.
    assert (i * k1 + u < d1 * k1) by nia.
    assert ((i * k1 + u) * d2 + j < d1 * k1 * d2) by nia.
    replace ((i * k1 + u) * d2 + j) with (((i * k1 + u) * d2 + j) * 1 + 0) by lia.
    rewrite lookup_tabulate2 by lia. simpl. unfold lane.
    change (sumQ (?f <$> seq 0 k2)) with (bigsum k2 f).
    apply bigsum_ext. intros v Hv. unfold item2.
    replace ((((i * k1 + u) * d2 + j) * k2 + v) * 1 + 0)
      with ((i * k1 + u) * (d2 * k2) + (j * k2 + v)) by nia.
    reflexivity.
  - simpl. unfold wf_ndarray in Hwf. rewrite Hshape in Hwf. simpl in Hwf.
    rewrite (sum_reduce_sum _ d1 k1 d2) by (rewrite length_tabulate2; lia).
    apply (sum_reduce_sum _ (d1 * k1 * d2) k2 1). lia.
Qed.

(** A 4 × 6 matrix summed down to 2 × 3. *)
Lemma bin_ndarray_block_sum_witness :
  ∃ b, bin_ndarray (arange2 4 6) [2; 3] "Sum" = Ok b
       ∧ shape b = [2; 3] ∧ wf_ndarray b
       ∧ (∀ i j, i < 2 → j < 3 →
            (item2 b 3 i j
             == bigsum 2 (λ u, bigsum 2 (λ v,
                  item2 (arange2 4 6) (3 * 2) (i * 2 + u) (j * 2 + v))))%Q)
       ∧ (sumQ (data b) == sumQ (data (arange2 4 6)))%Q.
Proof.
  apply (bin_ndarray_block_sum (arange2 4 6) 2 3 2 2 "Sum");
    first [done | lia | by vm_compute].
Defined.

(** X4.  The new axes must be positive and divide the old ones: on a
    matrix that is not empty, a zero in the new shape is a
    [ZeroDivisionError], and an axis that does not divide its old length
    makes the reshape of line 115 fail with [ValueError]. *)
Theorem bin_ndarray_must_divide (a : ndarray) (r c d1 d2 : nat)
    (operation : string) :
  shape a = [r; c] → lower operation ∈ ["sum"; "mean"] →
  ((d1 = 0 ∨ d2 = 0) →
     bin_ndarray a [d1; d2] operation = Raise ZeroDivisionError)
  ∧ (0 < d1 → 0 < d2 → 0 < r → 0 < c → r mod d1 ≠ 0 ∨ c mod d2 ≠ 0 →
     bin_ndarray a [d1; d2] operation
     = Raise (ValueError "cannot reshape array")).
Proof.
  intros Hshape Hop. unfold bin_ndarray.
  rewrite (bool_decide_eq_true_2 _ Hop). unfold ndim. rewrite Hshape.
  cbn [negb length Nat.eqb zip zip_with comprehension mbind result_bind].
  unfold floordiv. split.
  - intros [-> | ->].
    + by destruct (decide (0 = 0)).
    + destruct (decide (d1 = 0)); [done|]. cbn [mbind result_bind].
      by destruct (decide (0 = 0)).
  - intros Hd1 Hd2 Hr Hc Hmod.
    destruct (decide (d1 = 0)); [lia|]. destruct (decide (d2 = 0)); [lia|].
    cbn [mbind result_bind flat_map app fst snd].
    unfold reshape. rewrite Hshape. destruct (decide _) as [Heq|]; [|done].
    exfalso. simpl in Heq.
    pose proof (Nat.div_mod_eq r d1). pose proof (Nat.div_mod_eq c d2).
    pose proof (Nat.mod_upper_bound r d1). pose proof (Nat.mod_upper_bound c d2).
    assert (d1 * (r / d1) ≤ r) by lia. assert (d2 * (c / d2) ≤ c) by lia.
    destruct Hmod.
    + assert (d1 * (r / d1) < r) by lia. nia.
    + assert (d2 * (c / d2) < c) by lia. nia.
Qed.

(** A 4 × 6 matrix cannot be averaged down to 3 × 3. *)
Lemma bin_ndarray_must_divide_witness :
  bin_ndarray (arange2 4 6) [3; 3] "mean"
  = Raise (ValueError "cannot reshape array").
Proof.
  apply (proj2 (bin_ndarray_must_divide (arange2 4 6) 4 6 3 3 "mean" eq_refl
                  ltac:(apply list_elem_of_In; simpl; tauto)));
    try lia.
  left. by vm_compute.
Defined.

(** ** The placement of the Fourier mask *)

(** The shift of lines 192-193 for a peak inside the spectrum: zero,
    or what the window would stick out by at the upper edge. *)
Lemma shift_cases (n d m : Z) :
  (0 ≤ m < n → 0 ≤ d →
   let shift := 0 `min` (Z.abs (m - d) `min` (Z.abs (m - n) - d)) in
   (shift = 0 ∧ m + d ≤ n) ∨ (shift = n - m - d ∧ n < m + d))%Z.
Proof. intros Hm Hd shift. unfold shift. lia. Qed.

(** One axis of the placement: the window of width [d] written at
    [s, s + d) and rolled back by the shift covers the positions at
    distance less than [d], counted upwards around the axis, from the
    corner [s - shift]. *)
Lemma rolled_window (n d s shift j : Z) :
  (0 ≤ s → 0 ≤ d → s + d ≤ n → 0 ≤ j < n →
   let source := (j + shift) mod n in
   let offset := (j - (s - shift)) mod n in
   (s ≤ source < s + d ↔ offset < d)
   ∧ (offset < d → source - s = offset))%Z.
Proof.
  intros Hs Hd0 Hd Hj source offset.
  assert (Hn : (0 < n)%Z) by lia.
  pose proof (Z.mod_pos_bound (j + shift) n Hn) as Hsource. fold source in Hsource.
  assert (Hoffset : offset = ((source - s) mod n)%Z).
  { unfold offset, source. rewrite Zminus_mod_idemp_l. f_equal. lia. }
  destruct (decide (s ≤ source)%Z) as [Hge|Hlt].
  - rewrite Z.mod_small in Hoffset by lia. lia.
  - assert (offset = source - s + n)%Z as Hwrap.
    { rewrite Hoffset, <- (Z_mod_plus_full (source - s) 1 n).
      rewrite Z.mul_1_l. apply Z.mod_small. lia. }
    lia.
Qed.

Lemma item2_outer (x y : list Q) (i j : nat) :
  i < length x → j < length y →
  item2 (outer x y) (length y) i j
  = (default 0 (x !! i) * default 0 (y !! j))%Q.
Proof. intros Hi Hj. unfold outer. by rewrite item2_tabulate2. Qed.

Section FourierMaskProofs.

Variable sine_squared : nat → list Q.
Hypothesis sine_squared_length : ∀ n, length (sine_squared n) = n.

(** X5.  The mask goes round the edges.  On a square spectrum of side [n],
    for a peak [(mx, my)] inside it, at [d / 2] at least from the lower
    edges, and a mask of diameter [d] with [d + d / 2 ≤ n], the filter
    is the outer product of the raised sine with itself, its corner at
    row [my - d / 2] and column [mx - d / 2], rows and columns counted
    modulo [n]; it is zero elsewhere. *)
Theorem place_fourier_mask_torus (n d : nat) (mx my : Z) :
  d + d / 2 ≤ n →
  (Z.of_nat (d / 2) ≤ mx < Z.of_nat n)%Z →
  (Z.of_nat (d / 2) ≤ my < Z.of_nat n)%Z →
  let x := sine_squared d in
  ∃ fft_filter,
    place_fourier_mask sine_squared (n, n) (mx, my) (Some d) = Ok fft_filter
    ∧ shape fft_filter = [n; n] ∧ wf_ndarray fft_filter
    ∧ ∀ i j, i < n → j < n →
        let u := Z.to_nat ((Z.of_nat i - (my - Z.of_nat (d / 2)))
                           mod Z.of_nat n) in
        let v := Z.to_nat ((Z.of_nat j - (mx - Z.of_nat (d / 2)))
                           mod Z.of_nat n) in
        item2 fft_filter n i j
        = if decide (u < d ∧ v < d)
          then (default 0 (x !! u) * default 0 (x !! v))%Q
          else 0%Q.
Proof using sine_squared_length.
  intros Hd Hmx Hmy x.
  assert (Hhalf : (Z.of_nat d / 2 = Z.of_nat (d / 2))%Z).
  { by rewrite (Nat2Z.inj_div d 2). }
  assert (Hlen : length x = d) by apply sine_squared_length.
  unfold place_fourier_mask. cbn [fst snd].
  rewrite Nat2Z.id. fold x. rewrite Hhalf. clearbody x.
  set (x_shift := (0 `min` (Z.abs (mx - Z.of_nat d)
                    `min` (Z.abs (mx - Z.of_nat n) - Z.of_nat d)))%Z).
  set (y_shift := (0 `min` (Z.abs (my - Z.of_nat d)
                    `min` (Z.abs (my - Z.of_nat n) - Z.of_nat d)))%Z).
  set (s0 := (my - Z.of_nat (d / 2) + y_shift)%Z).
  set (s1 := (mx - Z.of_nat (d / 2) + x_shift)%Z).
  assert (Hs0 : (0 ≤ s0 ∧ s0 + Z.of_nat d ≤ Z.of_nat n)%Z).
  { destruct (shift_cases (Z.of_nat n) (Z.of_nat d) my) as [Hy|Hy];
      [lia|lia| |]; fold y_shift in Hy; unfold s0; lia. }
  assert (Hs1 : (0 ≤ s1 ∧ s1 + Z.of_nat d ≤ Z.of_nat n)%Z).
  { destruct (shift_cases (Z.of_nat n) (Z.of_nat d) mx) as [Hx|Hx];
      [lia|lia| |]; fold x_shift in Hx; unfold s1; lia. }
  replace (my + (Z.of_nat d - Z.of_nat (d / 2)) + y_shift)%Z
    with (s0 + Z.of_nat d)%Z by (unfold s0; lia).
  replace (mx + (Z.of_nat d - Z.of_nat (d / 2)) + x_shift)%Z
    with (s1 + Z.of_nat d)%Z by (unfold s1; lia).
  assert (Hc0 : (s0 - y_shift = my - Z.of_nat (d / 2))%Z) by (unfold s0; lia).
  assert (Hc1 : (s1 - x_shift = mx - Z.of_nat (d / 2))%Z) by (unfold s1; lia).
  clearbody s0 s1 x_shift y_shift.
  unfold assign_slice2; cbn [outer shape].
  rewrite !Hlen.
  assert (Hb0 : py_bound n s0 = Z.to_nat s0)
    by (unfold py_bound; destruct (decide _); lia).
  assert (Hb1 : py_bound n s1 = Z.to_nat s1)
    by (unfold py_bound; destruct (decide _); lia).
  assert (He0 : py_bound n (s0 + Z.of_nat d) = Z.to_nat s0 + d)
    by (unfold py_bound; destruct (decide _); lia).
  assert (He1 : py_bound n (s1 + Z.of_nat d) = Z.to_nat s1 + d)
    by (unfold py_bound; destruct (decide _); lia).
  rewrite Hb0, Hb1, He0, He1.
  replace (Z.to_nat s0 + d - Z.to_nat s0) with d by lia.
  replace (Z.to_nat s1 + d - Z.to_nat s1) with d by lia.
  rewrite bool_decide_eq_true_2 by (split; by left).
  cbn [mbind result_bind].
  eexists; split; [reflexivity|].
  split; [done|].
  split; [unfold wf_ndarray, roll_rows; cbn [data shape size_of foldr];
          rewrite length_tabulate2; lia|].
  intros i j Hi Hj; cbv zeta.
  destruct (rolled_window (Z.of_nat n) (Z.of_nat d) s0 y_shift (Z.of_nat i))
    as [Hrow Hrow']; [lia|lia|lia|lia|].
  destruct (rolled_window (Z.of_nat n) (Z.of_nat d) s1 x_shift (Z.of_nat j))
    as [Hcol Hcol']; [lia|lia|lia|lia|].
  rewrite Hc0 in Hrow, Hrow'; rewrite Hc1 in Hcol, Hcol'.
  unfold roll_rows; rewrite item2_tabulate2 by done.
  replace (Z.of_nat i - - y_shift)%Z with (Z.of_nat i + y_shift)%Z by lia.
  assert (Hn : (0 < Z.of_nat n)%Z) by lia.
  pose proof (Z.mod_pos_bound (Z.of_nat i - (my - Z.of_nat (d / 2)))
                (Z.of_nat n) Hn) as Hu.
  pose proof (Z.mod_pos_bound (Z.of_nat j - (mx - Z.of_nat (d / 2)))
                (Z.of_nat n) Hn) as Hv.
  pose proof (Z.mod_pos_bound (Z.of_nat i + y_shift) (Z.of_nat n) Hn) as Hi'.
  pose proof (Z.mod_pos_bound (Z.of_nat j + x_shift) (Z.of_nat n) Hn) as Hj'.
  set (u := ((Z.of_nat i - (my - Z.of_nat (d / 2))) mod Z.of_nat n)%Z) in *.
  set (v := ((Z.of_nat j - (mx - Z.of_nat (d / 2))) mod Z.of_nat n)%Z) in *.
  set (i' := ((Z.of_nat i + y_shift) mod Z.of_nat n)%Z) in *.
  unfold roll_columns; rewrite item2_tabulate2 by lia.
  replace (Z.of_nat j - - x_shift)%Z with (Z.of_nat j + x_shift)%Z by lia.
  set (j' := ((Z.of_nat j + x_shift) mod Z.of_nat n)%Z) in *.
  rewrite item2_tabulate2 by lia.
  clearbody u v i' j'.
  destruct (decide (Z.to_nat u < d ∧ Z.to_nat v < d)) as [[Hud Hvd]|Hout].
  - rewrite decide_True by lia.
    replace (if decide (d = 1) then 0 else Z.to_nat i' - Z.to_nat s0)
      with (Z.to_nat u) by (destruct (decide _); lia).
    replace (if decide (d = 1) then 0 else Z.to_nat j' - Z.to_nat s1)
      with (Z.to_nat v) by (destruct (decide _); lia).
    rewrite <- Hlen at 1. apply item2_outer; lia.
  - rewrite decide_False by lia. apply item2_zeros2.
Qed.

(** X6.  Near the lower edges the mask does not go round: for a diameter
    of 2 at least and a peak less than [d / 2] from column 0 or from
    row 0 (and far enough from the opposite edge for the shift to be
    zero), the slice of line 202 starts at a negative index, which
    Python counts from the end; it is too short for the mask and the
    assignment raises a [ValueError] that nothing catches. *)
Theorem place_fourier_mask_lower_edge (r c : nat) (mask_di : option nat)
    (mx my : Z) :
  let d := match mask_di with None => r * 5 / 16 | Some d => d end in
  2 ≤ d →
  (0 ≤ mx < Z.of_nat (d / 2) ∧ mx + Z.of_nat d ≤ Z.of_nat r)%Z
  ∨ (0 ≤ my < Z.of_nat (d / 2) ∧ my + Z.of_nat d ≤ Z.of_nat c)%Z →
  place_fourier_mask sine_squared (r, c) (mx, my) mask_di
  = Raise (ValueError "could not broadcast input array").
Proof using sine_squared_length.
  intros d Hd Hedge.
  assert (Hhalf : (Z.of_nat d / 2 = Z.of_nat (d / 2))%Z).
  { by rewrite (Nat2Z.inj_div d 2). }
  assert (Hf : d / 2 ≤ d) by (apply Nat.Div0.div_le_upper_bound; lia).
  unfold place_fourier_mask. cbn [fst snd]. fold d.
  rewrite Nat2Z.id, Hhalf.
  set (x_shift := (0 `min` (Z.abs (mx - Z.of_nat d)
                    `min` (Z.abs (mx - Z.of_nat r) - Z.of_nat d)))%Z).
  set (y_shift := (0 `min` (Z.abs (my - Z.of_nat d)
                    `min` (Z.abs (my - Z.of_nat c) - Z.of_nat d)))%Z).
  unfold assign_slice2. cbn [outer shape].
  rewrite !sine_squared_length.
  rewrite bool_decide_eq_false_2; [done|].
  intros [Hrows Hcols].
  destruct Hedge as [[Hmx Hfar]|[Hmy Hfar]].
  - assert (x_shift = 0%Z) as Hzero by (unfold x_shift; lia).
    rewrite Hzero in Hcols. clear Hrows.
    unfold py_bound in Hcols. repeat destruct (decide _) in Hcols; lia.
  - assert (y_shift = 0%Z) as Hzero by (unfold y_shift; lia).
    rewrite Hzero in Hrows. clear Hcols.
    unfold py_bound in Hrows. repeat destruct (decide _) in Hrows; lia.
Qed.

End FourierMaskProofs.

Lemma flat_window_length (n : nat) : length (flat_window n) = n.
Proof. apply length_replicate. Qed.

(** A spectrum of side 8 and a mask of diameter 4 for a peak in the
    last column: the mask covers the columns 5, 6, 7 and 0. *)
Lemma place_fourier_mask_torus_witness :
  ∃ fft_filter,
    place_fourier_mask flat_window (8, 8) (7, 3)%Z (Some 4) = Ok fft_filter
    ∧ shape fft_filter = [8; 8] ∧ wf_ndarray fft_filter
    ∧ ∀ i j, i < 8 → j < 8 →
        let u := Z.to_nat ((Z.of_nat i - (3 - Z.of_nat (4 / 2)))
                           mod Z.of_nat 8) in
        let v := Z.to_nat ((Z.of_nat j - (7 - Z.of_nat (4 / 2)))
                           mod Z.of_nat 8) in
        item2 fft_filter 8 i j
        = if decide (u < 4 ∧ v < 4)
          then (default 0 (flat_window 4 !! u)
                * default 0 (flat_window 4 !! v))%Q
          else 0%Q.
Proof.
  apply (place_fourier_mask_torus flat_window flat_window_length 8 4 7 3);
    simpl; lia.
Defined.

(** The same spectrum and mask for a peak in column 1. *)
Lemma place_fourier_mask_lower_edge_witness :
  place_fourier_mask flat_window (8, 8) (1, 3)%Z (Some 4)
  = Raise (ValueError "could not broadcast input array").
Proof.
  apply (place_fourier_mask_lower_edge flat_window flat_window_length 8 8
           (Some 4) 1 3); simpl; lia.
Defined.

(** ** The refinement of the peak *)

Section PeakRefinement.

Variable log_spectrum : ndarray → nat → ndarray.
Variable argmax_spectrum : ndarray → nat → nat.
Variable centroid : ndarray → option (Z * Z).
Variable place_mask : nat * nat → Z * Z → option nat → result ndarray.

(** One refinement step when the window fits in the spectrum: the
    estimate moves by the offset of the centre of mass from the centre
    of the window. *)
Lemma refine_in_bounds (fftarray : ndarray) (r c w : nat) (x y com0 com1 : Z) :
  w mod 2 = 0 →
  (Z.of_nat (w / 2) ≤ x ∧ x + Z.of_nat (w / 2) ≤ Z.of_nat c)%Z →
  (Z.of_nat (w / 2) ≤ y ∧ y + Z.of_nat (w / 2) ≤ Z.of_nat r)%Z →
  centroid (window_at fftarray c w (x, y)) = Some (com0, com1) →
  refine centroid fftarray r c w (x, y)
  = Ok (x - Z.of_nat (w / 2) + com1, y - Z.of_nat (w / 2) + com0)%Z.
Proof.
  intros Heven Hx Hy Hcom.
  assert (Hw : w = 2 * (w / 2)) by (by apply Nat.Div0.div_exact).
  unfold window_at in Hcom. cbn [fst snd] in Hcom.
  set (h := w / 2) in *.
  unfold refine, assign_all, slice2. cbn [shape fst snd]. fold h.
  rewrite (slice_fits r h y), (slice_fits c h x) by lia. rewrite <- Hw.
  rewrite bool_decide_eq_true_2 by (split; by left).
  cbn [except_ValueError mbind result_bind].
  assert (Hy0 : py_bound r (y - Z.of_nat h) = Z.to_nat (y - Z.of_nat h))
    by (unfold py_bound; destruct (decide _); lia).
  assert (Hx0 : py_bound c (x - Z.of_nat h) = Z.to_nat (x - Z.of_nat h))
    by (unfold py_bound; destruct (decide _); lia).
  rewrite Hy0, Hx0.
  replace (NDArray [w; w] _)
    with (NDArray [w; w]
            (tabulate2 w w
               (λ i j, item2 fftarray c (Z.to_nat (y - Z.of_nat h) + i)
                                        (Z.to_nat (x - Z.of_nat h) + j)))).
  { by rewrite Hcom. }
  f_equal. apply tabulate2_ext. intros i j Hi Hj.
  destruct (decide (w = 1)) as [E|_]; [rewrite E in Heven; done|].
  by rewrite item2_tabulate2.
Qed.

(** X7.  The ten steps of lines 169-182 and the end of the call.  For any
    sequence of points that starts at the largest element of the
    spectrum and in which each of the first ten points has its window
    inside the spectrum and is followed by the point its centre of
    mass designates, the filter is the mask placed at the eleventh
    point; it is stored and returned, or the exception of the placement
    leaves the call. *)
Theorem make_fft_filter_follows_centroid (self : AdaptiveOpticsFunctions)
    (image : ndarray) (r c : nat) (region window_dim mask_di : option nat)
    (path : nat → Z * Z) :
  shape image = [r; c] →
  let w := even_window window_dim in
  let h := Z.of_nat (w / 2) in
  let region' := match region with None => r / 16 | Some g => g end in
  let fftarray := log_spectrum image region' in
  let test_point := argmax_spectrum image region' in
  path 0 = (Z.of_nat (test_point mod c), Z.of_nat (test_point / c)) →
  (∀ k, k < 10 →
     (h ≤ (path k).1 ∧ (path k).1 + h ≤ Z.of_nat c)%Z
     ∧ (h ≤ (path k).2 ∧ (path k).2 + h ≤ Z.of_nat r)%Z
     ∧ ∃ com0 com1,
         centroid (window_at fftarray c w (path k)) = Some (com0, com1)
         ∧ path (S k) = ((path k).1 - h + com1, (path k).2 - h + com0)%Z) →
  make_fft_filter log_spectrum argmax_spectrum centroid place_mask self image
    region window_dim mask_di
  = (filter ← place_mask (r, c) (path 10) mask_di;
     Ok (set_fft_filter self filter, filter)).
Proof.
  intros Hshape w h region' fftarray test_point Hstart Hpath.
  unfold make_fft_filter, shape2. rewrite Hshape.
  cbn [mbind result_bind]. fold region' fftarray test_point w.
  destruct (for_each_range (λ _ : nat, refine centroid fftarray r c w)
              (λ k p, p = path k) 10
              (Z.of_nat (test_point mod c), Z.of_nat (test_point / c)))
    as (p & -> & ->); [done| |done].
  intros k p Hk ->.
  destruct (Hpath k Hk) as (Hx & Hy & com0 & com1 & Hcom & Hnext).
  exists (path (S k)). split; [|done].
  destruct (path k) as [x y] eqn:Hp. cbn [fst snd] in *.
  rewrite Hnext. apply refine_in_bounds; try done. apply even_window_even.
Qed.

End PeakRefinement.

(** An 8 × 8 map standing for its own spectrum, first estimate at
    (4, 4), a window of 4: the centre of mass is the centre of every
    window, the estimate stays, and the mask of diameter 4 is placed
    there. *)
Lemma make_fft_filter_follows_centroid_witness :
  make_fft_filter (λ image _, image) (λ _ _, 4 * 8 + 4) centre_unless_flat
    (place_fourier_mask flat_window) init (arange2 8 8) None (Some 4) (Some 4)
  = (filter ← place_fourier_mask flat_window (8, 8) (4, 4)%Z (Some 4);
     Ok (set_fft_filter init filter, filter)).
Proof.
  apply (make_fft_filter_follows_centroid (λ image _, image)
           (λ _ _, 4 * 8 + 4) centre_unless_flat
           (place_fourier_mask flat_window) init (arange2 8 8) 8 8
           None (Some 4) (Some 4) (λ _, (4, 4)%Z) eq_refl eq_refl).
  intros k Hk. split; [simpl; lia|]. split; [simpl; lia|].
  exists 2%Z, 2%Z. split; reflexivity.
Defined.

(** ** The mask of [unwrap_interferometry] *)

Section PhaseExtractorMask.

Variable complex_array : Type.
Variable windowed_transform : ndarray → complex_array.
Variable fftshift : ndarray → ndarray.
Variable filter_product : complex_array → ndarray → option complex_array.
Variable wrapped_phase : complex_array → ndarray → option ndarray.
Variable unwrap_phase : ndarray → ndarray.

(** What the statement uses of [skimage.restoration.unwrap_phase]: the
    unwrapped image is an array of the shape of the wrapped one. *)
Hypothesis unwrap_phase_shape : ∀ a, shape (unwrap_phase a) = shape a.
Hypothesis unwrap_phase_wf :
  ∀ a, wf_ndarray a → wf_ndarray (unwrap_phase a).

(** X8.  With a filter and a mask of the shape of the phase map, the call
    returns an array of that shape; what is unwrapped is the wrapped
    phase times the mask, and the result is the unwrapped phase times
    the mask again: at every pixel where the mask is zero the result is
    zero, and at every pixel where the mask is one it is the unwrapped
    value. *)
Theorem unwrap_interferometry_masked (self : AdaptiveOpticsFunctions)
    (image filter m phaseorder1 : ndarray) (filtered : complex_array) :
  fft_filter self = Some filter → mask self = Some m →
  filter_product (windowed_transform image) (fftshift filter) = Some filtered →
  wrapped_phase filtered filter = Some phaseorder1 →
  shape phaseorder1 = shape m → wf_ndarray phaseorder1 → wf_ndarray m →
  ∃ phaseorder1mask phase_image,
    multiply phaseorder1 m = Ok phaseorder1mask
    ∧ unwrap_interferometry complex_array windowed_transform fftshift
        filter_product wrapped_phase unwrap_phase self image
      = Ok phase_image
    ∧ shape phase_image = shape m ∧ wf_ndarray phase_image
    ∧ (∀ k x, data m !! k = Some x → (x == 0)%Q →
         ∃ y, data phase_image !! k = Some y ∧ (y == 0)%Q)
    ∧ (∀ k x, data m !! k = Some x → (x == 1)%Q →
         ∃ y u, data phase_image !! k = Some y
                ∧ data (unwrap_phase phaseorder1mask) !! k = Some u
                ∧ (y == u)%Q).
Proof using unwrap_phase_shape unwrap_phase_wf.
  intros Hfilter Hmask Hproduct Hphase Hshape Hwf Hwfm.
  set (masked := NDArray (shape phaseorder1)
                   (zip_with Qmult (data phaseorder1) (data m))).
  assert (Hlen : length (data phaseorder1) = length (data m)).
  { unfold wf_ndarray in Hwf, Hwfm. by rewrite Hwf, Hwfm, Hshape. }
  assert (Hwfmasked : wf_ndarray masked).
  { unfold wf_ndarray, masked. cbn [data shape]. rewrite length_zip_with.
    unfold wf_ndarray in Hwf. lia. }
  assert (Hlenu : length (data (unwrap_phase masked)) = length (data m)).
  { pose proof (unwrap_phase_wf masked Hwfmasked) as Hu.
    unfold wf_ndarray in Hu, Hwfm.
    rewrite Hu, unwrap_phase_shape, Hwfm. unfold masked. cbn [shape].
    by rewrite Hshape. }
  exists masked. eexists.
  assert (Hfirst : multiply phaseorder1 m = Ok masked).
  { unfold multiply. by destruct (decide _). }
  split; [done|]. split.
  { unfold unwrap_interferometry. rewrite Hfilter, Hproduct. simpl.
    rewrite Hphase. simpl. rewrite Hmask. unfold times_field.
    rewrite Hfirst. simpl. unfold multiply.
    rewrite unwrap_phase_shape. simpl.
    destruct (decide _) as [|Hne]; [reflexivity|by destruct Hne]. }
  simpl. split; [done|]. split.
  { unfold wf_ndarray. cbn [data shape]. rewrite length_zip_with, Hlenu.
    unfold wf_ndarray in Hwfm. rewrite Hshape. lia. }
  split.
  - intros k x Hx Hzero. rewrite lookup_zip_with, Hx.
    destruct (lookup_lt_is_Some_2 (data (unwrap_phase masked)) k) as [u ->].
    { rewrite Hlenu. apply lookup_lt_is_Some. by eexists. }
    simpl. eexists. split; [done|]. rewrite Hzero. ring.
  - intros k x Hx Hone. rewrite lookup_zip_with, Hx.
    destruct (lookup_lt_is_Some_2 (data (unwrap_phase masked)) k) as [u Hu].
    { rewrite Hlenu. apply lookup_lt_is_Some. by eexists. }
    rewrite Hu. simpl. exists (u * x)%Q, u. split; [done|]. split; [done|].
    rewrite Hone. ring.
Qed.

End PhaseExtractorMask.

(** A two by two phase map and the mask of its anti-diagonal. *)
Lemma unwrap_interferometry_masked_witness :
  let m := NDArray [2; 2] [0; 1; 1; 0]%Q in
  let self := set_mask (set_fft_filter init (pixel 1)) m in
  ∃ phaseorder1mask phase_image,
    multiply (NDArray [2; 2] [1; 2; 3; 4]%Q) m = Ok phaseorder1mask
    ∧ unwrap_interferometry ndarray id id (λ a _, Some a) (λ a _, Some a) id
        self (NDArray [2; 2] [1; 2; 3; 4]%Q)
      = Ok phase_image
    ∧ shape phase_image = shape m ∧ wf_ndarray phase_image
    ∧ (∀ k x, data m !! k = Some x → (x == 0)%Q →
         ∃ y, data phase_image !! k = Some y ∧ (y == 0)%Q)
    ∧ (∀ k x, data m !! k = Some x → (x == 1)%Q →
         ∃ y u, data phase_image !! k = Some y
                ∧ data (id phaseorder1mask) !! k = Some u
                ∧ (y == u)%Q).
Proof.
  apply (unwrap_interferometry_masked ndarray id id
           (λ a _, Some a) (λ a _, Some a) id (λ a, eq_refl) (λ a H, H)
           (set_mask (set_fft_filter init (pixel 1))
              (NDArray [2; 2] [0; 1; 1; 0]%Q))
           (NDArray [2; 2] [1; 2; 3; 4]%Q) (pixel 1)
           (NDArray [2; 2] [0; 1; 1; 0]%Q) (NDArray [2; 2] [1; 2; 3; 4]%Q)
           (NDArray [2; 2] [1; 2; 3; 4]%Q)); reflexivity.
Defined.
(** ** The resolution of [get_zernike_modes] *)

(** X9.  Lines 251-255 on a map of side [n] with a target [t] (both
    positive): the loop ends on a divisor [d] of [n], and the resolution
    [r] kept after line 255 divides [n] and is at least the square root
    of [n].  It is either [d], within the target, or the quotient
    [n / d], larger than [d]; in particular when nothing between 2 and
    the target divides [n] the map is not reduced at all. *)
Theorem resize_dim_covers_the_map (n t : nat) :
  0 < n → 0 < t →
  ∃ d,
    shrink_to_divisor n t = Ok d
    ∧ let ratio := (inject_Z (Z.of_nat n) / inject_Z (Z.of_nat d))%Q in
      let r := if Qlt_le_dec (inject_Z (Z.of_nat d)) ratio
               then Z.to_nat (np_round ratio) else d in
      n mod r = 0 ∧ n ≤ r * r
      ∧ (r = d ∧ r ≤ t ∨ d * r = n ∧ d < r)
      ∧ ((∀ d', 2 ≤ d' ≤ t → n mod d' ≠ 0) → 1 < n → r = n).
Proof.
  intros Hn Ht. exists (largest_divisor_upto n t).
  split; [by apply shrink_to_divisor_largest|]. cbv zeta.
  rewrite resize_dim_rounding by done.
  destruct (working_resolution_divides n t Ht Hn) as (Hdiv & Hr & Hk).
  destruct (largest_divisor_upto_spec n t Ht) as (Hd & Hrange & Hmax).
  unfold working_resolution in *.
  set (d := largest_divisor_upto n t) in *.
  assert (Hnd : n = d * (n / d)) by (by apply Nat.Div0.div_exact).
  destruct (decide (d < n / d)) as [Hlt|Hge].
  - split; [by apply Nat.Div0.div_exact|]. split; [nia|].
    split; [right; lia|]. intros Hnone _.
    destruct (decide (d = 1)) as [->|]; [by rewrite Nat.div_1_r|].
    exfalso. apply (Hnone d); [lia|done].
  - split; [done|]. split; [nia|]. split; [left; lia|]. intros Hnone H1.
    destruct (decide (d = 1)) as [E|E]; [rewrite E in Hge, Hnd; lia|].
    exfalso. apply (Hnone d); [lia|done].
Qed.

(** A map of side 14 with target 4: the loop stops at 2 and the
    resolution kept is 7. *)
Lemma resize_dim_covers_the_map_witness :
  ∃ d,
    shrink_to_divisor 14 4 = Ok d
    ∧ let ratio := (inject_Z (Z.of_nat 14) / inject_Z (Z.of_nat d))%Q in
      let r := if Qlt_le_dec (inject_Z (Z.of_nat d)) ratio
               then Z.to_nat (np_round ratio) else d in
      14 mod r = 0 ∧ 14 ≤ r * r
      ∧ (r = d ∧ r ≤ 4 ∨ d * r = 14 ∧ d < r)
      ∧ ((∀ d', 2 ≤ d' ≤ 4 → 14 mod d' ≠ 0) → 1 < 14 → r = 14).
Proof. apply (resize_dim_covers_the_map 14 4); lia. Defined.

(** ** The modal projection is linear *)

Lemma bigsum_combination (n : nat) (k : Q) (f g : nat → Q) :
  (bigsum n (λ i, k * f i + g i) == k * bigsum n f + bigsum n g)%Q.
Proof.
  induction n as [|n IH]; [unfold bigsum; simpl; ring|].
  rewrite !bigsum_S, IH. ring.
Qed.

Lemma trapezoid_combination (n : nat) (k : Q) (f g : nat → Q) :
  (trapezoid n (λ i, k * f i + g i)
   == k * trapezoid n f + trapezoid n g)%Q.
Proof.
  unfold trapezoid.
  rewrite <- bigsum_combination. apply bigsum_ext. intros i _. field.
Qed.

Lemma item2_combination (k : Q) (a b : ndarray) (s : list nat) (c i j : nat) :
  length (data a) = length (data b) →
  (item2 (NDArray s (zip_with (λ x y, k * x + y) (data a) (data b))) c i j
   == k * item2 a c i j + item2 b c i j)%Q.
Proof.
  intros Hlen. unfold item2. cbn [data]. rewrite lookup_zip_with.
  destruct (data a !! (i * c + j)) as [x|] eqn:Hx.
  - destruct (lookup_lt_is_Some_2 (data b) (i * c + j)) as [y ->]; [|done].
    rewrite <- Hlen. apply lookup_lt_is_Some. by eexists.
  - simpl. apply lookup_ge_None in Hx.
    rewrite (proj2 (lookup_ge_None (data b) _)) by lia. simpl. ring.
Qed.

Section ModalProjectorLinear.

Variable zernike : nat → nat → ndarray.
Hypothesis zernike_has_shape : ∀ j n, shape (zernike j n) = [n; n].
Hypothesis zernike_is_wf : ∀ j n, wf_ndarray (zernike j n).

Lemma projection_combination (k : Q) (a b : ndarray) (s : list nat)
    (n r j : nat) :
  length (data a) = length (data b) →
  (projection zernike
     (NDArray s (zip_with (λ x y, k * x + y) (data a) (data b))) n r j
   == k * projection zernike a n r j + projection zernike b n r j)%Q.
Proof.
  intros Hlen. unfold projection.
  set (pixels := inject_Z (Z.of_nat (count_nonzero (zernike 1 r)))).
  transitivity
    (trapezoid r (λ u,
       k * trapezoid r (λ v,
             block_mean a n (n / r) (n / r) u v * item2 (zernike j r) r u v)
       + trapezoid r (λ v,
             block_mean b n (n / r) (n / r) u v * item2 (zernike j r) r u v))
     / pixels)%Q.
  - apply Qmult_comp; [|reflexivity].
    apply trapezoid_ext. intros u _. rewrite <- trapezoid_combination.
    apply trapezoid_ext. intros v _. unfold block_mean.
    transitivity
      ((k * bigsum (n / r) (λ u0, bigsum (n / r) (λ v0,
              item2 a n (u * (n / r) + u0) (v * (n / r) + v0)))
        + bigsum (n / r) (λ u0, bigsum (n / r) (λ v0,
              item2 b n (u * (n / r) + u0) (v * (n / r) + v0))))
       / inject_Z (Z.of_nat (n / r * (n / r))) * item2 (zernike j r) r u v)%Q.
    + apply Qmult_comp; [|reflexivity]. apply Qmult_comp; [|reflexivity].
      rewrite <- bigsum_combination. apply bigsum_ext. intros u0 _.
      rewrite <- bigsum_combination. apply bigsum_ext. intros v0 _.
      by apply item2_combination.
    + unfold Qdiv. ring.
  - rewrite trapezoid_combination. unfold Qdiv. ring.
Qed.

(** The call in closed form (the statement of the projection without
    its arithmetic on the resolution). *)
Lemma get_zernike_modes_closed_form (image : ndarray) (n numModes t : nat) :
  shape image = [n; n] → 0 < n → 0 < t →
  ∃ coefs,
    get_zernike_modes zernike image numModes t = Ok coefs
    ∧ Forall2 (λ j c, (c == projection zernike image n
                              (working_resolution n t) j)%Q)
        (seq 1 numModes) coefs.
Proof using zernike_has_shape zernike_is_wf.
  intros Hshape Hn Ht.
  unfold get_zernike_modes. rewrite Hshape. simpl.
  rewrite shrink_to_divisor_largest by done. simpl.
  rewrite resize_dim_rounding by done.
  set (r := working_resolution n t).
  destruct (working_resolution_divides n t Ht Hn) as (Hdiv & Hr & Hk).
  fold r in Hdiv, Hr, Hk.
  rewrite (bin_ndarray_mean_eq image r r (n / r) (n / r))
    by (done || by rewrite <- Hdiv).
  simpl. apply comprehension_Forall2.
  intros j _. by apply coefficient_projection.
Qed.

(** X10.  Superposition: on square maps of the same side, with a first
    mode that has a non-zero pixel at the working resolution, the
    coefficients of [k * a + b] are [k] times the coefficients of [a]
    plus the coefficients of [b]. *)
Theorem get_zernike_modes_linear (k : Q) (a b : ndarray)
    (n noZernikeModes resize_dim : nat) (coef_a coef_b : list Q) :
  shape a = [n; n] → wf_ndarray a → shape b = [n; n] → wf_ndarray b →
  0 < n → 0 < resize_dim →
  count_nonzero (zernike 1 (working_resolution n resize_dim)) ≠ 0 →
  get_zernike_modes zernike a noZernikeModes resize_dim = Ok coef_a →
  get_zernike_modes zernike b noZernikeModes resize_dim = Ok coef_b →
  ∃ coef,
    get_zernike_modes zernike
      (NDArray [n; n] (zip_with (λ x y, k * x + y)%Q (data a) (data b)))
      noZernikeModes resize_dim = Ok coef
    ∧ Forall2 Qeq coef (zip_with (λ x y, k * x + y)%Q coef_a coef_b).
Proof using zernike_has_shape zernike_is_wf.
  intros Ha Hwa Hb Hwb Hn Ht _ Hca Hcb.
  assert (Hlen : length (data a) = length (data b)).
  { unfold wf_ndarray in *. by rewrite Hwa, Hwb, Ha, Hb. }
  destruct (get_zernike_modes_closed_form a n noZernikeModes resize_dim)
    as (ca & Hca' & HFa); try done.
  destruct (get_zernike_modes_closed_form b n noZernikeModes resize_dim)
    as (cb & Hcb' & HFb); try done.
  rewrite Hca in Hca'. injection Hca' as <-.
  rewrite Hcb in Hcb'. injection Hcb' as <-.
  destruct (get_zernike_modes_closed_form
              (NDArray [n; n] (zip_with (λ x y, k * x + y)%Q (data a) (data b)))
              n noZernikeModes resize_dim) as (coef & Hc & HF); try done.
  exists coef. split; [done|].
  pose proof (Forall2_length _ _ _ HFa) as La.
  pose proof (Forall2_length _ _ _ HFb) as Lb.
  pose proof (Forall2_length _ _ _ HF) as Lc.
  apply Forall2_same_length_lookup_2.
  { rewrite length_zip_with. lia. }
  intros i x y Hx Hy. rewrite lookup_zip_with in Hy.
  destruct (coef_a !! i) as [xa|] eqn:Hxa; [|done].
  destruct (coef_b !! i) as [xb|] eqn:Hxb; [|done].
  simpl in Hy. injection Hy as <-.
  destruct (lookup_lt_is_Some_2 (seq 1 noZernikeModes) i) as [j Hj].
  { rewrite La. apply lookup_lt_is_Some. by eexists. }
  rewrite (Forall2_lookup_lr _ _ _ _ _ _ HF Hj Hx).
  rewrite (Forall2_lookup_lr _ _ _ _ _ _ HFa Hj Hxa).
  rewrite (Forall2_lookup_lr _ _ _ _ _ _ HFb Hj Hxb).
  by apply projection_combination.
Qed.

End ModalProjectorLinear.

(** Two 4 × 4 maps projected on two modes of the flat basis. *)
Lemma get_zernike_modes_linear_witness :
  ∃ coef,
    get_zernike_modes flat_basis
      (NDArray [4; 4]
         (zip_with (λ x y, 3 * x + y)%Q
            (data (arange2 4 4)) (data (flat_basis 1 4)))) 2 2
    = Ok coef
    ∧ Forall2 Qeq coef
        (zip_with (λ x y, 3 * x + y)%Q
           [245760 # 131072; 491520 # 131072]%Q
           [32768 # 131072; 65536 # 131072]%Q).
Proof.
  assert (Hwf : ∀ j n, wf_ndarray (flat_basis j n)).
  { intros j n. unfold wf_ndarray, flat_basis. simpl.
    rewrite length_replicate. lia. }
  apply (get_zernike_modes_linear flat_basis (λ _ _, eq_refl) Hwf 3
           (arange2 4 4) (flat_basis 1 4) 4 2 2).
  - reflexivity.
  - reflexivity.
  - reflexivity.
  - apply Hwf.
  - lia.
  - lia.
  - by vm_compute.
  - vm_compute. reflexivity.
  - vm_compute. reflexivity.
Defined.

(** ** The product of [ac_pos_from_zernike] *)

(** The call in closed form, for a stored matrix with [A] rows and
    [M] columns. *)
Lemma ac_pos_from_zernike_eq (self : AdaptiveOpticsFunctions) (cm : ndarray)
    (A M : nat) (applied_z_modes : list Q) (numActuators : nat) :
  controlMatrix self = Some cm → shape cm = [A; M] →
  ac_pos_from_zernike self applied_z_modes numActuators
  = if decide (A = numActuators) then
      Ok ((λ i, sumQ (zip_with Qmult (row cm M i)
                        (resize M 0%Q applied_z_modes))) <$> seq 0 A)
    else Raise (Exception EmptyString).
Proof.
  intros Hcm Hshape.
  assert (Hdesired :
    (if decide (length applied_z_modes < M) then
       applied_z_modes ++ zeros (M - length applied_z_modes)
     else if decide (M < length applied_z_modes) then take M applied_z_modes
     else applied_z_modes) = resize M 0%Q applied_z_modes).
  { rewrite resize_spec. unfold zeros.
    destruct (decide _); [by rewrite take_ge by lia|].
    replace (M - length applied_z_modes) with 0 by lia. simpl.
    rewrite app_nil_r. destruct (decide _); [done|]. by rewrite take_ge by lia. }
  unfold ac_pos_from_zernike. rewrite Hcm. simpl.
  unfold shape2. rewrite Hshape. simpl. rewrite Hdesired.
  unfold dot, shape2. rewrite Hshape. simpl.
  rewrite length_resize. destruct (decide (M = M)); [|done]. simpl.
  rewrite length_fmap, length_seq. by destruct (decide (A = numActuators)).
Qed.

(** A call that returns found a two-dimensional matrix with
    [numActuators] rows. *)
Lemma ac_pos_from_zernike_returns (self : AdaptiveOpticsFunctions)
    (applied_z_modes actuator_pos : list Q) (numActuators : nat) :
  ac_pos_from_zernike self applied_z_modes numActuators = Ok actuator_pos →
  ∃ cm M, controlMatrix self = Some cm ∧ shape cm = [numActuators; M].
Proof.
  intros Hok. destruct (controlMatrix self) as [cm|] eqn:Hcm.
  - destruct (shape cm) as [|A [|M [|]]] eqn:Hshape;
      try (unfold ac_pos_from_zernike, shape2 in Hok;
           rewrite Hcm in Hok; simpl in Hok; rewrite Hshape in Hok; done).
    rewrite (ac_pos_from_zernike_eq self cm A M) in Hok by done.
    destruct (decide (A = numActuators)) as [->|]; [|done]. by exists cm, M.
  - unfold ac_pos_from_zernike in Hok. by rewrite Hcm in Hok.
Qed.

Lemma sumQ_zip_zeros (r : list Q) (n : nat) :
  (sumQ (zip_with Qmult r (replicate n 0%Q)) == 0)%Q.
Proof.
  revert n. induction r as [|u r IH]; intros [|n]; simpl; try reflexivity.
  rewrite IH. ring.
Qed.

Lemma sumQ_zip_combination (k : Q) (r a b : list Q) (M : nat) :
  length a = length b →
  (sumQ (zip_with Qmult r
           (resize M 0%Q (zip_with (λ x y, k * x + y) a b)))
   == k * sumQ (zip_with Qmult r (resize M 0%Q a))
      + sumQ (zip_with Qmult r (resize M 0%Q b)))%Q.
Proof.
  revert r b M. induction a as [|x a IH]; intros r [|y b] M Hlen; try done.
  - simpl. rewrite !resize_nil, sumQ_zip_zeros. ring.
  - destruct M as [|M]; simpl.
    + destruct r; simpl; ring.
    + destruct r as [|u r]; simpl; [ring|].
      rewrite (IH r b M) by (simpl in Hlen; lia). ring.
Qed.

Lemma zip_with_fmap_same {A B C D : Type} (g : B → C → D) (f1 : A → B)
    (f2 : A → C) (l : list A) :
  zip_with g (f1 <$> l) (f2 <$> l) = (λ i, g (f1 i) (f2 i)) <$> l.
Proof. induction l as [|x l IH]; [done|]. csimpl. by rewrite IH. Qed.

Lemma Forall2_fmap_same {A : Type} (R : Q → Q → Prop) (f g : A → Q)
    (l : list A) :
  (∀ i, i ∈ l → R (f i) (g i)) → Forall2 R (f <$> l) (g <$> l).
Proof.
  intros H. apply Forall2_fmap. induction l as [|x l IH]; [constructor|].
  constructor; [apply H; left|]. apply IH. intros i Hi. apply H. by right.
Qed.

(** X14.  The actuator positions are linear in the desired modes: for two
    vectors of modes of the same length, both accepted, the positions
    for [k * a + b] are [k] times the positions for [a] plus the
    positions for [b]. *)
Theorem ac_pos_from_zernike_linear (self : AdaptiveOpticsFunctions)
    (k : Q) (a b pos_a pos_b : list Q) (numActuators : nat) :
  length a = length b →
  ac_pos_from_zernike self a numActuators = Ok pos_a →
  ac_pos_from_zernike self b numActuators = Ok pos_b →
  ∃ pos,
    ac_pos_from_zernike self (zip_with (λ x y, k * x + y)%Q a b) numActuators
    = Ok pos
    ∧ Forall2 Qeq pos (zip_with (λ x y, k * x + y)%Q pos_a pos_b).
Proof.
  intros Hlen Ha Hb.
  destruct (ac_pos_from_zernike_returns _ _ _ _ Ha) as (cm & M & Hcm & Hshape).
  rewrite (ac_pos_from_zernike_eq self cm numActuators M) in Ha, Hb by done.
  rewrite (ac_pos_from_zernike_eq self cm numActuators M) by done.
  destruct (decide (numActuators = numActuators)); [|done].
  injection Ha as <-. injection Hb as <-.
  eexists. split; [reflexivity|].
  rewrite zip_with_fmap_same. apply Forall2_fmap_same.
  intros i _. by apply sumQ_zip_combination.
Qed.

(** Two vectors of three modes on a matrix for two actuators. *)
Lemma ac_pos_from_zernike_linear_witness :
  let self := set_controlMatrix init (NDArray [2; 3] [1; 2; 3; 4; 5; 6]%Q) in
  ∃ pos,
    ac_pos_from_zernike self
      (zip_with (λ x y, 2 * x + y)%Q [1; 0; 1]%Q [0; 1; 1]%Q) 2
    = Ok pos
    ∧ Forall2 Qeq pos (zip_with (λ x y, 2 * x + y)%Q [4; 10]%Q [5; 11]%Q).
Proof.
  apply (ac_pos_from_zernike_linear
           (set_controlMatrix init (NDArray [2; 3] [1; 2; 3; 4; 5; 6]%Q))
           2 [1; 0; 1]%Q [0; 1; 1]%Q [4; 10]%Q [5; 11]%Q 2).
  - reflexivity.
  - vm_compute. reflexivity.
  - vm_compute. reflexivity.
Defined.

(** ** The entries of the sensitivity matrix *)

Section CalibratorEntries.

Variable linregress : list Q → list Q → option Q.
Variables (zernikeAmps pokeSteps : ndarray) (samples M A : nat).
Variable pupil_ac : option (list Q).
Hypothesis zernikeAmps_shape : shape zernikeAmps = [samples; M].
Hypothesis pokeSteps_shape : shape pokeSteps = [samples; A].
Hypothesis pupil_ac_length : ∀ p, pupil_ac = Some p → length p = A.

(** X11.  The sensitivity matrix holds the slopes: when every actuator of
    the pupil has two samples or more, the entry of mode [kk] and of an
    actuator [ii] of the pupil is the slope [linregress] returns for the
    non-zero steps of [ii] against the amplitudes of [kk] measured in
    the same samples. *)
Theorem sensitivity_matrix_slopes :
  (∀ ii, ii < A → in_pupil pupil_ac ii = true →
         2 ≤ poked_samples pokeSteps ii) →
  ∃ C_mat,
    sensitivity_matrix linregress zernikeAmps pokeSteps A pupil_ac = Ok C_mat
    ∧ ∀ ii kk s, ii < A → kk < M → in_pupil pupil_ac ii = true →
        linregress (poked_steps pokeSteps samples A ii)
          (poked_amplitudes zernikeAmps pokeSteps samples M A ii kk)
        = Some s →
        item2 C_mat A kk ii = s.
Proof using pupil_ac_length zernikeAmps_shape pokeSteps_shape.
  intros Henough.
  destruct (sensitivity_matrix_columns linregress zernikeAmps pokeSteps samples M
              A pupil_ac zernikeAmps_shape pokeSteps_shape pupil_ac_length
              Henough) as (C & HC & _ & _ & P3 & _).
  by exists C.
Qed.

(** X12.  A regression that raises is not fatal and leaves a stale value:
    the exception is printed, and the entry of that mode and actuator is
    the entry of the same mode for the actuator of the pupil treated
    just before, or zero when there is none. *)
Theorem sensitivity_matrix_stale_slope :
  (∀ ii, ii < A → in_pupil pupil_ac ii = true →
         2 ≤ poked_samples pokeSteps ii) →
  ∃ C_mat,
    sensitivity_matrix linregress zernikeAmps pokeSteps A pupil_ac = Ok C_mat
    ∧ ∀ ii kk, ii < A → kk < M → in_pupil pupil_ac ii = true →
        linregress (poked_steps pokeSteps samples A ii)
          (poked_amplitudes zernikeAmps pokeSteps samples M A ii kk)
        = None →
        (∀ jj, jj < ii → in_pupil pupil_ac jj = true →
           (∀ j', jj < j' < ii → in_pupil pupil_ac j' = false) →
           item2 C_mat A kk ii = item2 C_mat A kk jj)
        ∧ ((∀ jj, jj < ii → in_pupil pupil_ac jj = false) →
           item2 C_mat A kk ii = 0%Q).
Proof using pupil_ac_length zernikeAmps_shape pokeSteps_shape.
  intros Henough.
  destruct (sensitivity_matrix_columns linregress zernikeAmps pokeSteps samples M
              A pupil_ac zernikeAmps_shape pokeSteps_shape pupil_ac_length
              Henough) as (C & HC & _ & _ & _ & P4).
  by exists C.
Qed.

Variable pinv : ndarray → Q → ndarray.

(** What the statement uses of [np.linalg.pinv]: the pseudo-inverse
    of an [r × c] matrix is a [c × r] matrix. *)
Hypothesis pinv_has_shape :
  ∀ a r c rcond, shape a = [r; c] → shape (pinv a rcond) = [c; r].

(** X13.  Calibration makes synthesis possible: after a successful
    [create_control_matrix] for [A] actuators, the object holds the
    matrix returned, its other fields are untouched, and
    [ac_pos_from_zernike] with [numActuators = A] returns [A]
    positions for a vector of modes of any length. *)
Theorem create_control_matrix_then_ac_pos (self : AdaptiveOpticsFunctions)
    (threshold : Q) :
  (∀ ii, ii < A → in_pupil pupil_ac ii = true →
         2 ≤ poked_samples pokeSteps ii) →
  ∃ self' cm,
    create_control_matrix linregress pinv self zernikeAmps pokeSteps A
      pupil_ac threshold = Ok (self', cm)
    ∧ controlMatrix self' = Some cm
    ∧ mask self' = mask self ∧ fft_filter self' = fft_filter self
    ∧ metric self' = metric self
    ∧ ∀ applied_z_modes,
        ∃ actuator_pos,
          ac_pos_from_zernike self' applied_z_modes A = Ok actuator_pos
          ∧ length actuator_pos = A.
Proof using pinv_has_shape pupil_ac_length zernikeAmps_shape pokeSteps_shape.
  intros Henough.
  destruct (sensitivity_matrix_columns linregress zernikeAmps pokeSteps samples M
              A pupil_ac zernikeAmps_shape pokeSteps_shape pupil_ac_length
              Henough) as (C & HC & Hshape & _).
  exists (set_controlMatrix self (pinv C threshold)), (pinv C threshold).
  split; [unfold create_control_matrix; by rewrite HC|].
  split; [done|]. split; [done|]. split; [done|]. split; [done|].
  intros applied_z_modes.
  rewrite (ac_pos_from_zernike_eq _ (pinv C threshold) A M)
    by (done || by apply pinv_has_shape).
  destruct (decide (A = A)); [|done].
  eexists. split; [reflexivity|]. by rewrite length_fmap, length_seq.
Qed.

End CalibratorEntries.

(** The sample calibration: the regressions of actuator 0 on mode 0
    and of actuator 1 on mode 1 give the slopes 2 and 3. *)
Lemma sensitivity_matrix_slopes_witness :
  ∃ C_mat,
    sensitivity_matrix least_squares_slope sample_zernikeAmps sample_pokeSteps
      2 None = Ok C_mat
    ∧ ∀ ii kk s, ii < 2 → kk < 2 → in_pupil None ii = true →
        least_squares_slope (poked_steps sample_pokeSteps 4 2 ii)
          (poked_amplitudes sample_zernikeAmps sample_pokeSteps 4 2 2 ii kk)
        = Some s →
        item2 C_mat 2 kk ii = s.
Proof.
  apply (sensitivity_matrix_slopes least_squares_slope sample_zernikeAmps
           sample_pokeSteps 4 2 2 None); try done.
  intros ii Hii _. destruct ii as [|[|ii]]; vm_compute; lia.
Defined.

(** The same step twice on actuator 1: its regressions raise, and its
    column repeats the column of actuator 0. *)
Lemma sensitivity_matrix_stale_slope_witness :
  ∃ C_mat,
    sensitivity_matrix regression_slope sample_zernikeAmps
      sample_pokeSteps_repeated 2 None = Ok C_mat
    ∧ ∀ ii kk, ii < 2 → kk < 2 → in_pupil None ii = true →
        regression_slope (poked_steps sample_pokeSteps_repeated 4 2 ii)
          (poked_amplitudes sample_zernikeAmps sample_pokeSteps_repeated
             4 2 2 ii kk)
        = None →
        (∀ jj, jj < ii → in_pupil None jj = true →
           (∀ j', jj < j' < ii → in_pupil None j' = false) →
           item2 C_mat 2 kk ii = item2 C_mat 2 kk jj)
        ∧ ((∀ jj, jj < ii → in_pupil None jj = false) →
           item2 C_mat 2 kk ii = 0%Q).
Proof.
  apply (sensitivity_matrix_stale_slope regression_slope sample_zernikeAmps
           sample_pokeSteps_repeated 4 2 2 None); try done.
  intros ii Hii _. destruct ii as [|[|ii]]; vm_compute; lia.
Defined.

(** The sample calibration, then desired modes of any length for its
    two actuators. *)
Lemma create_control_matrix_then_ac_pos_witness :
  ∃ self' cm,
    create_control_matrix least_squares_slope pinv_monomial init
      sample_zernikeAmps sample_pokeSteps 2 None default_threshold
    = Ok (self', cm)
    ∧ controlMatrix self' = Some cm
    ∧ mask self' = mask init ∧ fft_filter self' = fft_filter init
    ∧ metric self' = metric init
    ∧ ∀ applied_z_modes,
        ∃ actuator_pos,
          ac_pos_from_zernike self' applied_z_modes 2 = Ok actuator_pos
          ∧ length actuator_pos = 2.
Proof.
  apply (create_control_matrix_then_ac_pos least_squares_slope
           sample_zernikeAmps sample_pokeSteps 4 2 2 None);
    try done.
  - apply pinv_monomial_shape.
  - intros ii Hii _. destruct ii as [|[|ii]]; vm_compute; lia.
Defined.

(** ** Edges of the sensorless estimator *)

Lemma index_mask_some (v : list Q) (m : list bool) (k : nat) :
  length v = length m → m !! k = Some true →
  ∃ x rest, (zip v m ≫= λ '(x, b), if b : bool then [x] else []) = x :: rest.
Proof.
  revert m k. induction v as [|x v IH]; intros [|b m] k Hlen Hk; try done.
  simpl. destruct b; [by eexists _, _|]. simpl.
  destruct k as [|k]; [done|]. apply (IH m k); [by injection Hlen|done].
Qed.

(** A mask that holds at two places selects two elements at least. *)
Lemma index_mask_twice (v : list Q) (m : list bool) (k1 k2 : nat) :
  length v = length m → k1 < k2 →
  m !! k1 = Some true → m !! k2 = Some true →
  ∃ x y rest, index_mask v m = Ok (x :: y :: rest).
Proof.
  intros Hlen Hlt H1 H2. unfold index_mask. destruct (decide _); [|done].
  clear e. revert m k1 k2 Hlen Hlt H1 H2.
  induction v as [|x v IH]; intros [|b m] k1 k2 Hlen Hlt H1 H2; try done.
  simpl. destruct k2 as [|k2]; [lia|]. simpl in H2.
  destruct b; simpl.
  - destruct (index_mask_some v m k2) as (y & rest & Heq);
      [by injection Hlen|done|].
    exists x, y, rest. do 2 f_equal. exact Heq.
  - destruct k1 as [|k1]; [done|].
    apply (IH m k1 k2); [by injection Hlen|lia|done|done].
Qed.

Section SensorlessEdges.

Variables measure_fourier_metric measure_contrast_metric
  measure_fourier_power_metric measure_gradient_metric
  measure_second_moment_metric : ndarray → Q.
Variable curve_fit :
  list Q → list Q → list bound → list bound → result (Q * Q * Q * Q).
Variable two_sigma_test : list Q → bool.

(** What the statement on constant amplitudes uses of [curve_fit]:
    like [scipy.optimize.least_squares], which it calls, it refuses
    with a [ValueError] bounds whose lower end is not strictly below
    the upper one. *)
Hypothesis curve_fit_needs_room :
  ∀ xdata ydata l0 l1 l u l3 u0 u1 u3,
    (u <= l)%Q →
    ∃ msg, curve_fit xdata ydata [l0; l1; Finite l; l3] [u0; u1; Finite u; u3]
           = Raise (ValueError msg).

Local Abbreviation table :=
  (metric_function measure_fourier_metric measure_contrast_metric
     measure_fourier_power_metric measure_gradient_metric
     measure_second_moment_metric).
Local Abbreviation amplitude :=
  (find_zernike_amp_sensorless measure_fourier_metric measure_contrast_metric
     measure_fourier_power_metric measure_gradient_metric
     measure_second_moment_metric curve_fit two_sigma_test).
Local Abbreviation amplitudes :=
  (get_zernike_modes_sensorless measure_fourier_metric measure_contrast_metric
     measure_fourier_power_metric measure_gradient_metric
     measure_second_moment_metric curve_fit two_sigma_test).
Local Abbreviation one_mode :=
  (estimate_mode measure_fourier_metric measure_contrast_metric
     measure_fourier_power_metric measure_gradient_metric
     measure_second_moment_metric curve_fit two_sigma_test).

(** X15.  A tie at the top is fatal: when the fit raises
    [RuntimeError], the comparison of line 356 holds and two images
    reach the largest metric, the mask of line 358 selects more than
    one amplitude and the formatting of line 364 raises [TypeError].
    For a comparison accurate to the relative margin [tol] on these
    metrics, that is the case when the largest metric exceeds the mean
    by more than [(1 + tol)] times two standard deviations. *)
Theorem find_zernike_amp_sensorless_tie_raises
    (self : AdaptiveOpticsFunctions) (image_stack : list ndarray)
    (zernike_amplitudes : list Q) (f : ndarray → Q) (lo hi top tol : Q)
    (k1 k2 : nat) (y1 y2 : Q) :
  table (metric self) = Ok f →
  length zernike_amplitudes = length image_stack →
  np_min zernike_amplitudes = Ok lo → np_max zernike_amplitudes = Ok hi →
  curve_fit zernike_amplitudes (f <$> image_stack)
    [NINF; Finite 0; Finite (lo - (25 # 100) * (hi - lo)); NINF]
    [Inf; Inf; Finite (hi + (25 # 100) * (hi - lo)); Inf]
  = Raise RuntimeError →
  np_max (f <$> image_stack) = Ok top →
  let metrics_measured := f <$> image_stack in
  let excess := (top - meanQ metrics_measured)%Q in
  let variance := np_var metrics_measured in
  k1 < k2 →
  metrics_measured !! k1 = Some y1 → (y1 == top)%Q →
  metrics_measured !! k2 = Some y2 → (y2 == top)%Q →
  (two_sigma_test metrics_measured = true →
     amplitude self image_stack zernike_amplitudes
     = Raise (TypeError
                "only size-1 arrays can be converted to Python scalars"))
  ∧ (accurate_to tol two_sigma_test metrics_measured top →
     (0 <= excess)%Q →
     (4 * variance * ((1 + tol) * (1 + tol)) < excess * excess)%Q →
     amplitude self image_stack zernike_amplitudes
     = Raise (TypeError
                "only size-1 arrays can be converted to Python scalars")).
Proof.
  intros Hf Hlen Hlo Hhi Hfit Htop metrics_measured excess variance
    Hlt Hy1 Hq1 Hy2 Hq2.
  assert (Hholds : two_sigma_test metrics_measured = true →
    amplitude self image_stack zernike_amplitudes
    = Raise (TypeError
               "only size-1 arrays can be converted to Python scalars"));
    [|split; [done|]; intros [Habove _] Hpos Hgt; apply Hholds;
      by apply Habove].
  intros Htest.
  unfold find_zernike_amp_sensorless.
  rewrite (metrics_measured_ok _ _ _ _ _ self f) by done. simpl.
  rewrite Hlo, Hhi. simpl. rewrite Hfit, Htop. simpl.
  fold metrics_measured. rewrite Htest.
  destruct (index_mask_twice zernike_amplitudes
              ((λ m, Qeq_bool m top) <$> metrics_measured) k1 k2)
    as (x & y & rest & ->); try done.
  - unfold metrics_measured. by rewrite !length_fmap.
  - rewrite list_lookup_fmap, Hy1. simpl. f_equal. by apply Qeq_bool_iff.
  - rewrite list_lookup_fmap, Hy2. simpl. f_equal. by apply Qeq_bool_iff.
Qed.

(** X16.  A scan needs two amplitudes: when all the amplitudes of a
    block are equal, and so when the block has a single measurement,
    the bounds of the peak location of lines 347-348 coincide,
    [curve_fit] refuses them with a [ValueError], and as only
    [RuntimeError] is caught the call raises it. *)
Theorem find_zernike_amp_sensorless_constant_amplitude
    (self : AdaptiveOpticsFunctions) (image_stack : list ndarray)
    (zernike_amplitudes : list Q) (f : ndarray → Q) :
  table (metric self) = Ok f →
  zernike_amplitudes ≠ [] →
  (∀ x y, x ∈ zernike_amplitudes → y ∈ zernike_amplitudes → (x == y)%Q) →
  ∃ msg,
    amplitude self image_stack zernike_amplitudes = Raise (ValueError msg).
Proof using curve_fit_needs_room.
  intros Hf Hne Hsame.
  destruct (np_min zernike_amplitudes) as [lo|] eqn:Hlo;
    [|by destruct zernike_amplitudes].
  destruct (np_max zernike_amplitudes) as [hi|] eqn:Hhi;
    [|by destruct zernike_amplitudes].
  destruct (np_min_spec _ _ Hlo) as [Hlo_in _].
  destruct (np_max_spec _ _ Hhi) as [Hhi_in _].
  pose proof (Hsame hi lo Hhi_in Hlo_in) as Heq.
  destruct (curve_fit_needs_room zernike_amplitudes (f <$> image_stack)
              NINF (Finite 0) (lo - (25 # 100) * (hi - lo))%Q
              (hi + (25 # 100) * (hi - lo))%Q NINF Inf Inf Inf)
    as [msg Hfit]; [rewrite Heq; lra|].
  exists msg. unfold find_zernike_amp_sensorless.
  rewrite (metrics_measured_ok _ _ _ _ _ self f) by done. simpl.
  rewrite Hlo, Hhi. simpl. by rewrite Hfit.
Qed.

(** Without amplitudes there is no estimate: on an empty block the
    minimum of line 347 raises [ValueError], whatever the fit would
    do. *)
Lemma find_zernike_amp_sensorless_empty (self : AdaptiveOpticsFunctions)
    (f : ndarray → Q) (image_stack : list ndarray) :
  table (metric self) = Ok f →
  amplitude self image_stack []
  = Raise (ValueError "zero-size array to reduction operation minimum").
Proof.
  intros Hf. unfold find_zernike_amp_sensorless.
  by rewrite (metrics_measured_ok _ _ _ _ _ self f) by done.
Qed.

(** X17.  One measurement per mode at least: with no mode requested the
    division of line 368 raises [ZeroDivisionError]; with more modes
    than rows of amplitudes every block is empty and, the first index
    being one of the table, the call raises the [ValueError] of the
    empty minimum. *)
Theorem get_zernike_modes_sensorless_too_few (self : AdaptiveOpticsFunctions)
    (full_image_stack : list ndarray) (full_zernike_applied : ndarray)
    (nollZernike : list Z) (S N : nat) (f : ndarray → Q) :
  shape full_zernike_applied = [S; N] →
  table (metric self) = Ok f →
  (nollZernike = [] →
     amplitudes self full_image_stack full_zernike_applied nollZernike
     = Raise ZeroDivisionError)
  ∧ (∀ z rest, nollZernike = z :: rest →
       S < length nollZernike → (- Z.of_nat N < z ≤ Z.of_nat N)%Z →
       amplitudes self full_image_stack full_zernike_applied nollZernike
       = Raise (ValueError "zero-size array to reduction operation minimum")).
Proof.
  intros Hshape Hf. split.
  - intros ->. unfold get_zernike_modes_sensorless, shape2.
    by rewrite Hshape.
  - intros z rest -> HS Hz.
    unfold get_zernike_modes_sensorless, shape2. rewrite Hshape.
    cbn [mbind result_bind]. unfold floordiv.
    destruct (decide _) as [|_]; [done|].
    rewrite Nat.div_small by done. cbn [mbind result_bind length seq for_each].
    unfold estimate_mode, shape2. rewrite Hshape.
    cbn [mbind result_bind lookup list_lookup default]. unfold id.
    assert (∃ j, py_index N (z - 1) = Some j) as [j ->].
    { unfold py_index. repeat destruct (decide _); try by eexists. lia. }
    cbn [mbind result_bind]. rewrite !Nat.mul_0_r.
    unfold py_slice. rewrite Nat.sub_diag, !take_0.
    by rewrite (find_zernike_amp_sensorless_empty self f).
Qed.

(** X18.  Indices are Python indices: a requested index [z] that is zero or
    negative, down to [1 - N], is not refused; the step of the loop
    reads column [N + z - 1] and writes that entry of the result. *)
Theorem estimate_mode_wraps (self : AdaptiveOpticsFunctions)
    (full_image_stack : list ndarray) (full_zernike_applied : ndarray)
    (nollZernike : list Z) (S N numMes ii : nat) (z : Z) (coef : list Q)
    (a : pyfloat) (x : Q) :
  shape full_zernike_applied = [S; N] → length coef = N →
  nollZernike !! ii = Some z → (- Z.of_nat N < z ≤ 0)%Z →
  let position := Z.to_nat (Z.of_nat N + z - 1) in
  amplitude self
    (take numMes (drop (ii * numMes) full_image_stack))
    (take numMes (drop (ii * numMes)
       (column full_zernike_applied S N position)))
  = Ok a →
  as_element a = Ok x →
  one_mode self full_image_stack full_zernike_applied nollZernike numMes ii coef
  = Ok (<[position := x]> coef).
Proof.
  intros Hshape Hlen Hz Hrange position Ha Hx.
  unfold estimate_mode, shape2. rewrite Hshape, Hz, Hlen.
  cbn [mbind result_bind default]. unfold id.
  assert (py_index N (z - 1) = Some position) as ->.
  { unfold py_index, position. destruct (decide _); [lia|].
    destruct (decide _); [f_equal; lia|lia]. }
  cbn [mbind result_bind].
  rewrite !(py_slice_nat _ (ii * numMes) ((ii + 1) * numMes)) by lia.
  replace ((ii + 1) * numMes - ii * numMes) with numMes by lia.
  rewrite Ha. cbn [mbind result_bind]. by rewrite Hx.
Qed.

(** X19.  An index beyond the table is refused where it is met: when the
    modes before place [first] are estimated and the index at
    [first] is larger than [N] or not larger than [-N], the call
    raises [IndexError]. *)
Theorem get_zernike_modes_sensorless_bad_index
    (self : AdaptiveOpticsFunctions)
    (full_image_stack : list ndarray) (full_zernike_applied : ndarray)
    (nollZernike : list Z) (S N first : nat) (z : Z) :
  shape full_zernike_applied = [S; N] →
  nollZernike !! first = Some z →
  (Z.of_nat N < z ∨ z ≤ - Z.of_nat N)%Z →
  (∀ ii zi, ii < first → nollZernike !! ii = Some zi →
            (1 ≤ zi ≤ Z.of_nat N)%Z) →
  let numMes := S / length nollZernike in
  (∀ ii, ii < first →
     ∃ a x,
       amplitude self
         (take numMes (drop (ii * numMes) full_image_stack))
         (take numMes (drop (ii * numMes)
            (column full_zernike_applied S N (mode_position nollZernike ii))))
       = Ok a
       ∧ as_element a = Ok x) →
  amplitudes self full_image_stack full_zernike_applied nollZernike
  = Raise (IndexError "index is out of bounds for axis 1").
Proof.
  intros Hshape Hz Hbad Hrange numMes Hest.
  assert (Hfirst : first < length nollZernike)
    by (apply lookup_lt_is_Some; by eexists).
  unfold get_zernike_modes_sensorless, shape2. rewrite Hshape.
  cbn [mbind result_bind]. unfold floordiv.
  destruct (decide _); [lia|]. cbn [mbind result_bind]. fold numMes.
  apply (for_each_range_raise _ (λ _ coef, length coef = N) _ first);
    [done|apply length_replicate| |].
  - intros i coef Hi Hlen.
    destruct (lookup_lt_is_Some_2 nollZernike i) as [zi Hzi]; [lia|].
    pose proof (Hrange i zi Hi Hzi) as Hzr.
    destruct (Hest i Hi) as (a & x & Ha & Hx).
    assert (Hpos : mode_position nollZernike i = Z.to_nat (zi - 1)).
    { unfold mode_position. by rewrite Hzi. }
    unfold estimate_mode, shape2. rewrite Hshape, Hzi, Hlen.
    cbn [mbind result_bind default]. unfold id.
    rewrite !(py_index_one_based _ zi) by lia. rewrite <- Hpos.
    cbn [mbind result_bind].
    rewrite !(py_slice_nat _ (i * numMes) ((i + 1) * numMes)) by lia.
    replace ((i + 1) * numMes - i * numMes) with numMes by lia.
    rewrite Ha. cbn [mbind result_bind]. rewrite Hx. cbn [mbind result_bind].
    eexists. split; [reflexivity|]. by rewrite length_insert.
  - intros coef Hlen. unfold estimate_mode, shape2. rewrite Hshape, Hz.
    cbn [mbind result_bind default]. unfold id.
    assert (py_index N (z - 1) = None) as ->; [|done].
    unfold py_index. repeat destruct (decide _); try done; lia.
Qed.

End SensorlessEdges.

(** Twenty images, the last two equally bright: they stand at 0.9
    above the mean, two standard deviations are 0.6. *)
Lemma find_zernike_amp_sensorless_tie_raises_witness :
  find_zernike_amp_sensorless total_intensity total_intensity total_intensity
    total_intensity total_intensity never_converges two_sigma_clear init
    (pixel <$> replicate 18 0%Q ++ [1; 1]%Q)
    (replicate 18 0%Q ++ [1; 2]%Q)
  = Raise (TypeError "only size-1 arrays can be converted to Python scalars").
Proof.
  refine (proj2 (find_zernike_amp_sensorless_tie_raises total_intensity
           total_intensity total_intensity total_intensity total_intensity
           never_converges two_sigma_clear init
           (pixel <$> replicate 18 0%Q ++ [1; 1]%Q)
           (replicate 18 0%Q ++ [1; 2]%Q)
           total_intensity 0 2 1 margin 18 19 1 1
           eq_refl eq_refl eq_refl eq_refl eq_refl eq_refl _
           eq_refl _ eq_refl _)
           (two_sigma_clear_accurate
              (total_intensity <$> (pixel <$> replicate 18 0%Q ++ [1; 1]%Q))
              1 eq_refl) _ _).
  - lia.
  - reflexivity.
  - reflexivity.
  - by vm_compute.
  - by vm_compute.
Defined.

Lemma midpoint_fit_needs_room (xdata ydata : list Q)
    (l0 l1 : bound) (l u : Q) (l3 u0 u1 u3 : bound) :
  (u <= l)%Q →
  ∃ msg, midpoint_fit xdata ydata [l0; l1; Finite l; l3] [u0; u1; Finite u; u3]
         = Raise (ValueError msg).
Proof.
  intros Hle. apply Qle_bool_iff in Hle.
  unfold midpoint_fit. cbn [zip zip_with forallb fst snd].
  destruct (feasible l0 u0), (feasible l1 u1); cbn [andb];
    try (by eexists).
  cbn [feasible]. rewrite Hle. cbn [negb andb]. by eexists.
Qed.

(** Two images taken at the same amplitude. *)
Lemma find_zernike_amp_sensorless_constant_amplitude_witness :
  ∃ msg,
    find_zernike_amp_sensorless total_intensity total_intensity
      total_intensity total_intensity total_intensity midpoint_fit
      two_sigma_clear init (pixel <$> [1; 2]%Q) [3; 3]%Q
    = Raise (ValueError msg).
Proof.
  apply (find_zernike_amp_sensorless_constant_amplitude total_intensity
           total_intensity total_intensity total_intensity total_intensity
           midpoint_fit two_sigma_clear midpoint_fit_needs_room init
           (pixel <$> [1; 2]%Q) [3; 3]%Q total_intensity).
  - reflexivity.
  - discriminate.
  - intros x y Hx Hy.
    apply list_elem_of_In in Hx. apply list_elem_of_In in Hy.
    simpl in Hx, Hy. by destruct Hx as [<-|[<-|[]]], Hy as [<-|[<-|[]]].
Defined.

(** No mode requested; and two modes requested of a single row. *)
Lemma get_zernike_modes_sensorless_too_few_witness :
  get_zernike_modes_sensorless total_intensity total_intensity
    total_intensity total_intensity total_intensity midpoint_fit two_sigma_clear init
    [pixel 1] (NDArray [1; 3] [0; 5; 0]%Q) []
  = Raise ZeroDivisionError
  ∧ get_zernike_modes_sensorless total_intensity total_intensity
      total_intensity total_intensity total_intensity midpoint_fit two_sigma_clear init
      [pixel 1] (NDArray [1; 3] [0; 5; 0]%Q) [2; 3]%Z
    = Raise (ValueError "zero-size array to reduction operation minimum").
Proof.
  split.
  - apply (proj1 (get_zernike_modes_sensorless_too_few total_intensity
             total_intensity total_intensity total_intensity total_intensity
             midpoint_fit two_sigma_clear init [pixel 1] (NDArray [1; 3] [0; 5; 0]%Q) []
             1 3 total_intensity eq_refl eq_refl)).
    reflexivity.
  - apply (proj2 (get_zernike_modes_sensorless_too_few total_intensity
             total_intensity total_intensity total_intensity total_intensity
             midpoint_fit two_sigma_clear init [pixel 1] (NDArray [1; 3] [0; 5; 0]%Q)
             [2; 3]%Z 1 3 total_intensity eq_refl eq_refl) 2%Z [3%Z]).
    + reflexivity.
    + simpl. lia.
    + simpl. lia.
Defined.

(** The sample scan with the index 0 at the second place: the step
    reads and writes the last of the three modes. *)
Lemma estimate_mode_wraps_witness :
  estimate_mode total_intensity total_intensity total_intensity
    total_intensity total_intensity midpoint_fit two_sigma_clear init sample_scan_stack
    sample_scan_applied [2; 0]%Z 2 1 (zeros 3)
  = Ok (<[2 := (-40000 # 20000)%Q]> (zeros 3)).
Proof.
  apply (estimate_mode_wraps total_intensity total_intensity total_intensity
           total_intensity total_intensity midpoint_fit two_sigma_clear init
           sample_scan_stack sample_scan_applied [2; 0]%Z 4 3 2 1 0%Z
           (zeros 3) (Scalar (-40000 # 20000)) (-40000 # 20000)%Q);
    try reflexivity.
  lia.
Defined.

(** The sample scan with the index 7 at the second place. *)
Lemma get_zernike_modes_sensorless_bad_index_witness :
  get_zernike_modes_sensorless total_intensity total_intensity
    total_intensity total_intensity total_intensity midpoint_fit two_sigma_clear init
    sample_scan_stack sample_scan_applied [2; 7]%Z
  = Raise (IndexError "index is out of bounds for axis 1").
Proof.
  apply (get_zernike_modes_sensorless_bad_index total_intensity
           total_intensity total_intensity total_intensity total_intensity
           midpoint_fit two_sigma_clear init sample_scan_stack sample_scan_applied
           [2; 7]%Z 4 3 1 7%Z); try reflexivity.
  - left. simpl. lia.
  - intros ii zi Hii Hzi. destruct ii as [|ii]; [|lia].
    injection Hzi as <-. simpl. lia.
  - intros ii Hii. destruct ii as [|ii]; [|lia].
    by exists (Scalar (-120000 # 20000)), (-120000 # 20000)%Q.
Defined.

